(** * Parsley: a command line option parser

    A shallow embedding of [src/parsley.cpp] and [src/parsley.h]: the numeric
    text conversions ([str2real], [str2int], [real2str], [int2str]), the
    option specification builder ([OptionSpec] and its qualifier methods), the
    registry constructor with its conflict check, and [Parsley::process].

    Platform assumptions, stated once:
    - [intp_t] is [int], a 32 bit two's complement integer, held in [Z],
      and [long] has 64 bits;
    - [double] is IEEE 754 binary64, held in [spec_float] with precision 53
      and maximal exponent 1024; the NaNs of the machine are one value
      there, without the sign bit and the payload;
    - the C library is the GNU C library in the "C" locale: [sscanf] reads
      a number as its [vfscanf] does, [snprintf] follows ISO C, and
      conversions between text and binary64 round to nearest, ties to even;
    - [std::string] is a [string] of 8 bit characters. *)

From Stdlib Require Import ZArith NArith List String Ascii Bool Lia Permutation.
From Stdlib Require Import Floats.SpecFloat.
Import ListNotations.
Local Open Scope string_scope.

(** ** Characters and the C library's classification functions *)

Module Libc.

Definition isspace (c : ascii) : bool :=
  let n := nat_of_ascii c in
  ((9 <=? n)%nat && (n <=? 13)%nat) || (n =? 32)%nat.

Definition isdigit (c : ascii) : bool :=
  let n := nat_of_ascii c in (48 <=? n)%nat && (n <=? 57)%nat.

Definition tolower (c : ascii) : ascii :=
  let n := nat_of_ascii c in
  if (65 <=? n)%nat && (n <=? 90)%nat then ascii_of_nat (n + 32) else c.

Definition dec_digit (c : ascii) : option N :=
  if isdigit c then Some (N_of_ascii c - 48)%N else None.

Definition hex_digit (c : ascii) : option N :=
  let n := N_of_ascii c in
  if isdigit c then Some (n - 48)%N
  else if ((97 <=? n) && (n <=? 102))%N then Some (n - 87)%N
  else if ((65 <=? n) && (n <=? 70))%N then Some (n - 55)%N
  else None.

Definition isxdigit (c : ascii) : bool :=
  match hex_digit c with Some _ => true | None => false end.

Definition digit_char (d : N) : ascii := ascii_of_N (48 + d).

(** [snprintf (buffer, size, ...)] stores at most [size - 1] characters of the
    formatted text. *)
Definition snprintf_store (size : nat) (text : string) : string :=
  substring 0 (size - 1) text.

(** The digits of an unsigned number, least significant first into [acc]:
    the division loop of every [itoa]. *)
Fixpoint utoa_loop (fuel : nat) (n : N) (acc : string) : string :=
  match fuel with
  | O => acc
  | S fuel' =>
      let acc' := String (digit_char (n mod 10)) acc in
      if (n / 10 =? 0)%N then acc' else utoa_loop fuel' (n / 10) acc'
  end.

Definition utoa (n : N) : string :=
  utoa_loop (S (N.to_nat (N.log2 n))) n "".

(** The text of the conversion ["%d"]. *)
Definition format_d (i : Z) : string :=
  if (i <? 0)%Z then String "-" (utoa (Z.to_N (- i))) else utoa (Z.to_N i).

(** *** Scanning: the pieces of [sscanf]'s conversions *)

Fixpoint skip_space (s : string) : string :=
  match s with
  | String c s' => if isspace c then skip_space s' else s
  | EmptyString => s
  end.

Definition scan_sign (s : string) : bool * string :=
  match s with
  | String "-" s' => (true, s')
  | String "+" s' => (false, s')
  | _ => (false, s)
  end.

(** The longest run of digits in the given base: the value accumulated onto
    [acc], the number of digits read added to [count], and the text left. *)
Fixpoint scan_number (digit : ascii -> option N) (base : N)
         (s : string) (acc : N) (count : nat) : N * nat * string :=
  match s with
  | String c s' =>
      match digit c with
      | Some d => scan_number digit base s' (acc * base + d)%N (S count)
      | None => (acc, count, s)
      end
  | EmptyString => (acc, count, s)
  end.

(** A word matched without regard to case; [w] is given in lower case. *)
Fixpoint match_word (w s : string) : option string :=
  match w with
  | EmptyString => Some s
  | String a w' =>
      match s with
      | String c s' => if Ascii.eqb (tolower c) a then match_word w' s' else None
      | EmptyString => None
      end
  end.

End Libc.

(** ** The integer type [intp_t] *)

Definition int_min : Z := - 2 ^ 31.
Definition int_max : Z := 2 ^ 31 - 1.

Definition is_intp (i : Z) : Prop := (int_min <= i <= int_max)%Z.

(** Reduction of an arbitrary integer into [intp_t], two's complement. *)
Definition wrap_int (z : Z) : Z := ((z + 2 ^ 31) mod 2 ^ 32 - 2 ^ 31)%Z.

(** ** The type [double] *)

Module Double.

Definition prec : Z := 53.
Definition emax : Z := 1024.

Definition double : Type := spec_float.

Definition zero : double := S754_zero false.
Definition nan : double := S754_nan.
Definition infinity (neg : bool) : double := S754_infinity neg.

(** The C comparisons [x < y] and [x > y]; both are false on a NaN. *)
Definition lt (x y : double) : bool := SFltb x y.
Definition gt (x y : double) : bool := SFltb y x.
Definition eq (x y : double) : bool := SFeqb x y.

(** The value [m * 2 ^ e] rounded to binary64. *)
Definition of_binary (neg : bool) (m : N) (e : Z) : double :=
  match m with
  | N0 => S754_zero neg
  | Npos p => binary_round prec emax neg p e
  end.

(** The conversion of an integer to [double]. *)
Definition of_Z (z : Z) : double := binary_normalize prec emax z 0 false.

(** The value [m * 10 ^ e] rounded to binary64. *)
Definition of_decimal (neg : bool) (m : N) (e : Z) : double :=
  match m with
  | N0 => S754_zero neg
  | Npos p =>
      if (0 <=? e)%Z
      then binary_round prec emax neg (Z.to_pos (Zpos p * 10 ^ e)) 0
      else SFdiv prec emax (S754_finite neg p 0)
                           (S754_finite false (Z.to_pos (10 ^ (- e))) 0)
  end.

(** [floor (x) == x]. *)
Definition is_whole (x : double) : bool :=
  match x with
  | S754_zero _ => true
  | S754_infinity _ => true
  | S754_nan => false
  | S754_finite _ m e =>
      (0 <=? e)%Z || (Zpos m mod 2 ^ (- e) =? 0)%Z
  end.

(** *** Text to [double]: the conversion ["%lf"] of [sscanf]

    The conversion as the GNU C library carries it out, in two steps. First
    the characters that can go on a number are taken from the input into a
    buffer: an optional sign, then [nan], [inf] or [infinity] letter by
    letter in any case, or digits with at most one point and at most one
    exponent letter, which may be followed by a sign. Then [strtod] converts
    the buffer, and the conversion fails only when [strtod] converts nothing.
    What [strtod] leaves unread at the end of the buffer, an exponent letter
    without digits for one, has been taken from the input all the same. *)

Import Libc.

(** **** [strtod] on the buffer: the longest prefix that is a number *)

(** Digits with an optional point: the digits as one number, and how many of
    them stand after the point. At least one digit is required. *)
Definition scan_mantissa (digit : ascii -> option N) (base : N) (s : string)
  : option (N * nat * string) :=
  let '(ip, ni, s1) := scan_number digit base s 0%N 0 in
  match s1 with
  | String "." s2 =>
      let '(m, nf, s3) := scan_number digit base s2 ip 0 in
      if (ni + nf =? 0)%nat then None else Some (m, nf, s3)
  | _ => if (ni =? 0)%nat then None else Some (ip, 0, s1)
  end.

(** An optional exponent part introduced by [marker] ([e] or [p]). A marker
    that no digit follows is not part of the number: it is left unread, with
    the sign behind it. *)
Definition scan_exponent (marker : ascii) (s : string) : Z * string :=
  match s with
  | String c s' =>
      if Ascii.eqb (tolower c) marker then
        let (neg, s1) := scan_sign s' in
        match scan_number dec_digit 10 s1 0%N 0 with
        | (_, O, _) => (0%Z, s)
        | (v, S _, rest) => (if neg then (- Z.of_N v)%Z else Z.of_N v, rest)
        end
      else (0%Z, s)
  | EmptyString => (0%Z, s)
  end.

Definition scan_decimal (neg : bool) (s : string) : option (double * string) :=
  match scan_mantissa dec_digit 10 s with
  | None => None
  | Some (m, nf, s1) =>
      let (e, rest) := scan_exponent "e" s1 in
      Some (of_decimal neg m (e - Z.of_nat nf), rest)
  end.

(** The text behind [0] and [x]. Without a hexadecimal digit the number is
    the [0], and [x] is left unread with all that follows. *)
Definition scan_hexadecimal (neg : bool) (x : ascii) (s : string)
  : double * string :=
  match scan_mantissa hex_digit 16 s with
  | None => (S754_zero neg, String x s)
  | Some (m, nf, s1) =>
      let (e, rest) := scan_exponent "p" s1 in
      (of_binary neg m (e - 4 * Z.of_nat nf), rest)
  end.

(** [nan]. The buffer holds no parenthesis, so that the form [nan(...)] of
    [strtod] does not arise. The sign before [nan] goes into the sign bit of
    the NaN, which [double] does not hold. *)
Definition scan_nan (s : string) : option (double * string) :=
  match match_word "nan" s with
  | None => None
  | Some r => Some (nan, r)
  end.

Definition scan_infinity (neg : bool) (s : string) : option (double * string) :=
  match match_word "inf" s with
  | None => None
  | Some r =>
      match match_word "inity" r with
      | Some r' => Some (infinity neg, r')
      | None => Some (infinity neg, r)
      end
  end.

Definition strtod (nptr : string) : option (double * string) :=
  let (neg, s) := scan_sign (skip_space nptr) in
  match s with
  | String c s' =>
      if Ascii.eqb (tolower c) "n" then scan_nan s
      else if Ascii.eqb (tolower c) "i" then scan_infinity neg s
      else
        match s with
        | String "0" (String x s'') =>
            if Ascii.eqb (tolower x) "x"
            then Some (scan_hexadecimal neg x s'')
            else scan_decimal neg s
        | _ => scan_decimal neg s
        end
  | EmptyString => None
  end.

(** **** The characters that ["%lf"] takes from the input *)

Definition add (buffer : string) (c : ascii) : string :=
  buffer ++ String c "".

(** [charbuf.current[-1] == c]. *)
Fixpoint last_is (buffer : string) (c : ascii) : bool :=
  match buffer with
  | EmptyString => false
  | String d EmptyString => Ascii.eqb d c
  | String _ rest => last_is rest c
  end.

Definition exp_char (hexa : bool) : ascii := if hexa then "p" else "e".

(** A sign goes into the buffer. *)
Definition collect_sign (s : string) : string * string :=
  match s with
  | String c s' =>
      if Ascii.eqb c "-" || Ascii.eqb c "+" then (String c "", s') else ("", s)
  | EmptyString => ("", s)
  end.

(** The letters of [word], given in lower case, one after the other; any
    other character, or the end of the input, fails the conversion. *)
Fixpoint collect_word (word buffer s : string) : option (string * string) :=
  match word with
  | EmptyString => Some (buffer, s)
  | String a word' =>
      match s with
      | String c s' =>
          if Ascii.eqb (tolower c) a
          then collect_word word' (add buffer c) s'
          else None
      | EmptyString => None
      end
  end.

(** A leading [0], and the [x] behind it that makes the number hexadecimal:
    the flags [hexa] and [got_digit], the buffer and the input left. *)
Definition collect_prefix (buffer s : string) : bool * bool * string * string :=
  match s with
  | String c s' =>
      if Ascii.eqb c "0" then
        match s' with
        | String x s'' =>
            if Ascii.eqb (tolower x) "x"
            then (true, false, add (add buffer c) x, s'')
            else (false, true, add buffer c, s')
        | EmptyString => (false, true, add buffer c, s')
        end
      else (false, false, buffer, s)
  | EmptyString => (false, false, buffer, s)
  end.

(** The loop over the characters of a number. The first character that
    cannot go on the number ends it and stays in the input. *)
Fixpoint collect_number (hexa got_digit got_dot got_e : bool)
         (buffer s : string) : string * string :=
  match s with
  | EmptyString => (buffer, s)
  | String c s' =>
      if isdigit c
      then collect_number hexa true got_dot got_e (add buffer c) s'
      else if negb got_e && hexa && isxdigit c
      then collect_number hexa true got_dot got_e (add buffer c) s'
      else if got_e && last_is buffer (exp_char hexa)
              && (Ascii.eqb c "-" || Ascii.eqb c "+")
      then collect_number hexa got_digit got_dot got_e (add buffer c) s'
      else if got_digit && negb got_e && Ascii.eqb (tolower c) (exp_char hexa)
      then collect_number hexa got_digit true true
                          (add buffer (exp_char hexa)) s'
      else if negb got_dot && Ascii.eqb c "."
      then collect_number hexa got_digit true got_e (add buffer c) s'
      else (buffer, s)
  end.

(** The buffer and the input left, or [None] when the conversion fails
    before [strtod] is called: the input ends behind the sign, a word is not
    spelled out, or nothing but a sign, or nothing but a sign and [0x], has
    been collected. [inf] followed by [i] must go on to [infinity]. *)
Definition collect (s : string) : option (string * string) :=
  let (got_sign, s1) := collect_sign s in
  match s1 with
  | EmptyString => None
  | String c _ =>
      if Ascii.eqb (tolower c) "n" then collect_word "nan" got_sign s1
      else if Ascii.eqb (tolower c) "i" then
        match collect_word "inf" got_sign s1 with
        | Some (buffer, String i rest) =>
            if Ascii.eqb (tolower i) "i"
            then collect_word "inity" buffer (String i rest)
            else Some (buffer, String i rest)
        | found => found
        end
      else
        let '(hexa, got_digit, buffer, s2) := collect_prefix got_sign s1 in
        let (number, rest) :=
          collect_number hexa got_digit false false buffer s2 in
        if (length number =? length got_sign)%nat
           || hexa && (length number =? 2 + length got_sign)%nat
        then None
        else Some (number, rest)
  end.

(** ["%lf"]: the value that [strtod] finds in the buffer, and the input
    left behind the characters collected. *)
Definition scan_double (input : string) : option (double * string) :=
  match collect (skip_space input) with
  | None => None
  | Some (buffer, rest) =>
      match strtod buffer with
      | None => None
      | Some (value, _) => Some (value, rest)
      end
  end.


(** *** [double] to text: the conversions ["%.1f"] and ["%g"] of [snprintf] *)

(** The exact value of a finite [double] as a fraction. *)
Definition ratio (m : positive) (e : Z) : Z * Z :=
  if (0 <=? e)%Z then (Zpos m * 2 ^ e, 1)%Z else (Zpos m, 2 ^ (- e))%Z.

(** [num / den * 10 ^ s], again as a fraction. *)
Definition scale10 (num den s : Z) : Z * Z :=
  if (0 <=? s)%Z then (num * 10 ^ s, den)%Z else (num, den * 10 ^ (- s))%Z.

Definition round_half_even (num den : Z) : Z :=
  let q := (num / den)%Z in
  match (2 * (num mod den) ?= den)%Z with
  | Lt => q
  | Gt => (q + 1)%Z
  | Eq => if Z.even q then q else (q + 1)%Z
  end.

(** The largest [k] with [10 ^ k <= num / den]. *)
Definition floor_log10 (num den : Z) : Z :=
  let k := (Z.of_nat (length (utoa (Z.to_N num)))
            - Z.of_nat (length (utoa (Z.to_N den))))%Z in
  let (a, b) := scale10 num den (- k) in
  if (b <=? a)%Z then k else (k - 1)%Z.

Fixpoint strip_zeros (s : string) : string :=
  match s with
  | EmptyString => EmptyString
  | String c s' =>
      let r := strip_zeros s' in
      if Ascii.eqb c "0" && String.eqb r "" then EmptyString else String c r
  end.

Fixpoint zeros (n : nat) : string :=
  match n with O => EmptyString | S n' => String "0" (zeros n') end.

Definition sign_text (neg : bool) : string := if neg then "-" else "".

(** ["%.1f"]: one digit after the point. *)
Definition format_f1 (x : double) : string :=
  match x with
  | S754_nan => "nan"
  | S754_infinity neg => sign_text neg ++ "inf"
  | S754_zero neg => sign_text neg ++ "0.0"
  | S754_finite neg m e =>
      let (num, den) := ratio m e in
      let n := round_half_even (num * 10) den in
      sign_text neg ++ utoa (Z.to_N (n / 10)) ++ "."
        ++ utoa (Z.to_N (n mod 10))
  end.

(** ["%g"]: six significant digits, in the style of ["%e"] when the decimal
    exponent is below -4 or at least 6 and of ["%f"] otherwise, trailing
    zeros removed. *)
Definition format_g (x : double) : string :=
  match x with
  | S754_nan => "nan"
  | S754_infinity neg => sign_text neg ++ "inf"
  | S754_zero neg => sign_text neg ++ "0"
  | S754_finite neg m e =>
      let (num, den) := ratio m e in
      let x0 := floor_log10 num den in
      let (a, b) := scale10 num den (5 - x0) in
      let n0 := round_half_even a b in
      let (n, x) := if (n0 =? 10 ^ 6)%Z then (10 ^ 5, x0 + 1)%Z else (n0, x0) in
      let digits := utoa (Z.to_N n) in
      sign_text neg ++
      if ((-4 <=? x) && (x <? 6))%Z then
        if (0 <=? x)%Z then
          let ip := substring 0 (Z.to_nat (x + 1)) digits in
          let fp := strip_zeros (substring (Z.to_nat (x + 1)) 6 digits) in
          if String.eqb fp "" then ip else ip ++ "." ++ fp
        else "0." ++ zeros (Z.to_nat (- x - 1)) ++ strip_zeros digits
      else
        let fp := strip_zeros (substring 1 5 digits) in
        substring 0 1 digits ++ (if String.eqb fp "" then "" else "." ++ fp)
          ++ "e" ++ (if (x <? 0)%Z then "-" else "+")
          ++ (if (Z.abs x <? 10)%Z then "0" else "") ++ utoa (Z.to_N (Z.abs x))
  end.

End Double.

Abbreviation double := Double.double.

(** *** The conversion ["%d"] of [sscanf]

    White space is skipped, then an optional sign and decimal digits are
    read. The library converts them with [strtol], which gives the nearest
    [long] for a number that does not fit one, and stores the result as an
    [int]. *)

Module Scanf.

Import Libc.

Definition long_min : Z := - 2 ^ 63.
Definition long_max : Z := 2 ^ 63 - 1.

Definition strtol_value (z : Z) : Z := Z.max long_min (Z.min long_max z).

Definition scan_int (input : string) : option (Z * string) :=
  let (neg, s) := scan_sign (skip_space input) in
  match scan_number dec_digit 10 s 0%N 0 with
  | (_, O, _) => None
  | (v, S _, rest) =>
      Some (wrap_int (strtol_value (if neg then - Z.of_N v else Z.of_N v)),
            rest)
  end.

(** [sscanf (input, "<conv>!!%c", &value, &c)] for a conversion [conv]: the
    number of items assigned (-1 when the input ends before the first
    conversion), and the items that were stored. *)
Definition sscanf_sentinel {A : Type} (conv : string -> option (A * string))
           (input : string) : Z * option A * option ascii :=
  match conv input with
  | None =>
      match skip_space input with
      | EmptyString => (-1, None, None)%Z
      | _ => (0, None, None)%Z
      end
  | Some (value, rest) =>
      match rest with
      | String "!" (String "!" (String c _)) => (2%Z, Some value, Some c)
      | _ => (1%Z, Some value, None)
      end
  end.

End Scanf.


(** ** Utility functions of [parsley.cpp] *)

Import Libc.

(** [stripString]: the two index loops, then [substr (start, end - start)]. *)
Fixpoint strip_start (str : string) : nat :=
  match str with
  | String c str' => if isspace c then S (strip_start str') else 0
  | EmptyString => 0
  end.

Fixpoint strip_end (str : string) (start e : nat) : nat :=
  match e with
  | O => O
  | S e' =>
      if (start <? e)%nat
         && match get e' str with Some c => isspace c | None => false end
      then strip_end str start e'
      else e
  end.

Definition stripString (str : string) : string :=
  let strSize := length str in
  let start := strip_start str in
  let e := strip_end str start strSize in
  substring start (e - start) str.

(** [Parsley::join]. *)
Fixpoint join_from (args : list string) (sep : string) (first : bool)
         (result : string) : string :=
  match args with
  | [] => result
  | item :: rest =>
      join_from rest sep false
                ((if first then result else result ++ sep) ++ item)
  end.

Definition join (args : list string) (sep : string) : string :=
  join_from args sep true "".

(** The sentinel appended by [str2real] and [str2int]. *)
Definition sentinel : string := "!!x".

(** [Parsley::str2real]. The result is the value written through [value]
    when the function returns true, and [None] when it returns false. *)
Definition str2real (str : string) : option double :=
  match index 0 "!!" str with
  | Some _ => None
  | None =>
      let temp := stripString str ++ sentinel in
      let '(n, value, c) := Scanf.sscanf_sentinel Double.scan_double temp in
      if negb (n =? 2)%Z then None
      else if negb (Ascii.eqb (match c with Some c => c | None => " "%char end) "x")
      then None
      else value
  end.

Definition dmin : double := Double.of_Z int_min.
Definition dmax : double := Double.of_Z int_max.

(** [Parsley::str2int]. *)
Definition str2int (str : string) : option Z :=
  match str2real str with
  | None => None
  | Some real =>
      if Double.lt real dmin then None
      else if Double.gt real dmax then None
      else
        let temp := stripString str ++ sentinel in
        let '(n, value, c) := Scanf.sscanf_sentinel Scanf.scan_int temp in
        if negb (n =? 2)%Z then None
        else if negb (Ascii.eqb (match c with Some c => c | None => " "%char end) "x")
        then None
        else value
  end.

(** [Parsley::real2str]. *)
Definition real2str (x : double) : string :=
  let wholeNumber := Double.is_whole x in
  if wholeNumber
  then snprintf_store 40 (Double.format_f1 x)
  else snprintf_store 40 (Double.format_g x).

(** [Parsley::int2str]. *)
Definition int2str (i : Z) : string := snprintf_store 40 (format_d i).

(** [Parsley::indexOf]. *)
Fixpoint indexOf_from (opts : list string) (value : string) (index : Z) : Z :=
  match opts with
  | [] => (-1)%Z
  | item :: rest =>
      let index := (index + 1)%Z in
      if value =? item then index else indexOf_from rest value index
  end.

Definition indexOf (opts : list string) (value : string) : Z :=
  indexOf_from opts value (-1)%Z.

(** ** Option specifications *)

Inductive Kind := kFlag | kStr | kEnum | kInt | kReal.

Definition Kind_eqb (a b : Kind) : bool :=
  match a, b with
  | kFlag, kFlag | kStr, kStr | kEnum, kEnum | kInt, kInt | kReal, kReal => true
  | _, _ => false
  end.

Record OptionSpec := {
  m_kind : Kind;
  m_longName : string;
  m_shortName : ascii;
  m_description : string;
  m_isRequired : bool;
  m_isSingleton : bool;
  m_enumOptions : list string;
  m_rangeIsDefined : bool;
  m_minIntValue : Z;
  m_maxIntValue : Z;
  m_minRealValue : double;
  m_maxRealValue : double;
  m_evIsDefined : bool;
  m_evName : string;
  m_defaultIsDefined : bool;
  m_defaultStr : string;
  m_defaultInt : Z;
  m_defaultReal : double
}.

(** The character ['\0'], the short name of an option that has none. *)
Definition no_short_name : ascii := "000"%char.

(** The constructor [OptionSpec (kind, longName, shortName, description,
    isRequired)]. *)
Definition new_OptionSpec (kind : Kind) (longName : string) (shortName : ascii)
           (description : string) (isRequired : bool) : OptionSpec :=
  {| m_kind := kind;
     m_longName := longName;
     m_shortName := shortName;
     m_description := description;
     m_isRequired := isRequired;
     m_isSingleton := false;
     m_enumOptions := [];
     m_rangeIsDefined := false;
     m_minIntValue := 0;
     m_maxIntValue := 0;
     m_minRealValue := Double.zero;
     m_maxRealValue := Double.zero;
     m_evIsDefined := false;
     m_evName := "";
     m_defaultIsDefined := false;
     m_defaultStr := "";
     m_defaultInt := 0;
     m_defaultReal := Double.zero |}.

(** Assignments to the members that are not [const]. *)
Definition set_isSingleton (b : bool) (s : OptionSpec) : OptionSpec :=
  Build_OptionSpec s.(m_kind) s.(m_longName) s.(m_shortName) s.(m_description)
    s.(m_isRequired) b s.(m_enumOptions) s.(m_rangeIsDefined)
    s.(m_minIntValue) s.(m_maxIntValue) s.(m_minRealValue) s.(m_maxRealValue)
    s.(m_evIsDefined) s.(m_evName) s.(m_defaultIsDefined) s.(m_defaultStr)
    s.(m_defaultInt) s.(m_defaultReal).

Definition set_enumOptions (l : list string) (s : OptionSpec) : OptionSpec :=
  Build_OptionSpec s.(m_kind) s.(m_longName) s.(m_shortName) s.(m_description)
    s.(m_isRequired) s.(m_isSingleton) l s.(m_rangeIsDefined)
    s.(m_minIntValue) s.(m_maxIntValue) s.(m_minRealValue) s.(m_maxRealValue)
    s.(m_evIsDefined) s.(m_evName) s.(m_defaultIsDefined) s.(m_defaultStr)
    s.(m_defaultInt) s.(m_defaultReal).

Definition set_defaultIsDefined (b : bool) (s : OptionSpec) : OptionSpec :=
  Build_OptionSpec s.(m_kind) s.(m_longName) s.(m_shortName) s.(m_description)
    s.(m_isRequired) s.(m_isSingleton) s.(m_enumOptions) s.(m_rangeIsDefined)
    s.(m_minIntValue) s.(m_maxIntValue) s.(m_minRealValue) s.(m_maxRealValue)
    s.(m_evIsDefined) s.(m_evName) b s.(m_defaultStr)
    s.(m_defaultInt) s.(m_defaultReal).

Definition set_defaultStr (v : string) (s : OptionSpec) : OptionSpec :=
  Build_OptionSpec s.(m_kind) s.(m_longName) s.(m_shortName) s.(m_description)
    s.(m_isRequired) s.(m_isSingleton) s.(m_enumOptions) s.(m_rangeIsDefined)
    s.(m_minIntValue) s.(m_maxIntValue) s.(m_minRealValue) s.(m_maxRealValue)
    s.(m_evIsDefined) s.(m_evName) s.(m_defaultIsDefined) v
    s.(m_defaultInt) s.(m_defaultReal).

Definition set_defaultInt (v : Z) (s : OptionSpec) : OptionSpec :=
  Build_OptionSpec s.(m_kind) s.(m_longName) s.(m_shortName) s.(m_description)
    s.(m_isRequired) s.(m_isSingleton) s.(m_enumOptions) s.(m_rangeIsDefined)
    s.(m_minIntValue) s.(m_maxIntValue) s.(m_minRealValue) s.(m_maxRealValue)
    s.(m_evIsDefined) s.(m_evName) s.(m_defaultIsDefined) s.(m_defaultStr)
    v s.(m_defaultReal).

Definition set_defaultReal (v : double) (s : OptionSpec) : OptionSpec :=
  Build_OptionSpec s.(m_kind) s.(m_longName) s.(m_shortName) s.(m_description)
    s.(m_isRequired) s.(m_isSingleton) s.(m_enumOptions) s.(m_rangeIsDefined)
    s.(m_minIntValue) s.(m_maxIntValue) s.(m_minRealValue) s.(m_maxRealValue)
    s.(m_evIsDefined) s.(m_evName) s.(m_defaultIsDefined) s.(m_defaultStr)
    s.(m_defaultInt) v.

Definition set_intRange (lo hi : Z) (s : OptionSpec) : OptionSpec :=
  Build_OptionSpec s.(m_kind) s.(m_longName) s.(m_shortName) s.(m_description)
    s.(m_isRequired) s.(m_isSingleton) s.(m_enumOptions) true
    lo hi s.(m_minRealValue) s.(m_maxRealValue)
    s.(m_evIsDefined) s.(m_evName) s.(m_defaultIsDefined) s.(m_defaultStr)
    s.(m_defaultInt) s.(m_defaultReal).

Definition set_realRange (lo hi : double) (s : OptionSpec) : OptionSpec :=
  Build_OptionSpec s.(m_kind) s.(m_longName) s.(m_shortName) s.(m_description)
    s.(m_isRequired) s.(m_isSingleton) s.(m_enumOptions) true
    s.(m_minIntValue) s.(m_maxIntValue) lo hi
    s.(m_evIsDefined) s.(m_evName) s.(m_defaultIsDefined) s.(m_defaultStr)
    s.(m_defaultInt) s.(m_defaultReal).

Definition set_envVar (name : string) (defined : bool) (s : OptionSpec)
  : OptionSpec :=
  Build_OptionSpec s.(m_kind) s.(m_longName) s.(m_shortName) s.(m_description)
    s.(m_isRequired) s.(m_isSingleton) s.(m_enumOptions) s.(m_rangeIsDefined)
    s.(m_minIntValue) s.(m_maxIntValue) s.(m_minRealValue) s.(m_maxRealValue)
    defined name s.(m_defaultIsDefined) s.(m_defaultStr)
    s.(m_defaultInt) s.(m_defaultReal).

(** [OptionSpec::kindImage], [OptionSpec::info], [OptionSpec::name],
    [OptionSpec::range] and [OptionSpec::enum_set]. *)
Definition kindImage (kind : Kind) : string :=
  match kind with
  | kFlag => "flag"
  | kStr => "string"
  | kEnum => "enumSpec"
  | kInt => "integer"
  | kReal => "real"
  end.

Definition info (this : OptionSpec) : string :=
  "the " ++ kindImage this.(m_kind) ++ " option '" ++ this.(m_longName) ++ "'".

Definition name (this : OptionSpec) : string :=
  if negb (Ascii.eqb this.(m_shortName) no_short_name)
  then "-" ++ String this.(m_shortName) ", --" ++ this.(m_longName)
  else "--" ++ this.(m_longName).

Definition range (this : OptionSpec) : string :=
  if negb (Kind_eqb this.(m_kind) kInt) && negb (Kind_eqb this.(m_kind) kReal)
  then ""
  else if negb this.(m_rangeIsDefined) then ""
  else
    let (v1, v2) :=
      if Kind_eqb this.(m_kind) kInt
      then (int2str this.(m_minIntValue), int2str this.(m_maxIntValue))
      else (real2str this.(m_minRealValue), real2str this.(m_maxRealValue)) in
    snprintf_store 40 (v1 ++ " to " ++ v2).

Definition enum_set (this : OptionSpec) : string :=
  if negb (Kind_eqb this.(m_kind) kEnum) then "(nil)"
  else "(" ++ join this.(m_enumOptions) ", " ++ ")".

(** *** The factories *)

Definition help : OptionSpec :=
  set_defaultIsDefined true
    (set_isSingleton true
       (new_OptionSpec kFlag "help" "h" "Show this message and exit." false)).

Definition version : OptionSpec :=
  set_defaultIsDefined true
    (set_isSingleton true
       (new_OptionSpec kFlag "version" "V" "Show version and exit." false)).

Definition flagSpec (longName : string) (shortName : ascii)
           (description : string) (isSingleton : bool) : OptionSpec :=
  set_isSingleton isSingleton
    (set_defaultIsDefined true
       (new_OptionSpec kFlag longName shortName description false)).

Definition strSpec (longName : string) (shortName : ascii)
           (description : string) (isRequired : bool) : OptionSpec :=
  new_OptionSpec kStr longName shortName description isRequired.

Definition enumSpec (longName : string) (shortName : ascii)
           (description : string) (enumOptions : list string)
           (isRequired : bool) : OptionSpec :=
  set_enumOptions enumOptions
    (new_OptionSpec kEnum longName shortName description isRequired).

Definition intSpec (longName : string) (shortName : ascii)
           (description : string) (isRequired : bool) : OptionSpec :=
  new_OptionSpec kInt longName shortName description isRequired.

Definition realSpec (longName : string) (shortName : ascii)
           (description : string) (isRequired : bool) : OptionSpec :=
  new_OptionSpec kReal longName shortName description isRequired.

(** *** The qualifier methods

    Each one clones the specification and returns the clone; what is written
    to [std::cerr] by [warning] is returned beside it, in order. *)

Definition Warned (A : Type) : Type := A * list string.

Definition quiet {A : Type} (a : A) : Warned A := (a, []).
Definition warning {A : Type} (message : string) (a : A) : Warned A :=
  (a, [message]).

Definition defStr (defValue : string) (this : OptionSpec) : Warned OptionSpec :=
  let clone := this in
  if negb (Kind_eqb clone.(m_kind) kStr) && negb (Kind_eqb clone.(m_kind) kEnum)
  then warning ("default string value for " ++ info this ++ " ignored.") clone
  else if clone.(m_defaultIsDefined)
  then warning ("secondary default value for " ++ info this ++ " ignored.") clone
  else if Kind_eqb clone.(m_kind) kEnum
          && (indexOf clone.(m_enumOptions) defValue =? -1)%Z
  then warning ("the default value for " ++ info this
                ++ " is not an allowed value.") clone
  else quiet (set_defaultIsDefined true (set_defaultStr defValue clone)).

Definition defInt (defValue : Z) (this : OptionSpec) : Warned OptionSpec :=
  let clone := this in
  if negb (Kind_eqb clone.(m_kind) kInt)
  then warning ("default integer value for " ++ info this ++ " ignored.") clone
  else if clone.(m_defaultIsDefined)
  then warning ("secondary default value for " ++ info this ++ " ignored.") clone
  else
    let result := set_defaultIsDefined true (set_defaultInt defValue clone) in
    if clone.(m_rangeIsDefined)
       && ((defValue <? clone.(m_minIntValue))%Z
           || (defValue >? clone.(m_maxIntValue))%Z)
    then warning ("the default value for " ++ info this
                  ++ " is out of range.") result
    else quiet result.

Definition intRange (min max : Z) (this : OptionSpec) : Warned OptionSpec :=
  let clone := this in
  if negb (Kind_eqb clone.(m_kind) kInt)
  then warning ("integer range constraint for " ++ info this ++ " ignored.") clone
  else if clone.(m_rangeIsDefined)
  then warning ("secondary range constraint for " ++ info this ++ " ignored.")
               clone
  else
    let result := set_intRange min max clone in
    if clone.(m_defaultIsDefined)
       && ((clone.(m_defaultInt) <? min)%Z || (clone.(m_defaultInt) >? max)%Z)
    then warning ("the default value for " ++ info this
                  ++ " is out of range.") result
    else quiet result.

Definition defReal (defValue : double) (this : OptionSpec) : Warned OptionSpec :=
  let clone := this in
  if negb (Kind_eqb clone.(m_kind) kReal)
  then warning ("default real value for " ++ info this ++ " ignored.") clone
  else if clone.(m_defaultIsDefined)
  then warning ("secondary default value for " ++ info this ++ " ignored.") clone
  else
    let result := set_defaultIsDefined true (set_defaultReal defValue clone) in
    if clone.(m_rangeIsDefined)
       && (Double.lt defValue clone.(m_minRealValue)
           || Double.gt defValue clone.(m_maxRealValue))
    then warning ("the default value for " ++ info this
                  ++ " is out of range.") result
    else quiet result.

Definition realRange (min max : double) (this : OptionSpec)
  : Warned OptionSpec :=
  let clone := this in
  if negb (Kind_eqb clone.(m_kind) kReal)
  then warning ("real range constraint for " ++ info this ++ " ignored.") clone
  else if clone.(m_rangeIsDefined)
  then warning ("secondary range constraint for " ++ info this ++ " ignored.")
               clone
  else
    let result := set_realRange min max clone in
    if clone.(m_defaultIsDefined)
       && (Double.lt clone.(m_defaultReal) min
           || Double.gt clone.(m_defaultReal) max)
    then warning ("the default value for " ++ info this
                  ++ " is out of range.") result
    else quiet result.

Definition envVar (envVarName : string) (this : OptionSpec)
  : Warned OptionSpec :=
  let clone := this in
  if clone.(m_evIsDefined)
  then warning ("secondary environment variable for " ++ info this
                ++ " ignored.") clone
  else quiet (set_envVar envVarName (0 <? length envVarName)%nat clone).

(** The qualifier calls as data, so that a chain of calls can be spoken of. *)
Inductive Qualifier :=
| QdefStr (defValue : string)
| QdefInt (defValue : Z)
| QdefReal (defValue : double)
| QintRange (min max : Z)
| QrealRange (min max : double)
| QenvVar (envVarName : string).

Definition qualify (q : Qualifier) (this : OptionSpec) : Warned OptionSpec :=
  match q with
  | QdefStr v => defStr v this
  | QdefInt v => defInt v this
  | QdefReal v => defReal v this
  | QintRange lo hi => intRange lo hi this
  | QrealRange lo hi => realRange lo hi this
  | QenvVar n => envVar n this
  end.

(** The specifications a program can build: a factory call, then any number
    of qualifier calls. The constructors of [OptionSpec] are private. *)
Inductive Buildable : OptionSpec -> Prop :=
| B_help : Buildable help
| B_version : Buildable version
| B_flag : forall l s d g, Buildable (flagSpec l s d g)
| B_str : forall l s d r, Buildable (strSpec l s d r)
| B_enum : forall l s d o r, Buildable (enumSpec l s d o r)
| B_int : forall l s d r, Buildable (intSpec l s d r)
| B_real : forall l s d r, Buildable (realSpec l s d r)
| B_qualify : forall q spec, Buildable spec -> Buildable (fst (qualify q spec)).

(** ** Option values *)

(** [Parsley::OptionValue], as handed to the caller. *)
Record OptionValue := {
  ov_isDefined : bool;
  ov_flag : bool;
  ov_str : string;
  ov_ival : Z;
  ov_real : double
}.

(** [OptionValue::OptionValue ()]. *)
Definition empty_OptionValue : OptionValue :=
  {| ov_isDefined := false; ov_flag := false; ov_str := "";
     ov_ival := 0; ov_real := Double.zero |}.

(** [Parsley::ProxyValue]: the value and the parser's house-keeping. *)
Record ProxyValue := {
  isDefined : bool;
  flag : bool;
  str : string;
  ival : Z;
  real : double;
  m_alreadySpecified : bool;
  m_spec : OptionSpec
}.

(** [OptionValues::theMap]: the entries of the [std::unordered_map], one per
    key, in the order the keys were first set. The order in which the
    container is traversed is a separate matter, see [iteration] below. *)
Definition MapType : Type := list (string * ProxyValue).

Fixpoint map_find (theMap : MapType) (optionName : string)
  : option ProxyValue :=
  match theMap with
  | [] => None
  | (key, value) :: rest =>
      if key =? optionName then Some value else map_find rest optionName
  end.

(** [OptionValues::set]: [theMap[option] = value]. *)
Fixpoint map_set (theMap : MapType) (optionName : string)
         (value : ProxyValue) : MapType :=
  match theMap with
  | [] => [(optionName, value)]
  | (key, old) :: rest =>
      if key =? optionName then (key, value) :: rest
      else (key, old) :: map_set rest optionName value
  end.

(** [OptionValues::operator[]]. *)
Definition options_get (theMap : MapType) (optionName : string)
  : OptionValue :=
  match map_find theMap optionName with
  | None => empty_OptionValue
  | Some entry =>
      {| ov_isDefined := entry.(isDefined); ov_flag := entry.(flag);
         ov_str := entry.(str); ov_ival := entry.(ival);
         ov_real := entry.(real) |}
  end.

(** ** The registry *)

Record Parsley := {
  m_specList : list OptionSpec;
  m_specListOkay : bool;
  m_cpl : Z;
  m_extraNewLine : bool;
  m_includeNoMore : bool
}.

Definition conflicting (specA specB : OptionSpec) : bool :=
  (specA.(m_longName) =? specB.(m_longName))
  || (negb (Ascii.eqb specA.(m_shortName) no_short_name)
      && Ascii.eqb specA.(m_shortName) specB.(m_shortName)).

(** The inner loop of the constructor: [specA], at position [skip], against
    every [specB] whose position [count] is beyond [skip]. *)
Fixpoint check_against (specA : OptionSpec) (skip : nat)
         (specList : list OptionSpec) (count : nat)
         (state : Warned bool) : Warned bool :=
  match specList with
  | [] => state
  | specB :: rest =>
      let count := S count in
      if (count <=? skip)%nat then check_against specA skip rest count state
      else if conflicting specA specB
      then check_against specA skip rest count
             (false,
              app (snd state)
                  ["conflicting option names: " ++ name specA
                   ++ " and " ++ name specB])
      else check_against specA skip rest count state
  end.

(** The outer loop. *)
Fixpoint check_duplicates (outer specList : list OptionSpec) (skip : nat)
         (state : Warned bool) : Warned bool :=
  match outer with
  | [] => state
  | specA :: rest =>
      let skip := S skip in
      check_duplicates rest specList skip
                       (check_against specA skip specList 0 state)
  end.

(** [Parsley::Parsley (specList)]. *)
Definition new_Parsley (specList : list OptionSpec) : Warned Parsley :=
  let (okay, warnings) := check_duplicates specList specList 0 (true, []) in
  ({| m_specList := specList; m_specListOkay := okay;
      m_cpl := 92; m_extraNewLine := false; m_includeNoMore := false |},
   warnings).

(** ** [Parsley::process] *)

(** What a call of [process] leaves behind: [true] with the option values and
    the parameters, or [false] with the error message. [Fault] stands for the
    dereference of an empty [ProxyValuePointer]. *)
Inductive Outcome :=
| Success (options : MapType) (parameters : list string)
| Failure (errorMessage : string)
| Fault.

Definition succeeded (o : Outcome) : bool :=
  match o with Success _ _ => true | _ => false end.

(** The state of the loop over the arguments. *)
Record ScanState := {
  optionsComplete : bool;
  values : MapType;
  parameters : list string
}.

(** The state in which the loop over the arguments starts. *)
Definition initial_state (theMap : MapType) : ScanState :=
  {| optionsComplete := false; values := theMap; parameters := [] |}.

(** One turn of the loop over the arguments. *)
Inductive Step :=
| StepFail (errorMessage : string)
| StepFault
| StepReturn (st : ScanState)
| StepContinue (st : ScanState) (advanced : bool).

Inductive Scan :=
| ScanFail (errorMessage : string)
| ScanFault
| ScanReturn (st : ScanState)
| ScanDone (st : ScanState).

Definition flag_from_environment (evValue : string) : bool :=
  (evValue =? "1") || (evValue =? "Y") || (evValue =? "YES").

Definition with_flag (b : bool) (v : ProxyValue) : ProxyValue :=
  Build_ProxyValue v.(isDefined) b v.(str) v.(ival) v.(real)
                   v.(m_alreadySpecified) v.(m_spec).
Definition with_isDefined (b : bool) (v : ProxyValue) : ProxyValue :=
  Build_ProxyValue b v.(flag) v.(str) v.(ival) v.(real)
                   v.(m_alreadySpecified) v.(m_spec).
Definition with_str (s : string) (v : ProxyValue) : ProxyValue :=
  Build_ProxyValue v.(isDefined) v.(flag) s v.(ival) v.(real)
                   v.(m_alreadySpecified) v.(m_spec).
Definition with_ival (i : Z) (v : ProxyValue) : ProxyValue :=
  Build_ProxyValue v.(isDefined) v.(flag) v.(str) i v.(real)
                   v.(m_alreadySpecified) v.(m_spec).
Definition with_real (r : double) (v : ProxyValue) : ProxyValue :=
  Build_ProxyValue v.(isDefined) v.(flag) v.(str) v.(ival) r
                   v.(m_alreadySpecified) v.(m_spec).
Definition with_alreadySpecified (b : bool) (v : ProxyValue) : ProxyValue :=
  Build_ProxyValue v.(isDefined) v.(flag) v.(str) v.(ival) v.(real)
                   b v.(m_spec).

Section Process.

(** [std::getenv]: the value of an environment variable, if it is set. *)
Variable getenv : string -> option string.

(** The order in which a range-for loop visits the entries of the
    [std::unordered_map]; the implementation chooses it. *)
Variable iteration : MapType -> MapType.

(** Phase A for one specification: the working value seeded from the default
    and the environment. *)
Definition seed (spec : OptionSpec) : string + ProxyValue :=
  let value :=
    {| isDefined := spec.(m_defaultIsDefined); flag := false; str := "";
       ival := 0; real := Double.zero;
       m_alreadySpecified := false; m_spec := spec |} in
  let source := if spec.(m_defaultIsDefined) then "default" else "" in
  let evValue := if spec.(m_evIsDefined) then getenv spec.(m_evName) else None in
  match spec.(m_kind) with
  | kFlag =>
      inr (with_flag
             (match evValue with
              | Some ev => flag_from_environment ev
              | None => false
              end) value)
  | kStr =>
      let value := with_str spec.(m_defaultStr) value in
      inr (match evValue with
           | Some ev => with_isDefined true (with_str ev value)
           | None => value
           end)
  | kEnum =>
      let value := with_str spec.(m_defaultStr) value in
      let source :=
        match evValue with
        | Some _ => "environment variable " ++ spec.(m_evName)
        | None => source
        end in
      let value :=
        match evValue with
        | Some ev => with_isDefined true (with_str ev value)
        | None => value
        end in
      if value.(isDefined) then
        let value := with_ival (indexOf spec.(m_enumOptions) value.(str)) value in
        if (value.(ival) <? 0)%Z
        then inl ("invalid " ++ source ++ " value for " ++ name spec ++ " : "
                  ++ value.(str) ++ " is not one of " ++ enum_set spec)
        else inr value
      else inr value
  | kInt =>
      let value := with_ival spec.(m_defaultInt) value in
      match evValue with
      | Some ev =>
          let source := "environment variable " ++ spec.(m_evName) in
          match str2int ev with
          | None => inl ("invalid " ++ source ++ " value for " ++ name spec
                         ++ " : '" ++ ev ++ "' is not a valid integer.")
          | Some i => inr (with_isDefined true (with_ival i value))
          end
      | None => inr value
      end
  | kReal =>
      let value := with_real spec.(m_defaultReal) value in
      match evValue with
      | Some ev =>
          let source := "environment variable " ++ spec.(m_evName) in
          match str2real ev with
          | None => inl ("invalid " ++ source ++ " value for " ++ name spec
                         ++ " : '" ++ ev
                         ++ "' is not a valid floating point number.")
          | Some r => inr (with_isDefined true (with_real r value))
          end
      | None => inr value
      end
  end.

(** Phase A: the loop over the specifications. *)
Fixpoint seed_all (specList : list OptionSpec) (theMap : MapType)
  : string + MapType :=
  match specList with
  | [] => inr theMap
  | spec :: rest =>
      match seed spec with
      | inl message => inl message
      | inr value => seed_all rest (map_set theMap spec.(m_longName) value)
      end
  end.

Fixpoint find_short (specList : list OptionSpec) (c : ascii)
  : option OptionSpec :=
  match specList with
  | [] => None
  | checkSpec :: rest =>
      if Ascii.eqb checkSpec.(m_shortName) c then Some checkSpec
      else find_short rest c
  end.

Fixpoint find_long (specList : list OptionSpec) (longName : string)
  : option OptionSpec :=
  match specList with
  | [] => None
  | checkSpec :: rest =>
      if checkSpec.(m_longName) =? longName then Some checkSpec
      else find_long rest longName
  end.

(** The specification an option argument names; [inl] when the argument has
    neither the short nor the long form. *)
Definition select_spec (specList : list OptionSpec) (arg : string)
  : string + option OptionSpec :=
  if (length arg =? 2)%nat then
    inr (match get 1 arg with
         | Some c => find_short specList c
         | None => None
         end)
  else if (3 <=? length arg)%nat && (substring 0 2 arg =? "--") then
    inr (find_long specList (substring 2 (length arg - 2) arg))
  else inl ("invalid option format: " ++ arg).

(** The macro [CHECK_ARGUMENT]: the iterator moves on, and there has to be an
    argument under it. *)
Definition CHECK_ARGUMENT (spec : OptionSpec) (next : option string)
  : string + string :=
  match next with
  | None => inl ("option " ++ name spec ++ " requires an argument.")
  | Some argValue => inr argValue
  end.

(** The [switch] over the kind of a recognised option: the new value, and
    whether an argument was consumed. *)
Definition apply_option (spec : OptionSpec) (value : ProxyValue)
           (next : option string) : string + ProxyValue * bool :=
  match spec.(m_kind) with
  | kFlag => inr (with_isDefined true (with_flag true value), false)
  | kStr =>
      match CHECK_ARGUMENT spec next with
      | inl message => inl message
      | inr argValue => inr (with_isDefined true (with_str argValue value), true)
      end
  | kEnum =>
      match CHECK_ARGUMENT spec next with
      | inl message => inl message
      | inr argValue =>
          let value := with_ival (indexOf spec.(m_enumOptions) argValue) value in
          if (value.(ival) <? 0)%Z
          then inl ("invalid value for " ++ name spec ++ " : " ++ argValue
                    ++ " is not one of " ++ enum_set spec)
          else inr (with_isDefined true (with_str argValue value), true)
      end
  | kInt =>
      match CHECK_ARGUMENT spec next with
      | inl message => inl message
      | inr argValue =>
          match str2int argValue with
          | None => inl ("invalid value for " ++ name spec ++ " : '" ++ argValue
                         ++ "' is not a valid integer.")
          | Some i =>
              let value := with_ival i value in
              if spec.(m_rangeIsDefined)
                 && ((value.(ival) <? spec.(m_minIntValue))%Z
                     || (value.(ival) >? spec.(m_maxIntValue))%Z)
              then inl ("invalid value for " ++ name spec ++ " : "
                        ++ int2str value.(ival)
                        ++ " is out of range " ++ range spec ++ ".")
              else inr (with_isDefined true value, true)
          end
      end
  | kReal =>
      match CHECK_ARGUMENT spec next with
      | inl message => inl message
      | inr argValue =>
          match str2real argValue with
          | None => inl ("invalid value for " ++ name spec ++ " : '" ++ argValue
                         ++ "' is not a valid floating point number.")
          | Some r =>
              let value := with_real r value in
              if spec.(m_rangeIsDefined)
                 && (Double.lt value.(real) spec.(m_minRealValue)
                     || Double.gt value.(real) spec.(m_maxRealValue))
              then inl ("invalid value for " ++ name spec ++ " : "
                        ++ real2str value.(real)
                        ++ " is out of range " ++ range spec ++ ".")
              else inr (with_isDefined true value, true)
          end
      end
  end.

Definition push_parameter (arg : string) (st : ScanState) : ScanState :=
  {| optionsComplete := st.(optionsComplete); values := st.(values);
     parameters := app st.(parameters) [arg] |}.

Definition set_optionsComplete (st : ScanState) : ScanState :=
  {| optionsComplete := true; values := st.(values);
     parameters := st.(parameters) |}.

Definition is_parameter (arg : string) : bool :=
  (length arg =? 0)%nat
  || negb (match get 0 arg with Some c => Ascii.eqb c "-" | None => false end).

(** The part of a turn that deals with an option: the specification is looked
    up, the duplicate check is made, the value is taken. The result is the
    specification and the state with the option's value stored. *)
Definition recognise (specList : list OptionSpec) (st : ScanState)
           (arg : string) (next : option string) : Step + OptionSpec * ScanState * bool :=
  match select_spec specList arg with
  | inl message => inl (StepFail message)
  | inr None => inl (StepFail ("no such option: " ++ arg))
  | inr (Some spec) =>
      match map_find st.(values) spec.(m_longName) with
      | None => inl StepFault
      | Some value =>
          if value.(m_alreadySpecified)
          then inl (StepFail ("duplicate option: " ++ name spec))
          else
            match apply_option spec (with_alreadySpecified true value) next with
            | inl message => inl (StepFail message)
            | inr (value, advanced) =>
                inr (spec,
                     {| optionsComplete := st.(optionsComplete);
                        values := map_set st.(values) spec.(m_longName) value;
                        parameters := st.(parameters) |},
                     advanced)
            end
      end
  end.

(** The body of the loop for the argument [arg]; [next] is the argument after
    it, if there is one. *)
Definition scan_step (specList : list OptionSpec) (st : ScanState)
           (arg : string) (next : option string) : Step :=
  if st.(optionsComplete) then StepContinue (push_parameter arg st) false
  else if arg =? "--" then StepContinue (set_optionsComplete st) false
  else if is_parameter arg
  then StepContinue (set_optionsComplete (push_parameter arg st)) false
  else
    match recognise specList st arg next with
    | inl stop => stop
    | inr (spec, st, advanced) =>
        if spec.(m_isSingleton) then StepReturn st
        else StepContinue st advanced
    end.

(** The loop over the arguments. *)
Fixpoint scan (specList : list OptionSpec) (st : ScanState)
         (arguments : list string) : Scan :=
  match arguments with
  | [] => ScanDone st
  | arg :: rest =>
      match scan_step specList st arg (hd_error rest) with
      | StepFail message => ScanFail message
      | StepFault => ScanFault
      | StepReturn st => ScanReturn st
      | StepContinue st false => scan specList st rest
      | StepContinue st true =>
          match rest with
          | [] => ScanDone st
          | _ :: rest => scan specList st rest
          end
      end
  end.

(** Phase C: the first entry, in the container's order, of a required option
    without a value. *)
Fixpoint check_required (nodes : MapType) : option string :=
  match nodes with
  | [] => None
  | (_, value) :: rest =>
      if value.(m_spec).(m_isRequired) && negb value.(isDefined)
      then Some ("a value is required for: " ++ name value.(m_spec))
      else check_required rest
  end.

Definition process (this : Parsley) (arguments : list string)
           (skipProgramName : bool) : Outcome :=
  if negb this.(m_specListOkay) then Failure "option specification errors"
  else
    match seed_all this.(m_specList) [] with
    | inl message => Failure message
    | inr theMap =>
        match scan this.(m_specList) (initial_state theMap)
                   (if skipProgramName then tl arguments else arguments) with
        | ScanFail message => Failure message
        | ScanFault => Fault
        | ScanReturn st => Success st.(values) st.(parameters)
        | ScanDone st =>
            match check_required (iteration st.(values)) with
            | Some message => Failure message
            | None => Success st.(values) st.(parameters)
            end
        end
    end.

End Process.

(** ** The help text *)

(** The macro [nl]. *)
Definition nl : string := String "010" "".

(** [splitString]. The loop [while (true)] ends when [find] finds no
    splitter at or behind [pos]; every other turn moves [pos] on by the
    length of the splitter, so that [turns] bounds it. *)
Fixpoint splitString_from (turns : nat) (str splitter : string)
         (includeEmpty : bool) (pos : nat) (result : list string)
  : list string :=
  match turns with
  | O => result
  | S turns' =>
      match index pos splitter str with
      | None =>
          let remaining := substring pos (length str - pos) str in
          if includeEmpty || (0 <? length remaining)%nat
          then app result [remaining]
          else result
      | Some found =>
          let item := substring pos (found - pos) str in
          let result :=
            if includeEmpty || (0 <? length item)%nat
            then app result [item]
            else result in
          splitString_from turns' str splitter includeEmpty
                           (found + length splitter) result
      end
  end.

Definition splitString (str splitter : string) (includeEmpty : bool)
  : list string :=
  let len := length splitter in
  if (0 <? len)%nat
  then splitString_from (S (length str)) str splitter includeEmpty 0 []
  else [str].

(** [while (line.size() < indentSize) line += " "]. *)
Fixpoint pad_line (turns : nat) (line : string) : string :=
  match turns with
  | O => line
  | S turns' => pad_line turns' (line ++ " ")
  end.

(** The loop of [formatLongLine] over the words: the text, the line in the
    making, and [first]. *)
Fixpoint formatLongLine_loop (indent : string) (cpl : nat) (ds : list string)
         (result line : string) (first : bool) : string * string * bool :=
  match ds with
  | [] => (result, line, first)
  | item :: rest =>
      let line := if first then line ++ item else line ++ " " ++ item in
      if (cpl <=? length line)%nat
      then formatLongLine_loop indent cpl rest (result ++ line ++ nl)
                               indent true
      else formatLongLine_loop indent cpl rest result line false
  end.

(** [formatLongLine]. *)
Definition formatLongLine (indent name desc : string) (cpl : nat) : string :=
  let indentSize := length indent in
  let ds := splitString desc " " false in
  let line := name ++ " " in
  let line := pad_line (indentSize - length line) line in
  let '(result, line, first) :=
    formatLongLine_loop indent cpl ds "" line true in
  if negb first then result ++ line ++ nl else result.

(** [OptionSpec::helpConstraint], [OptionSpec::helpDefault] and
    [OptionSpec::helpEnvVar]. *)
Definition helpConstraint (this : OptionSpec) : string :=
  match this.(m_kind) with
  | kEnum => "Allowed values: " ++ enum_set this ++ ". "
  | kReal | kInt =>
      if this.(m_rangeIsDefined) then "Range: " ++ range this ++ ". " else ""
  | _ => ""
  end.

Definition helpDefault (this : OptionSpec) : string :=
  if negb this.(m_defaultIsDefined) then ""
  else
    "Default value: "
    ++ match this.(m_kind) with
       | kFlag => "n/a"
       | kStr | kEnum => "'" ++ this.(m_defaultStr) ++ "'"
       | kInt => int2str this.(m_defaultInt)
       | kReal => real2str this.(m_defaultReal)
       end
    ++ ". ".

Definition helpEnvVar (this : OptionSpec) : string :=
  if negb this.(m_evIsDefined) then ""
  else
    "Use the " ++ this.(m_evName) ++ " environment variable to "
    ++ (if this.(m_defaultIsDefined)
        then "override the default value. "
        else "provide a default value. ").

(** [Parsley::setOptionHelpCpl], [Parsley::setOptionNewLineSeparator] and
    [Parsley::setOptionIncludeNoMore]. *)
Definition setOptionHelpCpl (cpl : Z) (this : Parsley) : Parsley :=
  {| m_specList := this.(m_specList);
     m_specListOkay := this.(m_specListOkay);
     m_cpl := if (cpl >=? 40)%Z then cpl else 40%Z;
     m_extraNewLine := this.(m_extraNewLine);
     m_includeNoMore := this.(m_includeNoMore) |}.

Definition setOptionNewLineSeparator (extraNewLine : bool) (this : Parsley)
  : Parsley :=
  {| m_specList := this.(m_specList);
     m_specListOkay := this.(m_specListOkay);
     m_cpl := this.(m_cpl);
     m_extraNewLine := extraNewLine;
     m_includeNoMore := this.(m_includeNoMore) |}.

Definition setOptionIncludeNoMore (includeNoMore : bool) (this : Parsley)
  : Parsley :=
  {| m_specList := this.(m_specList);
     m_specListOkay := this.(m_specListOkay);
     m_cpl := this.(m_cpl);
     m_extraNewLine := this.(m_extraNewLine);
     m_includeNoMore := includeNoMore |}.

(** [Parsley::optionHelp]: what is written to the stream. *)
Definition gap : string := "                    ".

Definition double_quote : string := String (ascii_of_nat 34) "".

Definition nullDecrption : string :=
  "The null option indicating no more options. "
  ++ "This is useful if/when the initial parameters " ++ double_quote
  ++ "look like" ++ double_quote ++ " options. ".

(** The conversion of [m_cpl], an [int], to the [unsigned] parameter of
    [formatLongLine]. *)
Definition to_unsigned (i : Z) : nat := Z.to_nat (i mod 2 ^ 32).

(** The lines of a literal description, the first behind [prefix] and the
    others behind [gap]. *)
Fixpoint literal_lines (prefix : string) (ds : list string) : string :=
  match ds with
  | [] => ""
  | part :: rest => prefix ++ part ++ nl ++ literal_lines gap rest
  end.

(** The text [extra] that [optionHelp] puts together for a specification:
    whether it is required, its constraint, its default and its environment
    variable. *)
Definition optionHelp_extra (spec : OptionSpec) : string :=
  let extra :=
    if spec.(m_isRequired) && negb spec.(m_defaultIsDefined)
    then "Required. " else "" in
  match spec.(m_kind) with
  | kFlag =>
      if spec.(m_evIsDefined)
      then extra ++ "Use the " ++ spec.(m_evName)
           ++ " environment variable set to 'Y', 'YES' or '1' to set flag on. "
      else extra
  | kStr => (extra ++ helpDefault spec) ++ helpEnvVar spec
  | kEnum | kInt | kReal =>
      ((extra ++ helpConstraint spec) ++ helpDefault spec) ++ helpEnvVar spec
  end.

(** What [optionHelp] writes for one specification. *)
Definition optionHelp_spec (this : Parsley) (spec : OptionSpec) : string :=
  let gapSize := length gap in
  let literalDescription :=
    (1 <=? length spec.(m_description))%nat
    && match get 0 spec.(m_description) with
       | Some c => Ascii.eqb c "!"
       | None => false
       end in
  let described :=
    if literalDescription then
      let desc := substring 1 (length spec.(m_description) - 1)
                            spec.(m_description) in
      let ds := splitString desc nl true in
      let prefix := name spec ++ " " in
      let prefix := pad_line (gapSize - length prefix) prefix in
      literal_lines prefix ds
    else formatLongLine gap (name spec) spec.(m_description)
                        (to_unsigned this.(m_cpl)) in
  let extra := optionHelp_extra spec in
  described
  ++ (if (0 <? length extra)%nat
      then formatLongLine gap "" extra (to_unsigned this.(m_cpl)) else "")
  ++ (if this.(m_extraNewLine) then nl else "").

Fixpoint optionHelp_specs (this : Parsley) (specList : list OptionSpec)
  : string :=
  match specList with
  | [] => ""
  | spec :: rest => optionHelp_spec this spec ++ optionHelp_specs this rest
  end.

Definition optionHelp (this : Parsley) : string :=
  "Options:" ++ nl
  ++ optionHelp_specs this this.(m_specList)
  ++ (if this.(m_includeNoMore)
      then formatLongLine gap "--" nullDecrption (to_unsigned this.(m_cpl))
      else "").

(** ** Vocabulary for the properties *)

(** *** Qualifiers *)

(** A qualifier that does not belong to the kind of option. *)
Definition incompatible (q : Qualifier) (kind : Kind) : bool :=
  match q, kind with
  | QdefStr _, (kStr | kEnum) => false
  | QdefInt _, kInt => false
  | QdefReal _, kReal => false
  | QintRange _ _, kInt => false
  | QrealRange _ _, kReal => false
  | QenvVar _, _ => false
  | _, _ => true
  end.

(** A qualifier of the same sort (default, range, environment variable) has
    been set before. *)
Definition already_set (q : Qualifier) (spec : OptionSpec) : bool :=
  match q with
  | QdefStr _ | QdefInt _ | QdefReal _ => spec.(m_defaultIsDefined)
  | QintRange _ _ | QrealRange _ _ => spec.(m_rangeIsDefined)
  | QenvVar _ => spec.(m_evIsDefined)
  end.

(** A string default for an enumeration that is not one of its values. *)
Definition not_enumerated (q : Qualifier) (spec : OptionSpec) : Prop :=
  match q with
  | QdefStr defValue =>
      spec.(m_kind) = kEnum /\ ~ In defValue spec.(m_enumOptions)
  | _ => False
  end.

(** *** The registry and the parameters of [process] *)

(** No specification conflicts with a later one. *)
Definition conflict_free (specList : list OptionSpec) : Prop :=
  forall i j specA specB,
    (i < j)%nat ->
    nth_error specList i = Some specA ->
    nth_error specList j = Some specB ->
    conflicting specA specB = false.

(** Whatever the order of traversal, it visits the entries of the container,
    each one once. *)
Definition traversal (iteration : MapType -> MapType) : Prop :=
  forall theMap, Permutation (iteration theMap) theMap.

(** The traversal in the order of insertion. *)
Definition insertion_order (theMap : MapType) : MapType := theMap.

(** An environment without variables, and one in which [ACE_QUIET] is set to
    [YES]. *)
Definition no_environment (_ : string) : option string := None.

Definition quiet_environment (variable : string) : option string :=
  if variable =? "ACE_QUIET" then Some "YES" else None.

(** *** The container and the loop *)

(** What holds of the container throughout [process]: one entry per key, each
    entry made for a specification of the registry and kept under its long
    name, and an entry for every specification. *)
Definition well_keyed (specList : list OptionSpec) (theMap : MapType) : Prop :=
  NoDup (map fst theMap)
  /\ (forall key value,
         In (key, value) theMap ->
         In value.(m_spec) specList /\ value.(m_spec).(m_longName) = key)
  /\ (forall spec, In spec specList ->
                   map_find theMap spec.(m_longName) <> None).

(** The option [spec] is required and has no value in the container. *)
Definition unmet (theMap : MapType) (spec : OptionSpec) : Prop :=
  m_isRequired spec = true
  /\ exists value, map_find theMap (m_longName spec) = Some value
                   /\ isDefined value = false.

(** [Reaches specList st args st' args']: after some turns of the loop that
    began in state [st] with [args] to read, the loop is in state [st'] with
    [args'] to read. *)
Inductive Reaches (specList : list OptionSpec)
  : ScanState -> list string -> ScanState -> list string -> Prop :=
| Reaches_here : forall st args, Reaches specList st args st args
| Reaches_turn : forall st arg rest st1 st' args',
    scan_step specList st arg (hd_error rest) = StepContinue st1 false ->
    Reaches specList st1 rest st' args' ->
    Reaches specList st (arg :: rest) st' args'
| Reaches_turn_with_argument : forall st arg argValue rest st1 st' args',
    scan_step specList st arg (Some argValue) = StepContinue st1 true ->
    Reaches specList st1 rest st' args' ->
    Reaches specList st (arg :: argValue :: rest) st' args'.

(** The turn for [arg] in state [st] is the turn of an option: options are
    not complete, and [arg] is neither ["--"] nor a parameter. *)
Definition option_turn (st : ScanState) (arg : string) : Prop :=
  st.(optionsComplete) = false /\ (arg =? "--") = false
  /\ is_parameter arg = false.

(** Until options are complete there are no parameters. *)
Definition no_parameters_yet (st : ScanState) : Prop :=
  optionsComplete st = false -> parameters st = [].

(** The state once options are complete and [args] have been added to the
    parameters. *)
Definition all_parameters (st : ScanState) (args : list string) : ScanState :=
  {| optionsComplete := true; values := st.(values);
     parameters := app st.(parameters) args |}.

(** The state a turn leaves when it has stored [value] for the option
    [spec]. *)
Definition stored (st : ScanState) (spec : OptionSpec) (value : ProxyValue)
  : ScanState :=
  {| optionsComplete := st.(optionsComplete);
     values := map_set st.(values) spec.(m_longName) value;
     parameters := st.(parameters) |}.

(** What a turn that accepts an option and its argument comes to: the loop
    goes on behind the argument, or [process] returns for a singleton. *)
Definition accepted (spec : OptionSpec) (st : ScanState) : Step :=
  if spec.(m_isSingleton) then StepReturn st else StepContinue st true.

(** *** Text *)

(** Every character of the string passes the test. *)
Fixpoint string_forall (P : ascii -> bool) (s : string) : bool :=
  match s with
  | EmptyString => true
  | String c s' => P c && string_forall P s'
  end.

(** The pair of characters that [str2real] refuses occurs in the string. *)
Definition has_sentinel_mark (s : string) : Prop :=
  exists before after, s = before ++ "!!" ++ after.

(** [remains rest input]: [rest] is what is left of [input] after some
    characters at its front have been read. *)
Definition remains (rest input : string) : Prop :=
  exists lit, input = lit ++ rest.



(** *** Sample data *)

(** The two [double]s 1e20 and 1e21. *)
Definition double_1e20 : double := Double.of_decimal false 1 20.
Definition double_1e21 : double := Double.of_decimal false 1 21.

(** An integer option [--count/-c] with the range 1 to 10, and the value
    Phase A seeds for it. *)
Definition count_1_to_10 : OptionSpec :=
  fst (intRange 1 10 (intSpec "count" "c" "" false)).

Definition count_seeded : ProxyValue :=
  {| isDefined := false; flag := false; str := ""; ival := 0;
     real := Double.zero; m_alreadySpecified := false;
     m_spec := count_1_to_10 |}.

(** *** More about the loop *)

(** The option [spec] has been met on the command line: its entry in the
    container carries the mark [m_alreadySpecified]. *)
Definition given (theMap : MapType) (spec : OptionSpec) : Prop :=
  exists value, map_find theMap (m_longName spec) = Some value
                /\ m_alreadySpecified value = true.

(** The argument [arg] is the option [spec] of the registry: it is neither
    the terminator nor a parameter, and it is the short or the long form of
    [spec]. *)
Definition names_option (specList : list OptionSpec) (arg : string)
           (spec : OptionSpec) : Prop :=
  (arg =? "--") = false /\ is_parameter arg = false
  /\ select_spec specList arg = inr (Some spec).

(** A run of options: each one is an option that is no singleton, and it is
    followed by its own argument unless it is a flag. *)
Inductive OptionRun (specList : list OptionSpec) : list string -> Prop :=
| OptionRun_end : OptionRun specList []
| OptionRun_flag : forall arg spec rest,
    names_option specList arg spec -> m_isSingleton spec = false ->
    m_kind spec = kFlag ->
    OptionRun specList rest -> OptionRun specList (arg :: rest)
| OptionRun_value : forall arg spec argValue rest,
    names_option specList arg spec -> m_isSingleton spec = false ->
    m_kind spec <> kFlag ->
    OptionRun specList rest ->
    OptionRun specList (arg :: argValue :: rest).

(** [Ends specList args params]: what the arguments [args] behind a run of
    options are, and the parameters [params] they make. There is none; or
    the first is a parameter, and it is one with all that follow it; or the
    first is the terminator, and all that follow it are parameters; or the
    first is a singleton, and then there are no parameters. *)
Inductive Ends (specList : list OptionSpec)
  : list string -> list string -> Prop :=
| Ends_nothing : Ends specList [] []
| Ends_parameter : forall p ps,
    is_parameter p = true -> Ends specList (p :: ps) (p :: ps)
| Ends_terminator : forall ps, Ends specList ("--" :: ps) ps
| Ends_singleton : forall arg spec rest,
    names_option specList arg spec -> m_isSingleton spec = true ->
    Ends specList (arg :: rest) [].

(** The value of an option that has nothing but its default, as the caller
    sees it. *)
Definition default_value (spec : OptionSpec) : OptionValue :=
  {| ov_isDefined := m_defaultIsDefined spec;
     ov_flag := false;
     ov_str := match m_kind spec with
               | kStr | kEnum => m_defaultStr spec
               | _ => ""
               end;
     ov_ival := match m_kind spec with
                | kInt => m_defaultInt spec
                | kEnum => if m_defaultIsDefined spec
                           then indexOf (m_enumOptions spec) (m_defaultStr spec)
                           else 0%Z
                | _ => 0%Z
                end;
     ov_real := match m_kind spec with
                | kReal => m_defaultReal spec
                | _ => Double.zero
                end |}.

(** The environment holds no value for the variable of [spec]. *)
Definition unset_in (getenv : string -> option string) (spec : OptionSpec)
  : Prop :=
  m_evIsDefined spec = true -> getenv (m_evName spec) = None.

(** The message of Phase A for a value of the environment that the option
    cannot take. *)
Definition environment_message (spec : OptionSpec) (evValue : string)
  : string :=
  "invalid environment variable " ++ m_evName spec ++ " value for "
  ++ name spec ++ " : "
  ++ match m_kind spec with
     | kEnum => evValue ++ " is not one of " ++ enum_set spec
     | kInt => "'" ++ evValue ++ "' is not a valid integer."
     | _ => "'" ++ evValue ++ "' is not a valid floating point number."
     end.

(** The variable of [spec] is set in the environment, to a value that the
    option cannot take: none of the values of an enumeration, or a text that
    [str2int], for an Integer option, or [str2real], for a Real option,
    does not read. *)
Definition refused (getenv : string -> option string) (spec : OptionSpec)
           (evValue : string) : Prop :=
  m_evIsDefined spec = true
  /\ getenv (m_evName spec) = Some evValue
  /\ ((m_kind spec = kEnum /\ ~ In evValue (m_enumOptions spec))
      \/ (m_kind spec = kInt /\ str2int evValue = None)
      \/ (m_kind spec = kReal /\ str2real evValue = None)).

(** The container as Phase A leaves it, for sample registries. *)
Definition seeded (getenv : string -> option string)
           (specList : list OptionSpec) : MapType :=
  match seed_all getenv specList [] with
  | inr theMap => theMap
  | inl _ => []
  end.

(** *** More text *)

(** The decimal text of an integer of any size. *)
Definition decimal_text (i : Z) : string :=
  Double.sign_text (i <? 0)%Z ++ utoa (Z.to_N (Z.abs i)).

(** An environment in which [COUNT] is set to [99]. *)
Definition count_environment (variable : string) : option string :=
  if variable =? "COUNT" then Some "99" else None.

(** *** The help text *)

(** The text of [lines], each one ended by [nl]. *)
Fixpoint text_of_lines (lines : list string) : string :=
  match lines with
  | [] => ""
  | line :: rest => line ++ nl ++ text_of_lines rest
  end.

(** The lines made of groups of words: the words of a group with one space
    between them, the first line behind [prefix], the others behind
    [indent]. *)
Fixpoint lines_of_groups (prefix indent : string) (groups : list (list string))
  : list string :=
  match groups with
  | [] => []
  | group :: rest =>
      (prefix ++ join group " ") :: lines_of_groups indent indent rest
  end.

(** [width] spaces at least behind the name: what [formatLongLine] puts
    before the first word. *)
Definition name_column (indent name : string) : string :=
  pad_line (length indent - length (name ++ " ")) (name ++ " ").

(** A list without elements. *)
Definition is_nil {A : Type} (l : list A) : bool :=
  match l with [] => true | _ => false end.

(** The parsers a program can have: one made by the constructor, and then
    configured by any number of calls of the three methods that set up the
    help text. *)
Inductive Configured : Parsley -> Prop :=
| Configured_new : forall specList, Configured (fst (new_Parsley specList))
| Configured_cpl : forall cpl this,
    is_intp cpl -> Configured this -> Configured (setOptionHelpCpl cpl this)
| Configured_separator : forall extraNewLine this,
    Configured this ->
    Configured (setOptionNewLineSeparator extraNewLine this)
| Configured_no_more : forall includeNoMore this,
    Configured this -> Configured (setOptionIncludeNoMore includeNoMore this).

(** The traversal of the container from its last entry to its first. *)
Definition reverse_order (theMap : MapType) : MapType := rev theMap.

(** * Properties *)

(** ** The qualifier methods *)

Lemma indexOf_from_found : forall opts value index,
    (-1 <= index)%Z -> In value opts ->
    (0 <= indexOf_from opts value index)%Z.
Proof.
  induction opts as [|item rest IH]; intros value index Hi Hin; simpl in *.
  - contradiction.
  - destruct (String.eqb_spec value item) as [->|Hne].
    + lia.
    + destruct Hin as [->|Hin]; [congruence|]. apply IH; [lia|assumption].
Qed.

Lemma indexOf_from_missing : forall opts value index,
    ~ In value opts -> indexOf_from opts value index = (-1)%Z.
Proof.
  induction opts as [|item rest IH]; intros value index Hin; simpl in *.
  - reflexivity.
  - destruct (String.eqb_spec value item) as [->|Hne].
    + exfalso. apply Hin. now left.
    + apply IH. intros H. apply Hin. now right.
Qed.

Lemma indexOf_missing : forall opts value,
    indexOf opts value = (-1)%Z <-> ~ In value opts.
Proof.
  intros opts value. split.
  - intros H Hin.
    pose proof (indexOf_from_found opts value (-1)%Z ltac:(lia) Hin) as H0.
    unfold indexOf in H. lia.
  - apply indexOf_from_missing.
Qed.

(** C10. [envVar] with an empty name on a specification without an
    environment variable warns about nothing and leaves the qualifier unset,
    so that a later [envVar] with a name sets it. *)
Theorem envVar_empty_name_leaves_qualifier_unset :
  forall (this : OptionSpec) (envVarName : string),
    m_evIsDefined this = false ->
    envVarName <> "" ->
    envVar "" this = (set_envVar "" false this, [])
    /\ m_evIsDefined (fst (envVar "" this)) = false
    /\ envVar envVarName (fst (envVar "" this))
       = (set_envVar envVarName true this, [])
    /\ m_evIsDefined (fst (envVar envVarName (fst (envVar "" this)))) = true
    /\ m_evName (fst (envVar envVarName (fst (envVar "" this)))) = envVarName.
Proof.
  intros this envVarName Hev Hname.
  assert (E1 : envVar "" this = (set_envVar "" false this, [])).
  { unfold envVar. rewrite Hev. reflexivity. }
  assert (Hlen : (0 <? length envVarName)%nat = true).
  { destruct envVarName; [congruence|reflexivity]. }
  rewrite E1. cbn [fst].
  assert (E2 : envVar envVarName (set_envVar "" false this)
               = (set_envVar envVarName true this, [])).
  { unfold envVar. cbn [m_evIsDefined set_envVar]. rewrite Hlen. reflexivity. }
  rewrite E2. cbn. auto.
Qed.

Lemma envVar_empty_name_witness :
  m_evIsDefined (fst (envVar "" (strSpec "option" "o" "" false))) = false
  /\ m_evName (fst (envVar "ACE_OPTION"
                 (fst (envVar "" (strSpec "option" "o" "" false)))))
     = "ACE_OPTION".
Proof.
  pose proof (envVar_empty_name_leaves_qualifier_unset
                (strSpec "option" "o" "" false) "ACE_OPTION"
                eq_refl ltac:(discriminate)) as H.
  exact (conj (proj1 (proj2 H)) (proj2 (proj2 (proj2 (proj2 H))))).
Defined.

(** C9. A qualifier that does not fit the kind, or that repeats a qualifier
    already set, or a string default that is not among the values of an
    enumeration, is dropped: the specification returned equals the original
    in every field, and one warning is written. *)
Theorem rejected_qualifier_leaves_spec_unchanged :
  forall (q : Qualifier) (this : OptionSpec),
    incompatible q (m_kind this) = true
    \/ already_set q this = true
    \/ not_enumerated q this ->
    exists message, qualify q this = (this, [message]).
Proof.
  intros q this H.
  destruct q as [v|v|v|lo hi|lo hi|n]; simpl in *.
  - (* defStr *)
    unfold defStr.
    destruct (m_kind this) eqn:K; simpl in *;
      try (eexists; reflexivity).
    + destruct H as [H|[H|[H _]]]; try discriminate.
      rewrite H. eexists; reflexivity.
    + destruct (m_defaultIsDefined this) eqn:D; [eexists; reflexivity|].
      destruct H as [H|[H|[_ H]]]; try discriminate.
      apply indexOf_missing in H. rewrite H. eexists; reflexivity.
  - unfold defInt.
    destruct (m_kind this) eqn:K; simpl in *; try (eexists; reflexivity).
    destruct H as [H|[H|[]]]; try discriminate.
    rewrite H. eexists; reflexivity.
  - unfold defReal.
    destruct (m_kind this) eqn:K; simpl in *; try (eexists; reflexivity).
    destruct H as [H|[H|[]]]; try discriminate.
    rewrite H. eexists; reflexivity.
  - unfold intRange.
    destruct (m_kind this) eqn:K; simpl in *; try (eexists; reflexivity).
    destruct H as [H|[H|[]]]; try discriminate.
    rewrite H. eexists; reflexivity.
  - unfold realRange.
    destruct (m_kind this) eqn:K; simpl in *; try (eexists; reflexivity).
    destruct H as [H|[H|[]]]; try discriminate.
    rewrite H. eexists; reflexivity.
  - unfold envVar.
    destruct H as [H|[H|[]]]; try discriminate.
    rewrite H. eexists; reflexivity.
Qed.

Lemma rejected_qualifier_witness :
  exists message,
    qualify (QdefStr "zzz") (enumSpec "mode" "m" "" ["aaa"; "bbb"; "ccc"] false)
    = (enumSpec "mode" "m" "" ["aaa"; "bbb"; "ccc"] false, [message]).
Proof.
  apply (rejected_qualifier_leaves_spec_unchanged
           (QdefStr "zzz")
           (enumSpec "mode" "m" "" ["aaa"; "bbb"; "ccc"] false)).
  right. right. split; [reflexivity|].
  simpl. intros [H|[H|[H|[]]]]; discriminate.
Defined.

(** ** The constructor's conflict check *)

Lemma check_against_false : forall specList specA skip count state,
    fst state = false ->
    fst (check_against specA skip specList count state) = false.
Proof.
  induction specList as [|specB rest IH]; intros specA skip count state H.
  - exact H.
  - cbn [check_against]. destruct (S count <=? skip)%nat; [now apply IH|].
    destruct (conflicting specA specB); now apply IH.
Qed.

Lemma check_against_hit : forall specList specA skip count state k specB,
    nth_error specList k = Some specB ->
    (skip < count + k + 1)%nat ->
    conflicting specA specB = true ->
    fst (check_against specA skip specList count state) = false.
Proof.
  induction specList as [|spec rest IH];
    intros specA skip count state k specB Hk Hpos Hc.
  - destruct k; discriminate.
  - cbn [check_against]. destruct k as [|k]; simpl in Hk.
    + injection Hk as ->.
      destruct (Nat.leb_spec (S count) skip) as [Hle|_]; [lia|].
      rewrite Hc. now apply check_against_false.
    + destruct (S count <=? skip)%nat;
        [|destruct (conflicting specA spec)];
        apply (IH _ _ _ _ k specB); auto; lia.
Qed.

Lemma check_against_clean : forall specList specA skip count state,
    (forall k specB,
        nth_error specList k = Some specB ->
        (skip < count + k + 1)%nat ->
        conflicting specA specB = false) ->
    check_against specA skip specList count state = state.
Proof.
  induction specList as [|spec rest IH]; intros specA skip count state H.
  - reflexivity.
  - cbn [check_against].
    assert (Hrest : check_against specA skip rest (S count) state = state).
    { apply IH. intros k specB Hk Hpos. apply (H (S k) specB); [exact Hk|lia]. }
    destruct (Nat.leb_spec (S count) skip) as [Hle|Hgt]; [exact Hrest|].
    rewrite (H 0%nat spec eq_refl ltac:(lia)). exact Hrest.
Qed.

Lemma check_duplicates_false : forall outer specList skip state,
    fst state = false ->
    fst (check_duplicates outer specList skip state) = false.
Proof.
  induction outer as [|specA rest IH]; intros specList skip state H.
  - exact H.
  - simpl. apply IH. now apply check_against_false.
Qed.

Lemma check_duplicates_hit :
  forall outer specList skip state a specA j specB,
    nth_error outer a = Some specA ->
    nth_error specList j = Some specB ->
    (skip + a < j)%nat ->
    conflicting specA specB = true ->
    fst (check_duplicates outer specList skip state) = false.
Proof.
  induction outer as [|spec rest IH];
    intros specList skip state a specA j specB Ha Hj Hpos Hc.
  - destruct a; discriminate.
  - simpl. destruct a as [|a]; simpl in Ha.
    + injection Ha as ->. apply check_duplicates_false.
      apply (check_against_hit specList specA (S skip) 0 state j specB);
        auto; lia.
    + apply (IH specList (S skip) _ a specA j specB); auto; lia.
Qed.

Lemma check_duplicates_clean : forall outer specList skip state,
    (forall a specA j specB,
        nth_error outer a = Some specA ->
        nth_error specList j = Some specB ->
        (skip + a < j)%nat ->
        conflicting specA specB = false) ->
    check_duplicates outer specList skip state = state.
Proof.
  induction outer as [|spec rest IH]; intros specList skip state H.
  - reflexivity.
  - simpl. rewrite check_against_clean.
    + apply IH. intros a specA j specB Ha Hj Hpos.
      apply (H (S a) specA j specB); auto; lia.
    + intros k specB Hk Hpos. apply (H 0%nat spec k specB); auto; lia.
Qed.

Lemma new_Parsley_specList : forall specList,
    m_specList (fst (new_Parsley specList)) = specList.
Proof.
  intros specList. unfold new_Parsley.
  destruct (check_duplicates specList specList 0 (true, [])). reflexivity.
Qed.

Lemma new_Parsley_okay : forall specList,
    m_specListOkay (fst (new_Parsley specList))
    = fst (check_duplicates specList specList 0 (true, [])).
Proof.
  intros specList. unfold new_Parsley.
  destruct (check_duplicates specList specList 0 (true, [])). reflexivity.
Qed.

(** The registry is valid exactly when no two specifications conflict. *)
Lemma specListOkay_iff : forall specList,
    m_specListOkay (fst (new_Parsley specList)) = true
    <-> conflict_free specList.
Proof.
  intros specList. rewrite new_Parsley_okay. split.
  - intros Hok i j specA specB Hij Hi Hj.
    destruct (conflicting specA specB) eqn:Hc; [|reflexivity].
    rewrite (check_duplicates_hit specList specList 0 (true, [])
               i specA j specB Hi Hj ltac:(lia) Hc) in Hok.
    discriminate.
  - intros Hfree. rewrite check_duplicates_clean; [reflexivity|].
    intros a specA j specB Ha Hj Hpos. apply (Hfree a j); auto.
Qed.

Lemma conflicting_names : forall specA specB,
    m_longName specA = m_longName specB
    \/ (m_shortName specA = m_shortName specB
        /\ m_shortName specA <> no_short_name) ->
    conflicting specA specB = true /\ conflicting specB specA = true.
Proof.
  intros specA specB [Hl|[Hs Hn]]; unfold conflicting.
  - rewrite Hl, String.eqb_refl. auto.
  - rewrite <- Hs, Ascii.eqb_refl.
    apply Ascii.eqb_neq in Hn. rewrite Hn. simpl.
    split; apply orb_true_r.
Qed.

(** C2. Two specifications at different places of the list with the same
    long name, or with the same short name other than ['\0'], leave the
    registry invalid; the constructor returns the registry all the same, and
    every call of [process] on it returns false with the message
    "option specification errors". *)
Theorem duplicate_names_invalidate_registry :
  forall (getenv : string -> option string) (iteration : MapType -> MapType)
         (specList : list OptionSpec) (i j : nat) (specA specB : OptionSpec),
    i <> j ->
    nth_error specList i = Some specA ->
    nth_error specList j = Some specB ->
    m_longName specA = m_longName specB
    \/ (m_shortName specA = m_shortName specB
        /\ m_shortName specA <> no_short_name) ->
    m_specList (fst (new_Parsley specList)) = specList
    /\ m_specListOkay (fst (new_Parsley specList)) = false
    /\ forall (arguments : list string) (skipProgramName : bool),
        process getenv iteration (fst (new_Parsley specList))
                arguments skipProgramName
        = Failure "option specification errors".
Proof.
  intros getenv iteration specList i j specA specB Hij Hi Hj Hnames.
  split; [apply new_Parsley_specList|].
  destruct (conflicting_names specA specB Hnames) as [Hab Hba].
  assert (Hbad : m_specListOkay (fst (new_Parsley specList)) = false).
  { rewrite new_Parsley_okay.
    destruct (Nat.lt_total i j) as [Hlt|[Heq|Hgt]]; [|contradiction|].
    - apply (check_duplicates_hit specList specList 0 _ i specA j specB);
        auto.
    - apply (check_duplicates_hit specList specList 0 _ j specB i specA);
        auto. }
  split; [exact Hbad|].
  intros arguments skipProgramName. unfold process. rewrite Hbad. reflexivity.
Qed.

Lemma duplicate_names_witness :
  process no_environment insertion_order
          (fst (new_Parsley [help; strSpec "hosts" "h" "" false]))
          ["prog"; "-h"] true
  = Failure "option specification errors".
Proof.
  refine (proj2 (proj2 (duplicate_names_invalidate_registry
                          no_environment insertion_order
                          [help; strSpec "hosts" "h" "" false] 0 1
                          help (strSpec "hosts" "h" "" false) _ _ _ _)) _ _).
  - discriminate.
  - reflexivity.
  - reflexivity.
  - right. split; [reflexivity|discriminate].
Defined.

(** ** The loop over the arguments *)

Lemma scan_options_complete : forall specList rest st,
    optionsComplete st = true ->
    scan specList st rest = ScanDone (all_parameters st rest).
Proof.
  intros specList rest. induction rest as [|arg rest IH]; intros st Hst.
  - unfold all_parameters. rewrite app_nil_r.
    destruct st; simpl in *; subst; reflexivity.
  - cbn [scan]. unfold scan_step. rewrite Hst.
    rewrite IH by exact Hst.
    unfold all_parameters, push_parameter. cbn.
    rewrite <- app_assoc. reflexivity.
Qed.

Lemma is_parameter_not_terminator : forall arg,
    is_parameter arg = true -> (arg =? "--") = false.
Proof.
  intros arg H. destruct (String.eqb_spec arg "--") as [->|]; auto.
Qed.

(** C5. In a state where options are complete every remaining argument is
    added to the parameters, in order. Before that, the argument ["--"]
    completes the options and is dropped, and an argument that is empty or
    does not begin with [-] completes the options and is the first
    parameter. Without specifications, [prog -- --looks-like-option] gives
    the parameters [--looks-like-option]. *)
Theorem terminator_and_parameters :
  forall (specList : list OptionSpec) (st : ScanState),
    (forall rest,
        optionsComplete st = true ->
        scan specList st rest = ScanDone (all_parameters st rest))
    /\ (forall rest,
           optionsComplete st = false ->
           scan_step specList st "--" (hd_error rest)
           = StepContinue (set_optionsComplete st) false
           /\ scan specList st ("--" :: rest)
              = ScanDone (all_parameters st rest))
    /\ (forall arg rest,
           optionsComplete st = false ->
           arg = "" \/ (exists c tail, arg = String c tail /\ c <> "-"%char) ->
           scan_step specList st arg (hd_error rest)
           = StepContinue (set_optionsComplete (push_parameter arg st)) false
           /\ scan specList st (arg :: rest)
              = ScanDone (all_parameters st (arg :: rest)))
    /\ (forall getenv iteration,
           traversal iteration ->
           process getenv iteration (fst (new_Parsley []))
                   ["prog"; "--"; "--looks-like-option"] true
           = Success [] ["--looks-like-option"]).
Proof.
  intros specList st. split; [|split; [|split]].
  - intros rest Hst. now apply scan_options_complete.
  - intros rest Hst.
    assert (Hstep : scan_step specList st "--" (hd_error rest)
                    = StepContinue (set_optionsComplete st) false).
    { unfold scan_step. rewrite Hst. reflexivity. }
    split; [exact Hstep|].
    cbn [scan]. rewrite Hstep.
    now rewrite scan_options_complete.
  - intros arg rest Hst Harg.
    assert (Hpar : is_parameter arg = true).
    { destruct Harg as [->|(c & tail & -> & Hc)]; [reflexivity|].
      unfold is_parameter. cbn.
      apply Ascii.eqb_neq in Hc. now rewrite Hc. }
    assert (Hstep : scan_step specList st arg (hd_error rest)
                    = StepContinue (set_optionsComplete (push_parameter arg st))
                                   false).
    { unfold scan_step.
      rewrite Hst, (is_parameter_not_terminator arg Hpar), Hpar. reflexivity. }
    split; [exact Hstep|].
    cbn [scan]. rewrite Hstep.
    rewrite scan_options_complete by reflexivity.
    unfold all_parameters, push_parameter. cbn.
    rewrite <- app_assoc. reflexivity.
  - intros getenv iteration Hperm. cbn.
    rewrite (Permutation_nil (Permutation_sym (Hperm []))). reflexivity.
Qed.

Lemma terminator_and_parameters_witness :
  scan [help] (initial_state []) ["--"; "--help"; "file"]
  = ScanDone (all_parameters (initial_state []) ["--help"; "file"])
  /\ scan [help] (initial_state []) [""; "-h"]
     = ScanDone (all_parameters (initial_state []) [""; "-h"])
  /\ process no_environment insertion_order (fst (new_Parsley []))
             ["prog"; "--"; "--looks-like-option"] true
     = Success [] ["--looks-like-option"].
Proof.
  pose proof (terminator_and_parameters [help] (initial_state [])) as H.
  split; [|split].
  - apply (proj1 (proj2 H)). reflexivity.
  - apply (proj1 (proj2 (proj2 H))); [reflexivity|]. left. reflexivity.
  - apply (proj2 (proj2 (proj2 H))). intros theMap. apply Permutation_refl.
Defined.

(** ** The container of option values *)

Lemma map_find_set_same : forall theMap key value,
    map_find (map_set theMap key value) key = Some value.
Proof.
  induction theMap as [|[k v] rest IH]; intros key value; simpl.
  - now rewrite String.eqb_refl.
  - destruct (String.eqb_spec k key) as [->|Hne]; simpl.
    + now rewrite String.eqb_refl.
    + destruct (String.eqb_spec k key); [contradiction|apply IH].
Qed.

Lemma map_find_set_other : forall theMap key value other,
    other <> key ->
    map_find (map_set theMap key value) other = map_find theMap other.
Proof.
  induction theMap as [|[k v] rest IH]; intros key value other Hne; simpl.
  - destruct (String.eqb_spec key other); [congruence|reflexivity].
  - destruct (String.eqb_spec k key) as [->|Hk]; simpl.
    + destruct (String.eqb_spec key other); [congruence|reflexivity].
    + destruct (String.eqb_spec k other); [reflexivity|now apply IH].
Qed.

Lemma map_find_In : forall theMap key value,
    map_find theMap key = Some value -> In (key, value) theMap.
Proof.
  induction theMap as [|[k v] rest IH]; intros key value H; simpl in *.
  - discriminate.
  - destruct (String.eqb_spec k key) as [->|Hne].
    + injection H as ->. now left.
    + right. now apply IH.
Qed.

Lemma In_map_find : forall theMap key value,
    NoDup (map fst theMap) ->
    In (key, value) theMap -> map_find theMap key = Some value.
Proof.
  induction theMap as [|[k v] rest IH]; intros key value Hnd Hin; simpl in *.
  - contradiction.
  - inversion Hnd as [|? ? Hk Hrest]; subst.
    destruct Hin as [Heq|Hin].
    + injection Heq as -> ->. now rewrite String.eqb_refl.
    + destruct (String.eqb_spec k key) as [->|Hne].
      * exfalso. apply Hk. apply (in_map fst) in Hin. exact Hin.
      * now apply IH.
Qed.

Lemma map_set_keys_present : forall theMap key value,
    map_find theMap key <> None ->
    map fst (map_set theMap key value) = map fst theMap.
Proof.
  induction theMap as [|[k v] rest IH]; intros key value H; simpl in *.
  - congruence.
  - destruct (String.eqb_spec k key) as [->|Hne]; simpl.
    + reflexivity.
    + f_equal. now apply IH.
Qed.

Lemma map_set_keys_absent : forall theMap key value,
    map_find theMap key = None ->
    map fst (map_set theMap key value) = app (map fst theMap) [key].
Proof.
  induction theMap as [|[k v] rest IH]; intros key value H; simpl in *.
  - reflexivity.
  - destruct (String.eqb_spec k key) as [->|Hne]; simpl.
    + discriminate.
    + f_equal. now apply IH.
Qed.

Lemma map_find_None_keys : forall theMap key,
    map_find theMap key = None -> ~ In key (map fst theMap).
Proof.
  induction theMap as [|[k v] rest IH]; intros key H Hin; simpl in *.
  - contradiction.
  - destruct (String.eqb_spec k key) as [->|Hne]; [discriminate|].
    destruct Hin as [Heq|Hin]; [contradiction|]. now apply (IH key).
Qed.

Lemma map_set_NoDup : forall theMap key value,
    NoDup (map fst theMap) -> NoDup (map fst (map_set theMap key value)).
Proof.
  intros theMap key value Hnd.
  destruct (map_find theMap key) eqn:Hf.
  - rewrite map_set_keys_present; [exact Hnd|congruence].
  - rewrite map_set_keys_absent by exact Hf.
    apply NoDup_app; [exact Hnd|repeat constructor; intros []|].
    intros k Hk [Heq|[]]. subst k. now apply (map_find_None_keys theMap key).
Qed.

Lemma map_set_In : forall theMap key value k v,
    In (k, v) (map_set theMap key value) ->
    (k, v) = (key, value) \/ In (k, v) theMap.
Proof.
  induction theMap as [|[k0 v0] rest IH]; intros key value k v H; simpl in *.
  - destruct H as [H|[]]. left. now symmetry.
  - destruct (String.eqb_spec k0 key) as [->|Hne]; simpl in H.
    + destruct H as [H|H]; [left; now symmetry|right; now right].
    + destruct H as [H|H]; [right; now left|].
      destruct (IH _ _ _ _ H); [now left|right; now right].
Qed.

(** ** Phase A: defaults and environment *)

Lemma conflict_free_tail : forall spec specList,
    conflict_free (spec :: specList) -> conflict_free specList.
Proof.
  intros spec specList H i j specA specB Hij Hi Hj.
  apply (H (S i) (S j)); auto. lia.
Qed.

Lemma conflict_free_long_names : forall specList,
    conflict_free specList -> NoDup (map m_longName specList).
Proof.
  induction specList as [|spec rest IH]; intros H; simpl.
  - constructor.
  - constructor.
    + intros Hin. apply in_map_iff in Hin. destruct Hin as (other & Hname & Hin).
      apply In_nth_error in Hin. destruct Hin as [j Hj].
      pose proof (H 0%nat (S j) spec other ltac:(lia) eq_refl Hj) as Hc.
      unfold conflicting in Hc. rewrite Hname, String.eqb_refl in Hc.
      discriminate.
    + apply IH. now apply conflict_free_tail with spec.
Qed.

Section Seeding.

Variable getenv : string -> option string.

Lemma seed_spec : forall spec value,
    seed getenv spec = inr value ->
    m_spec value = spec /\ m_alreadySpecified value = false.
Proof.
  intros spec value H. unfold seed in H.
  destruct (m_kind spec);
    repeat match type of H with
           | context [match ?x with _ => _ end] => destruct x
           | context [if ?x then _ else _] => destruct x
           end;
    try discriminate; injection H as <-; auto.
Qed.

(** A flag is seeded without failure: its value is defined when its default
    is, and it is on exactly when the environment variable is configured, set
    and has one of the three values. *)
Lemma seed_flag : forall spec,
    m_kind spec = kFlag ->
    exists value,
      seed getenv spec = inr value
      /\ isDefined value = m_defaultIsDefined spec
      /\ flag value
         = match (if m_evIsDefined spec then getenv (m_evName spec) else None)
           with
           | Some evValue => flag_from_environment evValue
           | None => false
           end.
Proof.
  intros spec K. unfold seed. rewrite K. eexists. split; [reflexivity|].
  split; reflexivity.
Qed.

Lemma seed_all_entries : forall specList theMap0 theMap,
    NoDup (map m_longName specList) ->
    seed_all getenv specList theMap0 = inr theMap ->
    (forall spec, In spec specList ->
                  exists value,
                    seed getenv spec = inr value
                    /\ map_find theMap (m_longName spec) = Some value)
    /\ (forall key, ~ In key (map m_longName specList) ->
                    map_find theMap key = map_find theMap0 key)
    /\ (NoDup (map fst theMap0) -> NoDup (map fst theMap))
    /\ (forall key value,
           In (key, value) theMap ->
           In (key, value) theMap0
           \/ exists spec, In spec specList /\ key = m_longName spec
                           /\ seed getenv spec = inr value).
Proof.
  induction specList as [|spec rest IH]; intros theMap0 theMap Hnd H; simpl in H.
  - injection H as <-. repeat split; auto. intros spec [].
  - destruct (seed getenv spec) as [message|value] eqn:Hseed; [discriminate|].
    inversion Hnd as [|? ? Hfresh Hrest]; subst.
    destruct (IH _ _ Hrest H) as (Hall & Hother & Hkeys & Hfrom).
    split; [|split; [|split]].
    + intros spec' [<-|Hin].
      * exists value. split; [exact Hseed|].
        rewrite (Hother _ Hfresh). apply map_find_set_same.
      * now apply Hall.
    + intros key Hkey. simpl in Hkey.
      rewrite Hother by tauto.
      apply map_find_set_other. intros ->. apply Hkey. now left.
    + intros Hnd0. apply Hkeys. now apply map_set_NoDup.
    + intros key v Hin. destruct (Hfrom key v Hin) as [Hin1|(s & Hs & -> & Hv)].
      * destruct (map_set_In _ _ _ _ _ Hin1) as [Heq|Hin0]; [|now left].
        injection Heq as -> ->. right. exists spec. simpl. auto.
      * right. exists s. simpl. auto.
Qed.

Lemma seed_all_well_keyed : forall specList theMap,
    conflict_free specList ->
    seed_all getenv specList [] = inr theMap ->
    well_keyed specList theMap.
Proof.
  intros specList theMap Hfree H.
  destruct (seed_all_entries specList [] theMap
              (conflict_free_long_names _ Hfree) H)
    as (Hall & _ & Hkeys & Hfrom).
  split; [|split].
  - apply Hkeys. constructor.
  - intros key value Hin.
    destruct (Hfrom key value Hin) as [[]|(spec & Hs & -> & Hv)].
    destruct (seed_spec spec value Hv) as [-> _]. auto.
  - intros spec Hin. destruct (Hall spec Hin) as (value & _ & Hf). congruence.
Qed.

End Seeding.

Lemma qualify_kind : forall q spec, m_kind (fst (qualify q spec)) = m_kind spec.
Proof.
  intros q spec.
  destruct q; simpl;
    unfold defStr, defInt, defReal, intRange, realRange, envVar, warning, quiet;
    repeat match goal with
           | |- context [if ?x then _ else _] => destruct x
           end; reflexivity.
Qed.

Lemma qualify_default_stays : forall q spec,
    m_defaultIsDefined spec = true ->
    m_defaultIsDefined (fst (qualify q spec)) = true.
Proof.
  intros q spec H.
  destruct q; simpl;
    unfold defStr, defInt, defReal, intRange, realRange, envVar, warning, quiet;
    rewrite ?H;
    repeat match goal with
           | |- context [if ?x then _ else _] => destruct x
           end; simpl; auto.
Qed.

(** A flag that a program can build has its default defined. *)
Lemma Buildable_flag_default : forall spec,
    Buildable spec -> m_kind spec = kFlag -> m_defaultIsDefined spec = true.
Proof.
  intros spec H. induction H; intros K; try reflexivity; try discriminate.
  rewrite qualify_kind in K. apply qualify_default_stays. auto.
Qed.

Lemma flag_from_environment_spec : forall evValue,
    flag_from_environment evValue = true
    <-> evValue = "1" \/ evValue = "Y" \/ evValue = "YES".
Proof.
  intros evValue. unfold flag_from_environment.
  rewrite !orb_true_iff, !String.eqb_eq. tauto.
Qed.

(** C8. For a flag with an environment variable that is set, Phase A turns
    the flag on exactly when the variable's value is ["1"], ["Y"] or ["YES"];
    whatever the value, the flag is defined (by its implicit default) and
    seeding it does not fail. The same holds of the flag's entry in the
    container once Phase A has gone through the whole registry. *)
Theorem flag_environment_value :
  forall (getenv : string -> option string) (spec : OptionSpec)
         (evValue : string),
    Buildable spec ->
    m_kind spec = kFlag ->
    m_evIsDefined spec = true ->
    getenv (m_evName spec) = Some evValue ->
    (exists value,
        seed getenv spec = inr value
        /\ isDefined value = true
        /\ (flag value = true
            <-> evValue = "1" \/ evValue = "Y" \/ evValue = "YES"))
    /\ (forall specList theMap,
           In spec specList ->
           m_specListOkay (fst (new_Parsley specList)) = true ->
           seed_all getenv specList [] = inr theMap ->
           exists value,
             map_find theMap (m_longName spec) = Some value
             /\ isDefined value = true
             /\ (flag value = true
                 <-> evValue = "1" \/ evValue = "Y" \/ evValue = "YES")).
Proof.
  intros getenv spec evValue Hb K Hev Hget.
  destruct (seed_flag getenv spec K) as (value & Hseed & Hdef & Hflag).
  rewrite Hev, Hget in Hflag.
  rewrite (Buildable_flag_default spec Hb K) in Hdef.
  assert (Hiff : flag value = true
                 <-> evValue = "1" \/ evValue = "Y" \/ evValue = "YES").
  { rewrite Hflag. apply flag_from_environment_spec. }
  split.
  - exists value. auto.
  - intros specList theMap Hin Hok Hall.
    apply specListOkay_iff in Hok.
    destruct (seed_all_entries getenv specList [] theMap
                (conflict_free_long_names _ Hok) Hall) as (Hfind & _).
    destruct (Hfind spec Hin) as (value' & Hseed' & Hf).
    rewrite Hseed in Hseed'. injection Hseed' as <-.
    exists value. auto.
Qed.

Lemma flag_environment_value_witness :
  exists value,
    seed quiet_environment
         (fst (envVar "ACE_QUIET" (flagSpec "quiet" "q" "" false)))
    = inr value
    /\ isDefined value = true
    /\ (flag value = true <-> "YES" = "1" \/ "YES" = "Y" \/ "YES" = "YES").
Proof.
  apply (flag_environment_value
           quiet_environment
           (fst (envVar "ACE_QUIET" (flagSpec "quiet" "q" "" false)))
           "YES").
  - exact (B_qualify (QenvVar "ACE_QUIET") _ (B_flag "quiet" "q" "" false)).
  - reflexivity.
  - reflexivity.
  - reflexivity.
Defined.

(** ** Phase B: what the loop keeps *)

Lemma find_short_In : forall specList c spec,
    find_short specList c = Some spec -> In spec specList.
Proof.
  induction specList as [|s rest IH]; intros c spec H; simpl in H.
  - discriminate.
  - destruct (Ascii.eqb (m_shortName s) c).
    + injection H as ->. now left.
    + right. now apply IH with c.
Qed.

Lemma find_long_In : forall specList longName spec,
    find_long specList longName = Some spec ->
    In spec specList /\ m_longName spec = longName.
Proof.
  induction specList as [|s rest IH]; intros longName spec H; simpl in H.
  - discriminate.
  - destruct (String.eqb_spec (m_longName s) longName) as [Heq|Hne].
    + injection H as ->. split; [now left|exact Heq].
    + destruct (IH _ _ H). split; [now right|assumption].
Qed.

Lemma select_spec_In : forall specList arg spec,
    select_spec specList arg = inr (Some spec) -> In spec specList.
Proof.
  intros specList arg spec H. unfold select_spec in H.
  destruct (length arg =? 2)%nat.
  - destruct (get 1 arg); [|discriminate].
    injection H as H. now apply find_short_In with a.
  - destruct ((3 <=? length arg)%nat && (substring 0 2 arg =? "--"));
      [|discriminate].
    injection H as H. now apply find_long_In in H.
Qed.

Lemma apply_option_spec : forall spec value next value' advanced,
    apply_option spec value next = inr (value', advanced) ->
    m_spec value' = m_spec value /\ isDefined value' = true.
Proof.
  intros spec value next value' advanced H. unfold apply_option in H.
  destruct (m_kind spec);
    repeat match type of H with
           | context [match ?x with _ => _ end] => destruct x
           | context [if ?x then _ else _] => destruct x
           end;
    try discriminate; injection H as <- <-; auto.
Qed.

Lemma map_set_well_keyed : forall specList theMap key old value,
    well_keyed specList theMap ->
    map_find theMap key = Some old ->
    m_spec value = m_spec old ->
    well_keyed specList (map_set theMap key value).
Proof.
  intros specList theMap key old value (Hnd & Hspec & Hall) Hold Hsame.
  split; [|split].
  - now apply map_set_NoDup.
  - intros k v Hin. destruct (map_set_In _ _ _ _ _ Hin) as [Heq|Hin0].
    + injection Heq as -> ->. rewrite Hsame.
      apply Hspec. now apply map_find_In.
    + now apply Hspec.
  - intros spec Hin.
    destruct (String.eqb_spec (m_longName spec) key) as [->|Hne].
    + rewrite map_find_set_same. discriminate.
    + rewrite map_find_set_other by exact Hne. now apply Hall.
Qed.

Section Scanning.

Variable specList : list OptionSpec.

Lemma recognise_well_keyed : forall st arg next spec st' advanced,
    well_keyed specList (values st) ->
    recognise specList st arg next = inr (spec, st', advanced) ->
    well_keyed specList (values st')
    /\ optionsComplete st' = optionsComplete st
    /\ parameters st' = parameters st.
Proof.
  intros st arg next spec st' advanced Hwk H. unfold recognise in H.
  destruct (select_spec specList arg) as [|[s|]]; try discriminate.
  destruct (map_find (values st) (m_longName s)) as [old|] eqn:Hold;
    [|discriminate].
  destruct (m_alreadySpecified old); [discriminate|].
  destruct (apply_option s (with_alreadySpecified true old) next)
    as [|[value adv]] eqn:Happ; [discriminate|].
  injection H as <- <- <-. cbn.
  split; [|auto].
  apply map_set_well_keyed with old; auto.
  now destruct (apply_option_spec _ _ _ _ _ Happ).
Qed.

Lemma recognise_no_fault : forall st arg next,
    well_keyed specList (values st) ->
    recognise specList st arg next <> inl StepFault.
Proof.
  intros st arg next (_ & _ & Hall) H. unfold recognise in H.
  destruct (select_spec specList arg) as [|[s|]] eqn:Hsel; try discriminate.
  destruct (map_find (values st) (m_longName s)) as [old|] eqn:Hold.
  - destruct (m_alreadySpecified old); [discriminate|].
    destruct (apply_option s (with_alreadySpecified true old) next)
      as [|[value adv]]; discriminate.
  - apply (Hall s); [|exact Hold]. now apply select_spec_In with arg.
Qed.

Lemma scan_step_well_keyed : forall st arg next,
    well_keyed specList (values st) ->
    match scan_step specList st arg next with
    | StepFail _ => True
    | StepFault => False
    | StepReturn st' | StepContinue st' _ => well_keyed specList (values st')
    end.
Proof.
  intros st arg next Hwk. unfold scan_step.
  destruct (optionsComplete st); [exact Hwk|].
  destruct (arg =? "--"); [exact Hwk|].
  destruct (is_parameter arg); [exact Hwk|].
  destruct (recognise specList st arg next) as [stop|[[spec st'] adv]] eqn:Hrec.
  - destruct stop; auto.
    + now apply (recognise_no_fault st arg next Hwk).
    + (* no such step is produced by [recognise] *)
      unfold recognise in Hrec.
      repeat match type of Hrec with
             | context [match ?x with _ => _ end] => destruct x
             | context [if ?x then _ else _] => destruct x
             end; discriminate.
    + unfold recognise in Hrec.
      repeat match type of Hrec with
             | context [match ?x with _ => _ end] => destruct x
             | context [if ?x then _ else _] => destruct x
             end; discriminate.
  - destruct (recognise_well_keyed _ _ _ _ _ _ Hwk Hrec) as [Hwk' _].
    destruct (m_isSingleton spec); exact Hwk'.
Qed.

Lemma scan_well_keyed : forall arguments st,
    well_keyed specList (values st) ->
    match scan specList st arguments with
    | ScanFail _ => True
    | ScanFault => False
    | ScanReturn st' | ScanDone st' => well_keyed specList (values st')
    end.
Proof.
  intros arguments.
  remember (List.length arguments) as n eqn:Hn.
  assert (Hle : (List.length arguments <= n)%nat) by lia. clear Hn.
  revert arguments Hle.
  induction n as [|n IH]; intros arguments Hle st Hwk;
    destruct arguments as [|arg rest]; try exact Hwk; simpl in Hle; [lia|].
  cbn [scan].
  pose proof (scan_step_well_keyed st arg (hd_error rest) Hwk) as Hstep.
  destruct (scan_step specList st arg (hd_error rest)) as [| |st'|st' adv];
    auto.
  destruct adv.
  - destruct rest as [|argValue rest]; [exact Hstep|].
    apply IH; [simpl in *; lia|exact Hstep].
  - apply IH; [lia|exact Hstep].
Qed.

(** The turns counted by [Reaches] are the turns of [scan]. *)
Lemma Reaches_scan : forall st args st' args',
    Reaches specList st args st' args' ->
    scan specList st args = scan specList st' args'.
Proof.
  intros st args st' args' H. induction H.
  - reflexivity.
  - cbn [scan]. rewrite H. exact IHReaches.
  - cbn [scan hd_error]. rewrite H. exact IHReaches.
Qed.

Lemma Reaches_well_keyed : forall st args st' args',
    Reaches specList st args st' args' ->
    well_keyed specList (values st) -> well_keyed specList (values st').
Proof.
  intros st args st' args' H. induction H; intros Hwk.
  - exact Hwk.
  - apply IHReaches.
    pose proof (scan_step_well_keyed st arg (hd_error rest) Hwk) as Hs.
    now rewrite H in Hs.
  - apply IHReaches.
    pose proof (scan_step_well_keyed st arg (Some argValue) Hwk) as Hs.
    now rewrite H in Hs.
Qed.

End Scanning.

Lemma recognise_keeps_parameters : forall specList st arg next spec st' advanced,
    recognise specList st arg next = inr (spec, st', advanced) ->
    optionsComplete st' = optionsComplete st
    /\ parameters st' = parameters st.
Proof.
  intros specList st arg next spec st' advanced H. unfold recognise in H.
  repeat match type of H with
         | context [match ?x with _ => _ end] => destruct x
         | context [if ?x then _ else _] => destruct x
         end; try discriminate.
  injection H as <- <- <-. auto.
Qed.

Lemma scan_step_no_parameters_yet : forall specList st arg next st' advanced,
    no_parameters_yet st ->
    scan_step specList st arg next = StepContinue st' advanced ->
    no_parameters_yet st'.
Proof.
  intros specList st arg next st' advanced Hst H. unfold scan_step in H.
  destruct (optionsComplete st) eqn:Hc.
  - injection H as <- <-. intros Hc'. cbn in Hc'. congruence.
  - destruct (arg =? "--"); [injection H as <- <-; intros Hc'; discriminate|].
    destruct (is_parameter arg);
      [injection H as <- <-; intros Hc'; discriminate|].
    destruct (recognise specList st arg next) as [stop|[[spec st1] adv]] eqn:Hr.
    + subst stop. unfold recognise in Hr.
      repeat match type of Hr with
             | context [match ?x with _ => _ end] => destruct x
             | context [if ?x then _ else _] => destruct x
             end; discriminate.
    + destruct (recognise_keeps_parameters _ _ _ _ _ _ _ Hr) as [H1 H2].
      destruct (m_isSingleton spec); [discriminate|].
      injection H as <- <-. intros _. rewrite H2. now apply Hst.
Qed.

Lemma Reaches_no_parameters_yet : forall specList st args st' args',
    Reaches specList st args st' args' ->
    no_parameters_yet st -> no_parameters_yet st'.
Proof.
  intros specList st args st' args' H. induction H; intros Hst; auto.
  - apply IHReaches. now apply (scan_step_no_parameters_yet _ _ _ _ _ _ Hst H).
  - apply IHReaches. now apply (scan_step_no_parameters_yet _ _ _ _ _ _ Hst H).
Qed.

(** ** [process] as a whole *)

(** [process] never dereferences an empty pointer. *)
Lemma process_no_fault :
  forall getenv iteration specList arguments skipProgramName,
    process getenv iteration (fst (new_Parsley specList))
            arguments skipProgramName <> Fault.
Proof.
  intros getenv iteration specList arguments skipProgramName.
  unfold process. rewrite new_Parsley_specList.
  destruct (m_specListOkay (fst (new_Parsley specList))) eqn:Hok;
    [|discriminate].
  apply specListOkay_iff in Hok. cbn [negb].
  destruct (seed_all getenv specList []) as [|theMap] eqn:Hseed;
    [discriminate|].
  pose proof (scan_well_keyed specList
                (if skipProgramName then tl arguments else arguments)
                (initial_state theMap)
                (seed_all_well_keyed getenv specList theMap Hok Hseed)) as H.
  destruct (scan specList _ _); try discriminate; try contradiction.
  destruct (check_required (iteration (values st))); discriminate.
Qed.

(** C1. When a turn of the loop recognises an option whose specification is
    a singleton, its argument included where the kind takes one, [process]
    returns true there and then: with the values as that turn leaves them,
    without parameters, whatever arguments follow and whatever required
    options are still without a value. *)
Theorem singleton_returns_at_once :
  forall (getenv : string -> option string) (iteration : MapType -> MapType)
         (specList : list OptionSpec) (arguments : list string)
         (skipProgramName : bool) (theMap : MapType)
         (st : ScanState) (arg : string) (rest : list string)
         (spec : OptionSpec) (st' : ScanState) (advanced : bool),
    m_specListOkay (fst (new_Parsley specList)) = true ->
    seed_all getenv specList [] = inr theMap ->
    Reaches specList (initial_state theMap)
            (if skipProgramName then tl arguments else arguments)
            st (arg :: rest) ->
    option_turn st arg ->
    recognise specList st arg (hd_error rest) = inr (spec, st', advanced) ->
    m_isSingleton spec = true ->
    process getenv iteration (fst (new_Parsley specList))
            arguments skipProgramName
    = Success (values st') [].
Proof.
  intros getenv iteration specList arguments skipProgramName theMap
         st arg rest spec st' advanced Hok Hseed Hreach (Hc & Hterm & Hpar)
         Hrec Hsingle.
  assert (Hstep : scan_step specList st arg (hd_error rest) = StepReturn st').
  { unfold scan_step. now rewrite Hc, Hterm, Hpar, Hrec, Hsingle. }
  assert (Hparams : parameters st' = []).
  { destruct (recognise_keeps_parameters _ _ _ _ _ _ _ Hrec) as [_ ->].
    apply (Reaches_no_parameters_yet _ _ _ _ _ Hreach); [|exact Hc].
    intros _. reflexivity. }
  unfold process. rewrite new_Parsley_specList, Hok, Hseed. cbn [negb].
  rewrite (Reaches_scan _ _ _ _ _ Hreach).
  cbn [scan]. rewrite Hstep, Hparams. reflexivity.
Qed.

Lemma singleton_returns_at_once_witness :
  exists options,
    process no_environment insertion_order
            (fst (new_Parsley [help; strSpec "name" "n" "" true]))
            ["prog"; "--help"; "--bogus"; "-xyz"] true
    = Success options []
    /\ ov_isDefined (options_get options "name") = false.
Proof.
  eexists. split.
  - eapply (singleton_returns_at_once
              no_environment insertion_order
              [help; strSpec "name" "n" "" true]
              ["prog"; "--help"; "--bogus"; "-xyz"] true
              _ _ "--help" ["--bogus"; "-xyz"] help _ false).
    + reflexivity.
    + reflexivity.
    + apply Reaches_here.
    + repeat split.
    + reflexivity.
    + reflexivity.
  - reflexivity.
Defined.

Lemma check_required_found : forall nodes key value,
    In (key, value) nodes ->
    m_isRequired (m_spec value) = true ->
    isDefined value = false ->
    exists key' value',
      In (key', value') nodes
      /\ m_isRequired (m_spec value') = true
      /\ isDefined value' = false
      /\ check_required nodes
         = Some ("a value is required for: " ++ name (m_spec value')).
Proof.
  induction nodes as [|[k v] rest IH]; intros key value Hin Hreq Hdef.
  - contradiction.
  - cbn [check_required].
    destruct (m_isRequired (m_spec v) && negb (isDefined v)) eqn:Hv.
    + apply andb_true_iff in Hv. destruct Hv as [Hr Hd].
      apply negb_true_iff in Hd.
      exists k, v. repeat split; auto. now left.
    + destruct Hin as [Heq|Hin].
      * injection Heq as -> ->. rewrite Hreq, Hdef in Hv. discriminate.
      * destruct (IH key value Hin Hreq Hdef) as (k' & v' & Hin' & H').
        exists k', v'. split; [now right|exact H'].
Qed.

Lemma name_rendering : forall spec,
    (m_shortName spec <> no_short_name ->
     name spec = "-" ++ String (m_shortName spec) ", --" ++ m_longName spec)
    /\ (m_shortName spec = no_short_name ->
        name spec = "--" ++ m_longName spec).
Proof.
  intros spec. unfold name. split; intros H.
  - apply Ascii.eqb_neq in H. now rewrite H.
  - rewrite H. reflexivity.
Qed.

(** C3. When Phase A and the loop over the arguments have gone through
    (without a singleton) and a required option is left without a value,
    [process] returns false, and the message is "a value is required for: "
    followed by the name of such an option, "-c, --long" or "--long": of the
    one there is, if there is one only. A required string option [--name/-n]
    without default and the arguments [prog] give the message for
    [-n, --name]. *)
Theorem missing_required_value_is_reported :
  (forall (getenv : string -> option string) (iteration : MapType -> MapType)
          (specList : list OptionSpec) (arguments : list string)
          (skipProgramName : bool) (theMap : MapType) (st : ScanState)
          (spec : OptionSpec),
      traversal iteration ->
      m_specListOkay (fst (new_Parsley specList)) = true ->
      seed_all getenv specList [] = inr theMap ->
      scan specList (initial_state theMap)
           (if skipProgramName then tl arguments else arguments)
      = ScanDone st ->
      In spec specList ->
      unmet (values st) spec ->
      (exists missing,
          In missing specList /\ unmet (values st) missing
          /\ process getenv iteration (fst (new_Parsley specList))
                     arguments skipProgramName
             = Failure ("a value is required for: " ++ name missing))
      /\ ((forall other, In other specList -> unmet (values st) other ->
                         other = spec) ->
          process getenv iteration (fst (new_Parsley specList))
                  arguments skipProgramName
          = Failure ("a value is required for: " ++ name spec))
      /\ (m_shortName spec <> no_short_name ->
          name spec = "-" ++ String (m_shortName spec) ", --"
                          ++ m_longName spec)
      /\ (m_shortName spec = no_short_name ->
          name spec = "--" ++ m_longName spec))
  /\ (forall (getenv : string -> option string)
             (iteration : MapType -> MapType) (description : string),
         traversal iteration ->
         process getenv iteration
                 (fst (new_Parsley [strSpec "name" "n" description true]))
                 ["prog"] true
         = Failure "a value is required for: -n, --name").
Proof.
  split.
  - intros getenv iteration specList arguments skipProgramName theMap st spec
           Hperm Hok Hseed Hscan Hin (Hreq & value & Hfind & Hdef).
    assert (Hfree : conflict_free specList) by now apply specListOkay_iff.
    pose proof (scan_well_keyed specList
                  (if skipProgramName then tl arguments else arguments)
                  (initial_state theMap)
                  (seed_all_well_keyed getenv specList theMap Hfree Hseed))
      as Hwk.
    rewrite Hscan in Hwk. destruct Hwk as (Hnd & Hspec & Hall).
    assert (Hvalue : m_spec value = spec).
    { destruct (Hspec _ _ (map_find_In _ _ _ Hfind)) as [Hin' Hname].
      pose proof (conflict_free_long_names _ Hfree) as Hnames.
      clear - Hin Hin' Hname Hnames.
      induction specList as [|s rest IH]; [contradiction|].
      inversion Hnames as [|? ? Hfresh Hrest]; subst.
      destruct Hin as [->|Hin], Hin' as [Heq|Hin']; auto.
      - exfalso. apply Hfresh. rewrite <- Hname. now apply in_map.
      - exfalso. apply Hfresh. rewrite Heq, Hname. now apply in_map. }
    assert (Hnode : In (m_longName spec, value) (iteration (values st))).
    { apply Permutation_in with (values st);
        [apply Permutation_sym, Hperm|now apply map_find_In]. }
    assert (Hreq0 : m_isRequired (m_spec value) = true)
      by (rewrite Hvalue; exact Hreq).
    destruct (check_required_found _ _ _ Hnode Hreq0 Hdef)
      as (key' & value' & Hin' & Hreq' & Hdef' & Hcheck).
    apply (Permutation_in _ (Hperm (values st))) in Hin'.
    destruct (Hspec _ _ Hin') as [Hmember Hkey].
    assert (Hprocess :
              process getenv iteration (fst (new_Parsley specList))
                      arguments skipProgramName
              = Failure ("a value is required for: " ++ name (m_spec value'))).
    { unfold process. rewrite new_Parsley_specList, Hok, Hseed. cbn [negb].
      fold (initial_state theMap). rewrite Hscan, Hcheck. reflexivity. }
    assert (Hunmet : unmet (values st) (m_spec value')).
    { split; [exact Hreq'|]. exists value'. split; [|exact Hdef'].
      rewrite Hkey. now apply In_map_find. }
    split; [|split].
    + exists (m_spec value'). auto.
    + intros Honly. rewrite Hprocess.
      now rewrite (Honly (m_spec value') Hmember Hunmet).
    + apply name_rendering.
  - intros getenv iteration description Hperm. cbn.
    match goal with
    | |- context [iteration ?entries] => pose proof (Hperm entries) as H
    end.
    apply Permutation_sym, Permutation_length_1_inv in H.
    rewrite H. reflexivity.
Qed.

Lemma missing_required_value_witness :
  process quiet_environment insertion_order
          (fst (new_Parsley [help; strSpec "name" "n" "" true;
                             intSpec "count" no_short_name "" false]))
          ["prog"; "--count"; "3"; "file"] true
  = Failure "a value is required for: -n, --name".
Proof.
  refine (proj1 (proj2 (proj1 missing_required_value_is_reported
                          quiet_environment insertion_order
                          [help; strSpec "name" "n" "" true;
                           intSpec "count" no_short_name "" false]
                          ["prog"; "--count"; "3"; "file"] true _ _
                          (strSpec "name" "n" "" true) _ _ _ _ _ _)) _).
  - intros theMap. apply Permutation_refl.
  - reflexivity.
  - reflexivity.
  - vm_compute. reflexivity.
  - right. left. reflexivity.
  - split; [reflexivity|]. eexists. split; reflexivity.
  - intros other [<-|[<-|[<-|[]]]] [Hreq _]; try discriminate. reflexivity.
Defined.

(** ** Strings *)

Lemma append_nil_r : forall s : string, s ++ "" = s.
Proof. induction s as [|c s IH]; simpl; [reflexivity|now rewrite IH]. Qed.

Lemma append_assoc : forall s t u : string, (s ++ t) ++ u = s ++ (t ++ u).
Proof. induction s as [|c s IH]; intros; simpl; [reflexivity|now rewrite IH]. Qed.

Lemma length_append : forall s t : string,
    length (s ++ t) = (length s + length t)%nat.
Proof. induction s as [|c s IH]; intros; simpl; [reflexivity|now rewrite IH]. Qed.

Lemma substring_whole : forall (s : string) (n : nat),
    (length s <= n)%nat -> substring 0 n s = s.
Proof.
  induction s as [|c s IH]; intros n H; destruct n; simpl in *;
    try reflexivity; try lia.
  rewrite IH; [reflexivity|lia].
Qed.

Lemma substring_prefix : forall (s : string) (m : nat),
    exists after, s = substring 0 m s ++ after.
Proof.
  induction s as [|c s IH]; intros m.
  - exists "". destruct m; reflexivity.
  - destruct m as [|m].
    + exists (String c s). reflexivity.
    + destruct (IH m) as [after H]. exists after. simpl. now rewrite <- H.
Qed.

(** [substring] cuts a piece out of the string. *)
Lemma substring_infix : forall (s : string) (n m : nat),
    exists before after, s = before ++ substring n m s ++ after.
Proof.
  induction s as [|c s IH]; intros n m.
  - exists "", "". destruct n, m; reflexivity.
  - destruct n as [|n].
    + exists "". apply substring_prefix.
    + destruct (IH n m) as (before & after & H).
      exists (String c before), after. simpl. now rewrite <- H.
Qed.

Lemma index_cons : forall p c s,
    index 0 p (String c s)
    = if prefix p (String c s) then Some 0%nat
      else match index 0 p s with Some n => Some (S n) | None => None end.
Proof. reflexivity. Qed.

Lemma prefix_mark : forall c s,
    prefix "!!" (String c s) = true -> c = "!"%char.
Proof.
  intros c s H. apply prefix_correct in H. simpl in H.
  destruct s; simpl in H; congruence.
Qed.

Lemma index_mark_found : forall s,
    has_sentinel_mark s -> index 0 "!!" s <> None.
Proof.
  intros s (before & after & ->).
  induction before as [|c before IH].
  - cbn [append]. rewrite index_cons.
    replace (prefix "!!" (String "!" (String "!" after))) with true;
      [discriminate|].
    symmetry. apply prefix_correct. destruct after; reflexivity.
  - cbn [append] in IH |- *. rewrite index_cons.
    destruct (prefix "!!" _); [discriminate|].
    destruct (index 0 "!!" (before ++ String "!" (String "!" after)));
      [discriminate|now contradiction IH].
Qed.

Lemma index_mark_missing : forall s,
    (forall before c after, s = before ++ String c after -> c <> "!"%char) ->
    index 0 "!!" s = None.
Proof.
  induction s as [|c s IH]; intros H.
  - reflexivity.
  - assert (Hc : c <> "!"%char) by (apply (H "" c s); reflexivity).
    rewrite index_cons.
    destruct (prefix "!!" (String c s)) eqn:Hp;
      [now apply prefix_mark in Hp|].
    rewrite IH; [reflexivity|].
    intros before d after ->. apply (H (String c before) d after). reflexivity.
Qed.

Lemma has_sentinel_mark_substring : forall s n m,
    has_sentinel_mark (substring n m s) -> has_sentinel_mark s.
Proof.
  intros s n m (before & after & H).
  destruct (substring_infix s n m) as (b & a & Hs).
  exists (b ++ before), (after ++ a).
  rewrite Hs at 1. rewrite H. now rewrite !append_assoc.
Qed.

Lemma has_sentinel_mark_tail : forall c s,
    has_sentinel_mark s -> has_sentinel_mark (String c s).
Proof.
  intros c s (before & after & ->). now exists (String c before), after.
Qed.

(** In a text without the mark, followed by the sentinel, the sentinel is
    found nowhere but at the end. *)
Lemma sentinel_is_last : forall t lit tail,
    ~ has_sentinel_mark t ->
    t ++ sentinel = lit ++ sentinel ++ tail ->
    tail = "" /\ lit = t.
Proof.
  unfold sentinel.
  induction t as [|c t IH]; intros lit tail Hno H.
  - destruct lit as [|c0 lit].
    + simpl in H. injection H as <-. auto.
    + apply (f_equal length) in H. rewrite length_append in H.
      simpl in H. rewrite length_append in H. simpl in H. lia.
  - destruct lit as [|c0 lit]; simpl in H.
    + exfalso. injection H as -> H.
      destruct t as [|c' t]; simpl in H.
      * discriminate.
      * injection H as -> _. apply Hno. now exists "", t.
    + injection H as <- H.
      destruct (IH lit tail) as [-> ->]; auto.
      intros Hm. apply Hno. now apply has_sentinel_mark_tail.
Qed.

(** ** The scanners read a prefix of their input *)

Lemma remains_refl : forall s, remains s s.
Proof. intros s. now exists "". Qed.

Lemma remains_cons : forall c rest s, remains rest s -> remains rest (String c s).
Proof. intros c rest s [lit ->]. now exists (String c lit). Qed.

Lemma remains_trans : forall a b c, remains a b -> remains b c -> remains a c.
Proof.
  intros a b c [l1 ->] [l2 ->]. exists (l2 ++ l1). now rewrite append_assoc.
Qed.

Lemma skip_space_remains : forall s, remains (skip_space s) s.
Proof.
  induction s as [|c s IH]; simpl.
  - apply remains_refl.
  - destruct (isspace c); [now apply remains_cons|apply remains_refl].
Qed.

Lemma scan_sign_remains : forall s, remains (snd (scan_sign s)) s.
Proof.
  intros s. unfold scan_sign.
  destruct s as [|c s]; [apply remains_refl|].
  destruct (Ascii.eqb_spec c "-") as [->|H1];
    [apply remains_cons, remains_refl|].
  destruct (Ascii.eqb_spec c "+") as [->|H2];
    [apply remains_cons, remains_refl|].
  assert (E : scan_sign (String c s) = (false, String c s)).
  { unfold scan_sign.
    destruct c as [[] [] [] [] [] [] [] []]; try reflexivity; congruence. }
  unfold scan_sign in E. rewrite E. apply remains_refl.
Qed.

Lemma scan_number_remains : forall digit base s acc count,
    remains (snd (scan_number digit base s acc count)) s.
Proof.
  intros digit base. induction s as [|c s IH]; intros acc count; simpl.
  - apply remains_refl.
  - destruct (digit c); [apply remains_cons, IH|apply remains_refl].
Qed.

Lemma collect_sign_remains : forall s,
    remains (snd (Double.collect_sign s)) s.
Proof.
  intros [|c s]; [apply remains_refl|]. unfold Double.collect_sign.
  destruct (Ascii.eqb c "-" || Ascii.eqb c "+");
    [apply remains_cons|]; apply remains_refl.
Qed.

Lemma collect_word_remains : forall word buffer s found rest,
    Double.collect_word word buffer s = Some (found, rest) -> remains rest s.
Proof.
  induction word as [|a word IH]; intros buffer s found rest H; simpl in H.
  - injection H as _ <-. apply remains_refl.
  - destruct s as [|c s]; [discriminate|].
    destruct (Ascii.eqb (tolower c) a); [|discriminate].
    apply remains_cons. now apply IH with (Double.add buffer c) found.
Qed.

Lemma collect_prefix_remains : forall buffer s,
    remains (snd (Double.collect_prefix buffer s)) s.
Proof.
  intros buffer [|c s]; [apply remains_refl|]. unfold Double.collect_prefix.
  destruct (Ascii.eqb c "0"); [|apply remains_refl].
  destruct s as [|x s]; [apply remains_cons, remains_refl|].
  destruct (Ascii.eqb (tolower x) "x"); cbn [snd].
  - apply remains_cons, remains_cons, remains_refl.
  - apply remains_cons, remains_refl.
Qed.

Lemma collect_number_remains : forall s hexa got_digit got_dot got_e buffer,
    remains
      (snd (Double.collect_number hexa got_digit got_dot got_e buffer s)) s.
Proof.
  induction s as [|c s IH]; intros hexa got_digit got_dot got_e buffer;
    cbn [Double.collect_number].
  - apply remains_refl.
  - repeat match goal with
           | |- context [if ?b then _ else _] => destruct b
           end;
      try (apply remains_cons, IH); apply remains_refl.
Qed.

Lemma collect_remains : forall s buffer rest,
    Double.collect s = Some (buffer, rest) -> remains rest s.
Proof.
  intros s buffer rest H. unfold Double.collect in H.
  pose proof (collect_sign_remains s) as Hs.
  destruct (Double.collect_sign s) as [got_sign s1]. cbn [snd] in Hs.
  apply remains_trans with s1; [|exact Hs]. clear Hs.
  destruct s1 as [|c s2]; [discriminate|].
  destruct (Ascii.eqb (tolower c) "n");
    [now apply collect_word_remains in H|].
  destruct (Ascii.eqb (tolower c) "i").
  - destruct (Double.collect_word "inf" got_sign (String c s2))
      as [[found left]|] eqn:Hw; [|discriminate].
    apply collect_word_remains in Hw.
    destruct left as [|i left]; [injection H as _ <-; exact Hw|].
    destruct (Ascii.eqb (tolower i) "i").
    + apply collect_word_remains in H.
      now apply remains_trans with (String i left).
    + injection H as _ <-. exact Hw.
  - pose proof (collect_prefix_remains got_sign (String c s2)) as Hp.
    destruct (Double.collect_prefix got_sign (String c s2))
      as [[[hexa got_digit] prefix] s3].
    cbn [snd] in Hp.
    pose proof (collect_number_remains s3 hexa got_digit false false prefix)
      as Hn.
    destruct (Double.collect_number hexa got_digit false false prefix s3)
      as [number left].
    cbn [snd] in Hn.
    destruct ((length number =? length got_sign)%nat
              || hexa && (length number =? 2 + length got_sign)%nat);
      [discriminate|].
    injection H as _ <-. now apply remains_trans with s3.
Qed.

Lemma scan_double_remains : forall input value rest,
    Double.scan_double input = Some (value, rest) -> remains rest input.
Proof.
  intros input value rest H. unfold Double.scan_double in H.
  destruct (Double.collect (skip_space input)) as [[buffer left]|] eqn:Hc;
    [|discriminate].
  destruct (Double.strtod buffer) as [[v unread]|]; [|discriminate].
  injection H as _ <-.
  apply remains_trans with (skip_space input);
    [now apply collect_remains in Hc|apply skip_space_remains].
Qed.

Lemma scan_int_remains : forall input value rest,
    Scanf.scan_int input = Some (value, rest) -> remains rest input.
Proof.
  intros input value rest H. unfold Scanf.scan_int in H.
  pose proof (scan_sign_remains (skip_space input)) as Hs.
  destruct (scan_sign (skip_space input)) as [neg s]. cbn [snd] in Hs.
  pose proof (scan_number_remains dec_digit 10 s 0%N 0%nat) as Hn.
  destruct (scan_number dec_digit 10 s 0%N 0%nat) as [[v n] r].
  cbn [snd] in Hn. destruct n; [discriminate|].
  injection H as <- <-.
  apply remains_trans with s; [exact Hn|].
  apply remains_trans with (skip_space input);
    [exact Hs|apply skip_space_remains].
Qed.

(** ** [str2real] and [str2int]: the sentinel *)

Lemma sscanf_sentinel_two :
  forall (A : Type) (conv : string -> option (A * string)) input n value c,
    Scanf.sscanf_sentinel conv input = (n, value, c) ->
    n = 2%Z ->
    exists v ch tail,
      conv input = Some (v, String "!" (String "!" (String ch tail)))
      /\ value = Some v /\ c = Some ch.
Proof.
  intros A conv input n value c H Hn. unfold Scanf.sscanf_sentinel in H.
  destruct (conv input) as [[v rest]|].
  - destruct rest as [|c1 [|c2 [|c3 tail]]];
      try (injection H as <- _ _; discriminate).
    + destruct c1 as [[] [] [] [] [] [] [] []];
        injection H as <- _ _; discriminate.
    + destruct c1 as [[] [] [] [] [] [] [] []];
        try (injection H as <- _ _; discriminate);
        destruct c2 as [[] [] [] [] [] [] [] []];
        injection H as <- _ _; discriminate.
    + destruct (Ascii.eqb_spec c1 "!") as [->|H1].
      * destruct (Ascii.eqb_spec c2 "!") as [->|H2].
        -- injection H as _ <- <-. now exists v, c3, tail.
        -- exfalso.
           destruct c2 as [[] [] [] [] [] [] [] []];
             try (injection H as <- _ _; discriminate); congruence.
      * exfalso.
        destruct c1 as [[] [] [] [] [] [] [] []];
          try (injection H as <- _ _; discriminate); congruence.
  - destruct (skip_space input); injection H as <- _ _; discriminate.
Qed.

Lemma index_none_no_mark : forall s,
    index 0 "!!" s = None -> ~ has_sentinel_mark s.
Proof. intros s H Hm. now apply (index_mark_found s Hm). Qed.

Lemma stripString_no_mark : forall str,
    index 0 "!!" str = None -> ~ has_sentinel_mark (stripString str).
Proof.
  intros str H Hm. apply (index_none_no_mark str H).
  unfold stripString in Hm. now apply has_sentinel_mark_substring in Hm.
Qed.

(** What the sentinel buys, for any conversion that reads a prefix of its
    input: the verdict is true exactly when the text holds no mark and the
    conversion reads all of the trimmed text and nothing of the sentinel. *)
Lemma sentinel_verdict :
  forall (A : Type) (conv : string -> option (A * string)) (str : string)
         (result : A),
    (forall input value rest,
        conv input = Some (value, rest) -> remains rest input) ->
    index 0 "!!" str = None ->
    (let '(n, value, c) :=
       Scanf.sscanf_sentinel conv (stripString str ++ sentinel) in
     if negb (n =? 2)%Z then None
     else if negb (Ascii.eqb (match c with Some c => c | None => " "%char end)
                             "x")
          then None
          else value) = Some result
    <-> conv (stripString str ++ sentinel) = Some (result, sentinel).
Proof.
  intros A conv str result Hconv Hidx. split.
  - destruct (Scanf.sscanf_sentinel conv (stripString str ++ sentinel))
      as [[n value] c] eqn:Hs.
    destruct (Z.eqb_spec n 2) as [Hn|Hn]; [|discriminate]. cbn [negb].
    destruct (sscanf_sentinel_two _ _ _ _ _ _ Hs Hn)
      as (v & ch & tail & Hc & -> & ->).
    destruct (Ascii.eqb_spec ch "x") as [->|Hx]; [|discriminate]. cbn [negb].
    intros E. injection E as ->.
    destruct (Hconv _ _ _ Hc) as [lit Hlit].
    destruct (sentinel_is_last (stripString str) lit tail
                (stripString_no_mark str Hidx) Hlit) as [-> _].
    exact Hc.
  - intros Hc. unfold Scanf.sscanf_sentinel. rewrite Hc. reflexivity.
Qed.

Lemma str2real_verdict : forall str value,
    str2real str = Some value
    <-> index 0 "!!" str = None
        /\ Double.scan_double (stripString str ++ sentinel)
           = Some (value, sentinel).
Proof.
  intros str value. unfold str2real.
  destruct (index 0 "!!" str) eqn:Hidx.
  - split; [discriminate|intros [? _]; discriminate].
  - rewrite (sentinel_verdict _ Double.scan_double str value
               scan_double_remains Hidx).
    tauto.
Qed.

Lemma str2int_verdict : forall str value,
    str2int str = Some value
    <-> exists real,
        str2real str = Some real
        /\ Double.lt real dmin = false
        /\ Double.gt real dmax = false
        /\ Scanf.scan_int (stripString str ++ sentinel)
           = Some (value, sentinel).
Proof.
  intros str value. unfold str2int.
  destruct (str2real str) as [real|] eqn:Hreal.
  - assert (Hidx : index 0 "!!" str = None)
      by (apply str2real_verdict in Hreal; tauto).
    destruct (Double.lt real dmin) eqn:Hlt.
    { split; [discriminate|intros (r & E & ? & _); congruence]. }
    destruct (Double.gt real dmax) eqn:Hgt.
    { split; [discriminate|intros (r & E & _ & ? & _); congruence]. }
    rewrite (sentinel_verdict _ Scanf.scan_int str value
               scan_int_remains Hidx).
    split.
    + intros H. now exists real.
    + intros (r & _ & _ & _ & H). exact H.
  - split; [discriminate|intros (r & E & _); discriminate].
Qed.

(** ** Integers as [double] *)

Lemma digits2_pos_size : forall p, digits2_pos p = Pos.size p.
Proof. induction p; simpl; congruence. Qed.

Lemma digits2_pos_bounds : forall p,
    (2 ^ (Zpos (digits2_pos p) - 1) <= Zpos p < 2 ^ Zpos (digits2_pos p))%Z.
Proof.
  intros p. rewrite digits2_pos_size. split.
  - pose proof (Pos.size_le p) as H.
    assert (H' : (2 ^ Zpos (Pos.size p) <= 2 * Zpos p)%Z).
    { rewrite <- Pos2Z.inj_pow. change (2 * Zpos p)%Z with (Zpos p~0).
      now apply Pos2Z.pos_le_pos. }
    replace (Zpos (Pos.size p)) with (Z.succ (Zpos (Pos.size p) - 1)) in H'
      by lia.
    rewrite Z.pow_succ_r in H' by lia. lia.
  - pose proof (Pos.size_gt p) as H.
    rewrite <- Pos2Z.inj_pow. now apply Pos2Z.pos_lt_pos.
Qed.

Lemma iter_xO_value : forall p k,
    Zpos (Pos.iter xO p k) = (Zpos p * 2 ^ Zpos k)%Z.
Proof.
  intros p k. induction k as [|k IH] using Pos.peano_ind.
  - simpl. lia.
  - rewrite Pos.iter_succ. rewrite Pos2Z.inj_xO, IH, Pos2Z.inj_succ.
    rewrite Z.pow_succ_r by lia. lia.
Qed.

Lemma iter_xO_digits : forall p k,
    digits2_pos (Pos.iter xO p k) = (digits2_pos p + k)%positive.
Proof.
  intros p k. induction k as [|k IH] using Pos.peano_ind.
  - simpl. lia.
  - rewrite Pos.iter_succ. simpl. rewrite IH. lia.
Qed.

(** A positive integer of fewer than 53 bits is a [double]: its bits, moved
    up to fill the mantissa. *)
Lemma shr_fexp_aligned : forall mz e,
    Zpos (digits2_pos mz) = 53%Z -> (-1074 <= e)%Z ->
    shr_fexp 53 1024 (Zpos mz) e loc_Exact
    = ({| shr_m := Zpos mz; shr_r := false; shr_s := false |}, e).
Proof.
  intros mz e Hmz He. unfold shr_fexp. cbn [Zdigits2 shr_record_of_loc].
  rewrite Hmz.
  replace (fexp 53 1024 (53 + e) - e)%Z with 0%Z
    by (unfold fexp, emin; lia).
  reflexivity.
Qed.

Lemma binary_round_integer : forall neg p,
    (Zpos (digits2_pos p) < 53)%Z ->
    binary_round Double.prec Double.emax neg p 0
    = S754_finite neg
        (Pos.iter xO p (Z.to_pos (53 - Zpos (digits2_pos p))))
        (Zpos (digits2_pos p) - 53).
Proof.
  intros neg p Hd.
  unfold binary_round, Double.prec, Double.emax.
  remember (Zpos (digits2_pos p)) as d eqn:Ed.
  assert (Hd0 : (0 < d)%Z) by lia.
  replace (fexp 53 1024 (d + 0)) with (d - 53)%Z
    by (unfold fexp, emin; lia).
  unfold shl_align.
  destruct (d - 53 - 0)%Z as [|q|q] eqn:Hq; try lia.
  assert (Eq : Z.to_pos (53 - d) = q) by lia. rewrite Eq.
  assert (Hmz : Zpos (digits2_pos (Pos.iter xO p q)) = 53%Z).
  { rewrite iter_xO_digits. lia. }
  unfold binary_round_aux.
  rewrite (shr_fexp_aligned _ _ Hmz) by lia.
  cbn [shr_m loc_of_shr_record round_nearest_even].
  rewrite (shr_fexp_aligned _ _ Hmz) by lia.
  cbn [shr_m].
  destruct (Z.leb_spec (d - 53) (1024 - 53)); [reflexivity|lia].
Qed.

Lemma SFltb_false : forall x y c,
    SFcompare x y = Some c -> c <> Lt -> SFltb x y = false.
Proof. intros x y c H Hc. unfold SFltb. rewrite H. now destruct c. Qed.

(** An integer of [intp_t], read as a decimal number, is not below [dmin]
    and not above [dmax]. *)
Lemma intp_within_double_limits : forall (neg : bool) (n : N),
    (if neg then (0 < Z.of_N n <= 2 ^ 31)%Z else (Z.of_N n <= 2 ^ 31 - 1)%Z) ->
    Double.lt (Double.of_decimal neg n 0) dmin = false
    /\ Double.gt (Double.of_decimal neg n 0) dmax = false.
Proof.
  intros neg n Hn. unfold Double.of_decimal.
  destruct n as [|p].
  - destruct neg; [lia|]. split; reflexivity.
  - cbn [Z.leb Z.compare]. 
    replace (Z.to_pos (Zpos p * 10 ^ 0)) with p by (simpl; lia).
    pose proof (digits2_pos_bounds p) as Hb.
    set (d := Zpos (digits2_pos p)) in *.
    assert (Hd0 : (0 < d)%Z) by (unfold d; lia).
    assert (Hd : (d <= 32)%Z).
    { destruct (Z.le_gt_cases d 32) as [|Hgt]; [assumption|exfalso].
      assert ((2 ^ 32 <= 2 ^ (d - 1))%Z) by (apply Z.pow_le_mono_r; lia).
      destruct neg; simpl in Hn; lia. }
    rewrite binary_round_integer by (fold d; lia). fold d.
    set (mz := Pos.iter xO p (Z.to_pos (53 - d))).
    assert (Hmz : Zpos mz = (Zpos p * 2 ^ (53 - d))%Z).
    { unfold mz. rewrite iter_xO_value. rewrite Z2Pos.id by lia. reflexivity. }
    unfold Double.lt, Double.gt.
    change dmin with (S754_finite true 4503599627370496 (-21)).
    change dmax with (S754_finite false 9007199250546688 (-22)).
    destruct neg.
    + split; [|reflexivity].
      destruct (Z.compare_spec (d - 53) (-21)) as [He|He|He].
      * (* 32 bits: the number is 2 ^ 31 *)
        assert (Hp : Zpos p = (2 ^ 31)%Z).
        { replace (d - 1)%Z with 31%Z in Hb by lia. simpl in Hn. lia. }
        assert (Hm : mz = 4503599627370496%positive).
        { apply Pos2Z.inj. rewrite Hmz, Hp.
          replace (53 - d)%Z with 21%Z by lia. reflexivity. }
        apply SFltb_false with Eq; [|discriminate].
        cbn [SFcompare]. rewrite Hm.
        replace (d - 53)%Z with (-21)%Z by lia. reflexivity.
      * apply SFltb_false with Gt; [|discriminate].
        cbn [SFcompare].
        destruct (Z.compare_spec (d - 53) (-21)); try lia. reflexivity.
      * lia.
    + split; [reflexivity|].
      destruct (Z.compare_spec (-22) (d - 53)) as [He|He|He].
      * (* 31 bits *)
        assert (Hle : (Zpos mz <= 9007199250546688)%Z).
        { rewrite Hmz. replace (53 - d)%Z with 22%Z by lia.
          simpl in Hn. change (2 ^ 22)%Z with 4194304%Z. lia. }
        destruct (Pos.compare_spec 9007199250546688 mz) as [Hc|Hc|Hc].
        -- apply SFltb_false with Eq; [|discriminate].
           cbn [SFcompare]. rewrite <- He. cbn [Z.compare Pos.compare].
           fold (Pos.compare 9007199250546688 mz).
           now rewrite <- Hc, Pos.compare_refl.
        -- exfalso. apply Pos2Z.pos_lt_pos in Hc. lia.
        -- apply SFltb_false with Gt; [|discriminate].
           cbn [SFcompare]. rewrite <- He. cbn [Z.compare Pos.compare].
           fold (Pos.compare 9007199250546688 mz).
           apply Pos.compare_gt_iff in Hc. now rewrite Hc.
      * exfalso.
        assert ((2 ^ 31 <= 2 ^ (d - 1))%Z) by (apply Z.pow_le_mono_r; lia).
        simpl in Hn. lia.
      * apply SFltb_false with Gt; [|discriminate].
        cbn [SFcompare].
        destruct (Z.compare_spec (-22) (d - 53)); try lia. reflexivity.
Qed.

(** ** [int2str] and back *)

Lemma string_forall_append : forall P s t,
    string_forall P (s ++ t) = string_forall P s && string_forall P t.
Proof.
  intros P. induction s as [|c s IH]; intros t; simpl.
  - reflexivity.
  - now rewrite IH, andb_assoc.
Qed.

Lemma string_forall_impl : forall (P Q : ascii -> bool) s,
    (forall c, P c = true -> Q c = true) ->
    string_forall P s = true -> string_forall Q s = true.
Proof.
  intros P Q s H. induction s as [|c s IH]; simpl; [reflexivity|].
  rewrite !andb_true_iff. intros [Hc Hs]. auto.
Qed.

Lemma string_forall_get : forall P s i c,
    string_forall P s = true -> get i s = Some c -> P c = true.
Proof.
  intros P. induction s as [|d s IH]; intros i c H Hg; simpl in *.
  - discriminate.
  - apply andb_true_iff in H. destruct H as [Hd Hs].
    destruct i; [now injection Hg as <-|now apply IH with i].
Qed.

Lemma index_mark_none : forall s,
    string_forall (fun c => negb (Ascii.eqb c "!")) s = true ->
    index 0 "!!" s = None.
Proof.
  induction s as [|c s IH]; intros H; simpl in H.
  - reflexivity.
  - apply andb_true_iff in H. destruct H as [Hc Hs].
    rewrite index_cons.
    destruct (prefix "!!" (String c s)) eqn:Hp.
    + apply prefix_mark in Hp. subst c. discriminate.
    + now rewrite IH.
Qed.

(** A string without white space is left as it is by [stripString]. *)
Lemma stripString_unspaced : forall s,
    string_forall (fun c => negb (isspace c)) s = true -> stripString s = s.
Proof.
  intros s H. unfold stripString.
  assert (Hstart : strip_start s = 0%nat).
  { destruct s as [|c s]; [reflexivity|]. simpl in *.
    apply andb_true_iff in H. destruct H as [Hc _].
    apply negb_true_iff in Hc. now rewrite Hc. }
  assert (Hend : strip_end s 0 (length s) = length s).
  { destruct (length s) as [|e] eqn:El; [reflexivity|].
    cbn [strip_end].
    destruct (get e s) as [c|] eqn:Hg.
    - apply (string_forall_get _ _ _ _ H) in Hg.
      apply negb_true_iff in Hg. rewrite Hg, andb_false_r. reflexivity.
    - rewrite andb_false_r. reflexivity. }
  rewrite Hstart, Hend, Nat.sub_0_r. now apply substring_whole.
Qed.

Lemma digit_char_is_digit : forall d,
    (d < 10)%N -> isdigit (digit_char d) = true /\ dec_digit (digit_char d) = Some d.
Proof.
  intros d H.
  assert (Hd : d = 0%N \/ d = 1%N \/ d = 2%N \/ d = 3%N \/ d = 4%N \/ d = 5%N
               \/ d = 6%N \/ d = 7%N \/ d = 8%N \/ d = 9%N) by lia.
  repeat destruct Hd as [->|Hd]; try subst d; split; reflexivity.
Qed.

Lemma utoa_loop_append : forall fuel n s rest,
    utoa_loop fuel n s ++ rest = utoa_loop fuel n (s ++ rest).
Proof.
  induction fuel as [|fuel IH]; intros n s rest; simpl.
  - reflexivity.
  - destruct (n / 10 =? 0)%N; [reflexivity|]. now rewrite IH.
Qed.

Lemma utoa_loop_digits : forall fuel n s,
    string_forall isdigit s = true ->
    string_forall isdigit (utoa_loop fuel n s) = true.
Proof.
  induction fuel as [|fuel IH]; intros n s H; simpl.
  - exact H.
  - assert (Hd : isdigit (digit_char (n mod 10)) = true).
    { apply digit_char_is_digit. apply N.mod_lt. discriminate. }
    destruct (n / 10 =? 0)%N.
    + simpl. now rewrite Hd.
    + apply IH. simpl. now rewrite Hd.
Qed.

Lemma utoa_loop_length : forall fuel n s,
    (length (utoa_loop fuel n s) <= fuel + length s)%nat.
Proof.
  induction fuel as [|fuel IH]; intros n s; simpl.
  - lia.
  - destruct (n / 10 =? 0)%N; simpl; [lia|].
    specialize (IH (n / 10)%N (String (digit_char (n mod 10)) s)).
    simpl in IH. lia.
Qed.

Lemma utoa_loop_nonempty : forall fuel n s,
    exists c t, utoa_loop (S fuel) n s = String c t.
Proof.
  induction fuel as [|fuel IH]; intros n s.
  - simpl. destruct (n / 10 =? 0)%N; eauto.
  - cbn [utoa_loop]. destruct (n / 10 =? 0)%N; [eauto|].
    apply IH.
Qed.

Lemma utoa_loop_S : forall fuel n s,
    utoa_loop (S fuel) n s
    = if (n / 10 =? 0)%N then String (digit_char (n mod 10)) s
      else utoa_loop fuel (n / 10) (String (digit_char (n mod 10)) s).
Proof. reflexivity. Qed.

(** Scanning the digits written by the division loop gives the number back,
    when the loop had turns enough. *)
Lemma scan_utoa_loop : forall fuel n s acc count,
    (n < 2 ^ N.of_nat (S fuel))%N ->
    exists k,
      scan_number dec_digit 10 (utoa_loop (S fuel) n s) acc count
      = scan_number dec_digit 10 s (acc * 10 ^ N.of_nat (S k) + n)%N
                    (count + S k).
Proof.
  induction fuel as [|fuel IH]; intros n s acc count Hn;
    rewrite utoa_loop_S;
    pose proof (digit_char_is_digit (n mod 10)
                  ltac:(apply N.mod_lt; discriminate)) as [_ Hdig];
    pose proof (N.div_mod n 10 ltac:(discriminate)) as Hdm;
    destruct (N.eqb_spec (n / 10) 0) as [Hz|Hnz].
  - exists 0%nat. cbn [scan_number]. rewrite Hdig.
    f_equal; [|lia]. rewrite Hz in Hdm. change (10 ^ N.of_nat 1)%N with 10%N.
    lia.
  - exfalso. apply Hnz. apply N.div_small.
    change (2 ^ N.of_nat 1)%N with 2%N in Hn. lia.
  - exists 0%nat. cbn [scan_number]. rewrite Hdig.
    f_equal; [|lia]. rewrite Hz in Hdm. change (10 ^ N.of_nat 1)%N with 10%N.
    lia.
  - assert (Hsmall : (n / 10 < 2 ^ N.of_nat (S fuel))%N).
    { rewrite (Nat2N.inj_succ (S fuel)), N.pow_succ_r' in Hn.
      apply N.Div0.div_lt_upper_bound. lia. }
    destruct (IH (n / 10)%N (String (digit_char (n mod 10)) s) acc count
                Hsmall) as [k Hk].
    exists (S k). rewrite Hk. cbn [scan_number]. rewrite Hdig.
    f_equal; [|lia].
    rewrite (Nat2N.inj_succ (S k)), N.pow_succ_r'. lia.
Qed.

Lemma utoa_fuel : forall n, (n < 2 ^ N.of_nat (S (N.to_nat (N.log2 n))))%N.
Proof.
  intros n. rewrite Nat2N.inj_succ, N2Nat.id.
  destruct n as [|p]; [reflexivity|].
  apply N.log2_spec. reflexivity.
Qed.

Lemma scan_utoa : forall n rest acc count,
    exists k,
      scan_number dec_digit 10 (utoa n ++ rest) acc count
      = scan_number dec_digit 10 rest (acc * 10 ^ N.of_nat (S k) + n)%N
                    (count + S k).
Proof.
  intros n rest acc count. unfold utoa. rewrite utoa_loop_append.
  apply scan_utoa_loop, utoa_fuel.
Qed.

Lemma utoa_digits : forall n, string_forall isdigit (utoa n) = true.
Proof. intros n. now apply utoa_loop_digits. Qed.

Lemma utoa_nonempty : forall n, exists c t, utoa n = String c t.
Proof. intros n. apply utoa_loop_nonempty. Qed.

Lemma utoa_length : forall n,
    (n <= 2 ^ 31)%N -> (length (utoa n) <= 32)%nat.
Proof.
  intros n H. unfold utoa.
  pose proof (utoa_loop_length (S (N.to_nat (N.log2 n))) n "") as Hl.
  change (length "") with 0%nat in Hl.
  assert (Hlog : (N.log2 n <= 31)%N).
  { change 31%N with (N.log2 (2 ^ 31)). now apply N.log2_le_mono. }
  lia.
Qed.

(** The ten digits. *)
Lemma isdigit_cases : forall c,
    isdigit c = true ->
    c = "0"%char \/ c = "1"%char \/ c = "2"%char \/ c = "3"%char
    \/ c = "4"%char \/ c = "5"%char \/ c = "6"%char \/ c = "7"%char
    \/ c = "8"%char \/ c = "9"%char.
Proof.
  intros c H.
  destruct c as [[] [] [] [] [] [] [] []]; try discriminate H; tauto.
Qed.

Lemma format_d_text : forall i,
    format_d i = Double.sign_text (i <? 0)%Z ++ utoa (Z.to_N (Z.abs i)).
Proof.
  intros i. unfold format_d.
  destruct (Z.ltb_spec i 0).
  - simpl. do 2 f_equal. lia.
  - simpl. do 2 f_equal. lia.
Qed.

(** [int2str] of an [intp_t] fits its buffer. *)
Lemma int2str_text : forall i,
    is_intp i ->
    int2str i = Double.sign_text (i <? 0)%Z ++ utoa (Z.to_N (Z.abs i)).
Proof.
  intros i [Hlo Hhi]. unfold int2str, snprintf_store.
  rewrite format_d_text. apply substring_whole.
  rewrite length_append.
  pose proof (utoa_length (Z.to_N (Z.abs i))) as Hl.
  unfold int_min, int_max in *.
  assert (Z.to_N (Z.abs i) <= 2 ^ 31)%N.
  { change (2 ^ 31)%N with (Z.to_N (2 ^ 31)). apply Z2N.inj_le; lia. }
  destruct (i <? 0)%Z; simpl; lia.
Qed.

Lemma scan_number_sentinel : forall acc count,
    scan_number dec_digit 10 sentinel acc count = (acc, count, sentinel).
Proof. reflexivity. Qed.

(** After the sign, a text that begins with a decimal digit is converted as
    a decimal number, unless a [0] is followed by [x]. *)
Lemma strtod_decimal : forall nptr neg c t,
    scan_sign (skip_space nptr) = (neg, String c t) ->
    isdigit c = true ->
    (forall x t', t = String x t' -> isdigit x = true) ->
    Double.strtod nptr = Double.scan_decimal neg (String c t).
Proof.
  intros nptr neg c t Hsign Hc Ht. unfold Double.strtod.
  rewrite Hsign.
  destruct t as [|x t'].
  - destruct (isdigit_cases c Hc) as [H|H];
      repeat (destruct H as [H|H]); subst c; reflexivity.
  - pose proof (Ht x t' eq_refl) as Hx.
    destruct (isdigit_cases c Hc) as [H|H];
      repeat (destruct H as [H|H]); subst c; try reflexivity;
      destruct (isdigit_cases x Hx) as [H|H];
      repeat (destruct H as [H|H]); subst x; reflexivity.
Qed.

Lemma scan_sign_digit : forall c t,
    isdigit c = true ->
    scan_sign (skip_space (String c t)) = (false, String c t).
Proof.
  intros c t Hc.
  destruct (isdigit_cases c Hc) as [H|H];
    repeat (destruct H as [H|H]); subst c; reflexivity.
Qed.

(** The loop takes digits as long as there are any, and stops at the
    sentinel. *)
Lemma collect_number_digits :
  forall digits hexa got_digit got_dot got_e buffer,
    string_forall isdigit digits = true ->
    Double.collect_number hexa got_digit got_dot got_e buffer
                          (digits ++ sentinel)
    = (buffer ++ digits, sentinel).
Proof.
  induction digits as [|c t IH];
    intros hexa got_digit got_dot got_e buffer Hd.
  - cbn [append]. rewrite append_nil_r.
    destruct hexa, got_digit, got_dot, got_e; cbn;
      try reflexivity;
      destruct (Double.last_is buffer _); reflexivity.
  - simpl in Hd. apply andb_true_iff in Hd. destruct Hd as [Hc Ht].
    cbn [append Double.collect_number]. rewrite Hc.
    rewrite (IH hexa true got_dot got_e (Double.add buffer c) Ht).
    unfold Double.add. now rewrite append_assoc.
Qed.

(** The digits of a number behind its sign are all collected. *)
Lemma collect_digits : forall (neg : bool) c t,
    isdigit c = true ->
    string_forall isdigit t = true ->
    Double.collect (Double.sign_text neg ++ String c t ++ sentinel)
    = Some (Double.sign_text neg ++ String c t, sentinel).
Proof.
  intros neg c t Hc Ht.
  assert (Hsign : Double.collect_sign
                    (Double.sign_text neg ++ String c t ++ sentinel)
                  = (Double.sign_text neg, String c t ++ sentinel)).
  { destruct neg; [reflexivity|]. cbn [Double.sign_text append].
    destruct (isdigit_cases c Hc) as [H|H];
      repeat (destruct H as [H|H]); subst c; reflexivity. }
  assert (Hword : Ascii.eqb (tolower c) "n" = false
                  /\ Ascii.eqb (tolower c) "i" = false).
  { destruct (isdigit_cases c Hc) as [H|H];
      repeat (destruct H as [H|H]); subst c; split; reflexivity. }
  assert (Hprefix :
            exists got_digit buffer rest,
              Double.collect_prefix (Double.sign_text neg)
                                    (String c t ++ sentinel)
              = (false, got_digit, buffer, rest ++ sentinel)
              /\ buffer ++ rest = Double.sign_text neg ++ String c t
              /\ string_forall isdigit rest = true).
  { unfold Double.collect_prefix. cbn [append].
    destruct (Ascii.eqb c "0") eqn:E0.
    - destruct t as [|x t'].
      + exists true, (Double.add (Double.sign_text neg) c), "".
        repeat split. unfold Double.add. now rewrite append_nil_r.
      + cbn [append]. simpl in Ht. apply andb_true_iff in Ht.
        destruct Ht as [Hx Ht'].
        assert (Ex : Ascii.eqb (tolower x) "x" = false).
        { destruct (isdigit_cases x Hx) as [H|H];
            repeat (destruct H as [H|H]); subst x; reflexivity. }
        rewrite Ex.
        exists true, (Double.add (Double.sign_text neg) c), (String x t').
        repeat split.
        * unfold Double.add. now rewrite append_assoc.
        * simpl. now rewrite Hx, Ht'.
    - exists false, (Double.sign_text neg), (String c t).
      repeat split. simpl. now rewrite Hc, Ht. }
  destruct Hword as [Hn Hi].
  destruct Hprefix as (got_digit & buffer & rest & Hp & Hall & Hrest).
  unfold Double.collect. rewrite Hsign. cbn [append]. rewrite Hn, Hi.
  change (String c (t ++ sentinel)) with (String c t ++ sentinel).
  rewrite Hp, (collect_number_digits rest false got_digit false false buffer
                 Hrest), Hall.
  replace (length (Double.sign_text neg ++ String c t)
           =? length (Double.sign_text neg))%nat with false.
  - reflexivity.
  - symmetry. apply Nat.eqb_neq. rewrite length_append. simpl. lia.
Qed.

(** What [sscanf] reads from the text of ["%d"] followed by the sentinel. *)
Lemma scan_text_of_number : forall (neg : bool) (n : N),
    Double.scan_double (Double.sign_text neg ++ utoa n ++ sentinel)
    = Some (Double.of_decimal neg n 0, sentinel)
    /\ Scanf.scan_int (Double.sign_text neg ++ utoa n ++ sentinel)
       = Some (wrap_int (Scanf.strtol_value
                           (if neg then - Z.of_N n else Z.of_N n)),
               sentinel).
Proof.
  intros neg n.
  destruct (utoa_nonempty n) as (c & t & Hu).
  pose proof (utoa_digits n) as Hd. rewrite Hu in Hd. simpl in Hd.
  apply andb_true_iff in Hd. destruct Hd as [Hc Ht].
  assert (Hspace : forall rest,
             skip_space (Double.sign_text neg ++ String c t ++ rest)
             = Double.sign_text neg ++ String c t ++ rest).
  { intros rest. destruct neg; [reflexivity|]. cbn [Double.sign_text append].
    destruct (isdigit_cases c Hc) as [H|H];
      repeat (destruct H as [H|H]); subst c; reflexivity. }
  assert (Hsign : forall rest,
             scan_sign (skip_space (Double.sign_text neg ++ String c t
                                                        ++ rest))
             = (neg, String c (t ++ rest))).
  { intros rest. destruct neg; cbn [Double.sign_text append].
    - pose proof (scan_sign_digit c (t ++ rest) Hc) as H.
      reflexivity.
    - now apply scan_sign_digit. }
  split.
  - unfold Double.scan_double. rewrite Hu, Hspace, (collect_digits neg c t Hc Ht).
    pose proof (Hsign "") as Hs. rewrite !append_nil_r in Hs.
    rewrite (strtod_decimal _ neg c t Hs Hc).
    + destruct (scan_utoa n "" 0%N 0%nat) as [k Hk].
      rewrite append_nil_r, N.mul_0_l, N.add_0_l in Hk.
      rewrite <- Hu. unfold Double.scan_decimal, Double.scan_mantissa.
      rewrite Hk. reflexivity.
    + intros x t' E. subst t. simpl in Ht.
      now apply andb_true_iff in Ht.
  - destruct (scan_utoa n sentinel 0%N 0%nat) as [k Hk].
    rewrite scan_number_sentinel in Hk. rewrite N.mul_0_l, N.add_0_l in Hk.
    unfold Scanf.scan_int. rewrite Hu, Hsign.
    change (String c (t ++ sentinel)) with (String c t ++ sentinel).
    rewrite <- Hu, Hk. reflexivity.
Qed.

Lemma wrap_int_intp : forall i, is_intp i -> wrap_int i = i.
Proof.
  intros i [Hlo Hhi]. unfold wrap_int, int_min, int_max in *.
  rewrite Z.mod_small; lia.
Qed.

Lemma strtol_value_intp : forall i, is_intp i -> Scanf.strtol_value i = i.
Proof.
  intros i [Hlo Hhi].
  unfold Scanf.strtol_value, Scanf.long_min, Scanf.long_max,
    int_min, int_max in *.
  lia.
Qed.

Lemma no_mark_in_number : forall neg n,
    string_forall (fun c => negb (Ascii.eqb c "!") && negb (isspace c))
                  (Double.sign_text neg ++ utoa n) = true.
Proof.
  intros neg n. rewrite string_forall_append.
  apply andb_true_iff. split.
  - destruct neg; reflexivity.
  - apply string_forall_impl with isdigit; [|apply utoa_digits].
    intros c Hc.
    destruct (isdigit_cases c Hc) as [H|H];
      repeat (destruct H as [H|H]); subst c; reflexivity.
Qed.

(** C6. For every integer of [intp_t], [str2int] on the text written by
    [int2str] returns true with that integer. *)
Theorem str2int_int2str :
  forall i : Z, is_intp i -> str2int (int2str i) = Some i.
Proof.
  intros i Hi. rewrite (int2str_text i Hi).
  set (neg := (i <? 0)%Z). set (n := Z.to_N (Z.abs i)).
  pose proof (no_mark_in_number neg n) as Hclean.
  assert (Hidx : index 0 "!!" (Double.sign_text neg ++ utoa n) = None).
  { apply index_mark_none.
    apply string_forall_impl with (2 := Hclean).
    intros c Hc. now apply andb_true_iff in Hc. }
  assert (Hstrip : stripString (Double.sign_text neg ++ utoa n)
                   = Double.sign_text neg ++ utoa n).
  { apply stripString_unspaced.
    apply string_forall_impl with (2 := Hclean).
    intros c Hc. now apply andb_true_iff in Hc. }
  destruct (scan_text_of_number neg n) as [Hreal Hint].
  rewrite <- append_assoc in Hreal, Hint.
  assert (Hvalue : (if neg then - Z.of_N n else Z.of_N n)%Z = i).
  { unfold neg, n. destruct (Z.ltb_spec i 0); lia. }
  assert (Hbound : if neg then (0 < Z.of_N n <= 2 ^ 31)%Z
                   else (Z.of_N n <= 2 ^ 31 - 1)%Z).
  { destruct Hi as [Hlo Hhi]. unfold int_min, int_max in *.
    unfold neg, n. destruct (Z.ltb_spec i 0); lia. }
  destruct (intp_within_double_limits neg n Hbound) as [Hlt Hgt].
  apply str2int_verdict.
  exists (Double.of_decimal neg n 0). repeat split; auto.
  - apply str2real_verdict. rewrite Hstrip. auto.
  - rewrite Hstrip, Hint, Hvalue.
    now rewrite (strtol_value_intp i Hi), wrap_int_intp.
Qed.

(** ** The sentinel is not read by any conversion

    A text continued by [!] is read as the text alone is: the mark is no
    white space, sign, digit, point, exponent letter, or part of a word. *)

Section Continued.

Variable u' : string.
Local Abbreviation u := (String "!" u').











End Continued.



(** ** Base-10 floating literals are numbers for ["%lf"] *)



















Lemma str2int_int2str_witness :
  str2int (int2str (-2147483648)) = Some (-2147483648)%Z
  /\ str2int (int2str 2147483647) = Some 2147483647%Z
  /\ str2int (int2str 0) = Some 0%Z.
Proof.
  split; [|split].
  - apply (str2int_int2str (-2147483648)). split; discriminate.
  - apply (str2int_int2str 2147483647). split; discriminate.
  - apply (str2int_int2str 0). split; discriminate.
Defined.

(** ** The range check *)

Lemma SFcompare_antisym : forall a b c,
    SFcompare a b = Some c -> SFcompare b a = Some (CompOpp c).
Proof.
  intros a b c H.
  destruct a as [sa|sa| |sa ma ea], b as [sb|sb| |sb mb eb];
    simpl in *; try discriminate;
    try (injection H as <-; destruct sa; try destruct sb; reflexivity).
  injection H as <-.
  destruct sa, sb; try reflexivity.
  - rewrite (Z.compare_antisym ea eb).
    destruct (ea ?= eb)%Z; simpl; try reflexivity.
    now rewrite (Pos.compare_cont_antisym ma mb Eq).
  - rewrite (Z.compare_antisym ea eb).
    destruct (ea ?= eb)%Z; simpl; try reflexivity.
    now rewrite (Pos.compare_cont_antisym ma mb Eq).
Qed.

(** Two [double]s that compare equal compare alike with any third. *)
Lemma SFcompare_eq_left : forall a b x,
    SFcompare a b = Some Eq -> SFcompare a x = SFcompare b x.
Proof.
  intros a b x H.
  destruct a as [sa|sa| |sa ma ea], b as [sb|sb| |sb mb eb];
    simpl in H; try discriminate;
    try (destruct sa, sb; discriminate).
  - destruct x; reflexivity.
  - destruct sa, sb; try discriminate; reflexivity.
  - destruct sa, sb; try discriminate;
      destruct (ea ?= eb)%Z eqn:He; try discriminate;
      apply Z.compare_eq in He; subst eb.
    + assert (ma = mb).
      { apply Pos.compare_eq.
        injection H as H. unfold Pos.compare.
        destruct (Pos.compare_cont Eq ma mb); simpl in H; congruence. }
      now subst mb.
    + assert (ma = mb).
      { apply Pos.compare_eq. injection H as H. exact H. }
      now subst mb.
Qed.

Lemma double_boundary_passes : forall r lo hi,
    SFleb lo hi = true ->
    Double.eq r lo = true \/ Double.eq r hi = true ->
    Double.lt r lo = false /\ Double.gt r hi = false.
Proof.
  intros r lo hi Hle Hr. unfold Double.eq, Double.lt, Double.gt in *.
  unfold SFeqb, SFltb, SFleb in *.
  destruct Hr as [Hr|Hr].
  - destruct (SFcompare r lo) as [[]|] eqn:E; try discriminate.
    split; [reflexivity|].
    rewrite <- (SFcompare_eq_left r lo hi E) in Hle.
    destruct (SFcompare r hi) as [c|] eqn:E2; [|discriminate].
    rewrite (SFcompare_antisym _ _ _ E2).
    destruct c; try discriminate; reflexivity.
  - destruct (SFcompare r hi) as [[]|] eqn:E; try discriminate.
    rewrite (SFcompare_antisym _ _ _ E). split; [|reflexivity].
    destruct (SFcompare lo hi) as [c|] eqn:E2; [|discriminate].
    apply SFcompare_antisym in E2.
    rewrite <- (SFcompare_eq_left r hi lo E) in E2.
    rewrite E2. destruct c; try discriminate; reflexivity.
Qed.

Lemma utoa_loop_length_tight : forall fuel n s k,
    (n < 10 ^ N.of_nat (S k))%N ->
    (length (utoa_loop fuel n s) <= S k + length s)%nat.
Proof.
  induction fuel as [|fuel IH]; intros n s k Hn.
  - simpl. lia.
  - rewrite utoa_loop_S.
    destruct (N.eqb_spec (n / 10) 0) as [Hz|Hnz]; [simpl; lia|].
    destruct k as [|k].
    + exfalso. apply Hnz. apply N.div_small. exact Hn.
    + assert (Hsmall : (n / 10 < 10 ^ N.of_nat (S k))%N).
      { rewrite (Nat2N.inj_succ (S k)), N.pow_succ_r' in Hn.
        apply N.Div0.div_lt_upper_bound. exact Hn. }
      specialize (IH (n / 10)%N (String (digit_char (n mod 10)) s) k Hsmall).
      simpl in IH. lia.
Qed.

(** The text of an [intp_t] has eleven characters at most. *)
Lemma int2str_short : forall i, is_intp i -> (length (int2str i) <= 11)%nat.
Proof.
  intros i Hi. rewrite (int2str_text i Hi), length_append.
  pose proof (utoa_loop_length_tight
                (S (N.to_nat (N.log2 (Z.to_N (Z.abs i)))))
                (Z.to_N (Z.abs i)) "" 9) as Hl.
  fold (utoa (Z.to_N (Z.abs i))) in Hl.
  destruct Hi as [Hlo Hhi]. unfold int_min, int_max in *.
  assert (Hn : (Z.to_N (Z.abs i) < 10 ^ N.of_nat 10)%N).
  { change (10 ^ N.of_nat 10)%N with (Z.to_N (10 ^ 10)).
    apply Z2N.inj_lt; lia. }
  specialize (Hl Hn). simpl length in Hl.
  destruct (i <? 0)%Z; simpl; lia.
Qed.

(** A turn that fails makes [process] return false with the turn's message. *)
Lemma failing_turn :
  forall getenv iteration specList arguments (skipProgramName : bool) theMap
         st arg rest message,
    m_specListOkay (fst (new_Parsley specList)) = true ->
    seed_all getenv specList [] = inr theMap ->
    Reaches specList (initial_state theMap)
            (if skipProgramName then tl arguments else arguments)
            st (arg :: rest) ->
    scan_step specList st arg (hd_error rest) = StepFail message ->
    process getenv iteration (fst (new_Parsley specList))
            arguments skipProgramName
    = Failure message.
Proof.
  intros getenv iteration specList arguments skipProgramName theMap
         st arg rest message Hok Hseed Hreach Hstep.
  unfold process. rewrite new_Parsley_specList, Hok, Hseed. cbn [negb].
  rewrite (Reaches_scan _ _ _ _ _ Hreach).
  cbn [scan]. now rewrite Hstep.
Qed.

(** The turn of an option, as far as the [switch] over its kind. *)
Lemma option_turn_step : forall specList st arg next spec value,
    option_turn st arg ->
    select_spec specList arg = inr (Some spec) ->
    map_find (values st) (m_longName spec) = Some value ->
    m_alreadySpecified value = false ->
    scan_step specList st arg next
    = match apply_option spec (with_alreadySpecified true value) next with
      | inl message => StepFail message
      | inr (value', advanced) =>
          if m_isSingleton spec then StepReturn (stored st spec value')
          else StepContinue (stored st spec value') advanced
      end.
Proof.
  intros specList st arg next spec value (Hc & Hterm & Hpar) Hsel Hfind Hdup.
  unfold scan_step, recognise, stored.
  rewrite Hc, Hterm, Hpar, Hsel, Hfind, Hdup.
  destruct (apply_option spec (with_alreadySpecified true value) next)
    as [message|[value' advanced]]; reflexivity.
Qed.

Lemma range_int : forall spec,
    m_kind spec = kInt -> m_rangeIsDefined spec = true ->
    is_intp (m_minIntValue spec) -> is_intp (m_maxIntValue spec) ->
    range spec
    = int2str (m_minIntValue spec) ++ " to " ++ int2str (m_maxIntValue spec).
Proof.
  intros spec K R Hlo Hhi. unfold range. rewrite K, R. cbn.
  unfold snprintf_store. apply substring_whole.
  rewrite !length_append.
  pose proof (int2str_short _ Hlo). pose proof (int2str_short _ Hhi).
  simpl. lia.
Qed.

Lemma range_real : forall spec,
    m_kind spec = kReal -> m_rangeIsDefined spec = true ->
    (length (real2str (m_minRealValue spec) ++ " to "
             ++ real2str (m_maxRealValue spec)) <= 39)%nat ->
    range spec
    = real2str (m_minRealValue spec) ++ " to "
      ++ real2str (m_maxRealValue spec).
Proof.
  intros spec K R Hfit. unfold range. rewrite K, R. cbn.
  unfold snprintf_store. now apply substring_whole.
Qed.

(** The range check of [process]. In the turn of an Integer or Real option
    with a range, a value equal to the minimum or to the maximum is accepted
    when the minimum is not above the maximum; a value below the minimum or
    above the maximum makes [process] return false, with a message that ends
    in the text of [range ()]. That text is "min to max" for every Integer
    option, and for a Real option when it fits the buffer of [range ()]. *)
Theorem range_check :
  forall (getenv : string -> option string) (iteration : MapType -> MapType)
         (specList : list OptionSpec) (arguments : list string)
         (skipProgramName : bool) (theMap : MapType) (st : ScanState)
         (arg argValue : string) (rest : list string)
         (spec : OptionSpec) (value : ProxyValue),
    m_specListOkay (fst (new_Parsley specList)) = true ->
    seed_all getenv specList [] = inr theMap ->
    Reaches specList (initial_state theMap)
            (if skipProgramName then tl arguments else arguments)
            st (arg :: argValue :: rest) ->
    option_turn st arg ->
    select_spec specList arg = inr (Some spec) ->
    map_find (values st) (m_longName spec) = Some value ->
    m_alreadySpecified value = false ->
    m_rangeIsDefined spec = true ->
    (m_kind spec = kInt ->
     forall i, str2int argValue = Some i ->
       ((m_minIntValue spec <= m_maxIntValue spec)%Z ->
        i = m_minIntValue spec \/ i = m_maxIntValue spec ->
        scan_step specList st arg (Some argValue)
        = accepted spec
            (stored st spec
               (with_isDefined true
                  (with_ival i (with_alreadySpecified true value)))))
       /\ ((i < m_minIntValue spec \/ m_maxIntValue spec < i)%Z ->
           process getenv iteration (fst (new_Parsley specList))
                   arguments skipProgramName
           = Failure ("invalid value for " ++ name spec ++ " : "
                      ++ int2str i ++ " is out of range " ++ range spec
                      ++ "."))
       /\ (is_intp (m_minIntValue spec) -> is_intp (m_maxIntValue spec) ->
           range spec = int2str (m_minIntValue spec) ++ " to "
                        ++ int2str (m_maxIntValue spec)))
    /\ (m_kind spec = kReal ->
        forall r, str2real argValue = Some r ->
          (SFleb (m_minRealValue spec) (m_maxRealValue spec) = true ->
           Double.eq r (m_minRealValue spec) = true
           \/ Double.eq r (m_maxRealValue spec) = true ->
           scan_step specList st arg (Some argValue)
           = accepted spec
               (stored st spec
                  (with_isDefined true
                     (with_real r (with_alreadySpecified true value)))))
          /\ (Double.lt r (m_minRealValue spec) = true
              \/ Double.gt r (m_maxRealValue spec) = true ->
              process getenv iteration (fst (new_Parsley specList))
                      arguments skipProgramName
              = Failure ("invalid value for " ++ name spec ++ " : "
                         ++ real2str r ++ " is out of range " ++ range spec
                         ++ "."))
          /\ ((length (real2str (m_minRealValue spec) ++ " to "
                       ++ real2str (m_maxRealValue spec)) <= 39)%nat ->
              range spec = real2str (m_minRealValue spec) ++ " to "
                           ++ real2str (m_maxRealValue spec))).
Proof.
  intros getenv iteration specList arguments skipProgramName theMap st
         arg argValue rest spec value Hok Hseed Hreach Hturn Hsel Hfind Hdup
         Hrange.
  pose proof (option_turn_step specList st arg (Some argValue) spec value
                Hturn Hsel Hfind Hdup) as Hstep.
  split.
  - intros K i Hi. unfold apply_option in Hstep.
    rewrite K in Hstep. cbn [CHECK_ARGUMENT] in Hstep.
    rewrite Hi, Hrange in Hstep. cbn [andb ival with_ival] in Hstep.
    split; [|split].
    + intros Hle Hb. rewrite Hstep.
      replace ((i <? m_minIntValue spec)%Z || (i >? m_maxIntValue spec)%Z)
        with false; [reflexivity|].
      symmetry. apply orb_false_iff. split; [lia|].
      rewrite Z.gtb_ltb. lia.
    + intros Hout.
      apply (failing_turn getenv iteration specList arguments skipProgramName
               theMap st arg (argValue :: rest) _ Hok Hseed Hreach).
      cbn [hd_error]. rewrite Hstep.
      replace ((i <? m_minIntValue spec)%Z || (i >? m_maxIntValue spec)%Z)
        with true; [reflexivity|].
      symmetry. apply orb_true_iff. rewrite Z.gtb_ltb. lia.
    + now apply range_int.
  - intros K r Hr. unfold apply_option in Hstep.
    rewrite K in Hstep. cbn [CHECK_ARGUMENT] in Hstep.
    rewrite Hr, Hrange in Hstep. cbn [andb real with_real] in Hstep.
    split; [|split].
    + intros Hle Hb. rewrite Hstep.
      destruct (double_boundary_passes r _ _ Hle Hb) as [-> ->].
      reflexivity.
    + intros Hout.
      apply (failing_turn getenv iteration specList arguments skipProgramName
               theMap st arg (argValue :: rest) _ Hok Hseed Hreach).
      cbn [hd_error]. rewrite Hstep.
      replace (Double.lt r (m_minRealValue spec)
               || Double.gt r (m_maxRealValue spec)) with true; [reflexivity|].
      symmetry. now apply orb_true_iff.
    + now apply range_real.
Qed.

Lemma range_check_witness :
  process no_environment insertion_order (fst (new_Parsley [count_1_to_10]))
          ["prog"; "--count"; "15"] true
  = Failure "invalid value for -c, --count : 15 is out of range 1 to 10."
  /\ scan_step [count_1_to_10] (initial_state [("count", count_seeded)])
               "--count" (Some "10")
     = StepContinue
         (stored (initial_state [("count", count_seeded)]) count_1_to_10
                 (with_isDefined true
                    (with_ival 10 (with_alreadySpecified true count_seeded))))
         true.
Proof.
  split.
  - refine (proj1 (proj2 (proj1 (range_check
              no_environment insertion_order [count_1_to_10]
              ["prog"; "--count"; "15"] true
              [("count", count_seeded)]
              (initial_state [("count", count_seeded)])
              "--count" "15" [] count_1_to_10 count_seeded
              _ _ _ _ _ _ _ _) eq_refl 15%Z _)) _).
    + reflexivity.
    + reflexivity.
    + apply Reaches_here.
    + repeat split.
    + reflexivity.
    + reflexivity.
    + reflexivity.
    + reflexivity.
    + vm_compute. reflexivity.
    + right. reflexivity.
  - refine (proj1 (proj1 (range_check
              no_environment insertion_order [count_1_to_10]
              ["prog"; "--count"; "10"] true
              [("count", count_seeded)]
              (initial_state [("count", count_seeded)])
              "--count" "10" [] count_1_to_10 count_seeded
              _ _ _ _ _ _ _ _) eq_refl 10%Z _) _ _).
    + reflexivity.
    + reflexivity.
    + apply Reaches_here.
    + repeat split.
    + reflexivity.
    + reflexivity.
    + reflexivity.
    + reflexivity.
    + vm_compute. reflexivity.
    + simpl. lia.
    + right. reflexivity.
Defined.

(** C4. The message for a Real value out of range does not always state the
    range. [range ()] formats "min to max" into a buffer of 40 characters,
    which holds 39 of them, and the bounds of a Real option can take more:
    with the range 1e20 to 1e21 the value 5 is refused by a message that
    gives 100000000000 for the maximum, 1000000000000000000000.0. *)
Theorem range_message_is_cut :
  real2str double_1e20 = "100000000000000000000.0"
  /\ real2str double_1e21 = "1000000000000000000000.0"
  /\ range (fst (realRange double_1e20 double_1e21
                           (realSpec "ratio" "r" "" false)))
     = "100000000000000000000.0 to 100000000000"
  /\ process no_environment insertion_order
             (fst (new_Parsley
                     [fst (realRange double_1e20 double_1e21
                                     (realSpec "ratio" "r" "" false))]))
             ["prog"; "-r"; "5"] true
     = Failure ("invalid value for -r, --ratio : 5.0 is out of range "
                ++ "100000000000000000000.0 to 100000000000.").
Proof. repeat split; vm_compute; reflexivity. Qed.

(** ** More on the constructor *)

Lemma check_against_warns : forall specList specA skip count state,
    (fst state = true <-> snd state = []) ->
    (fst (check_against specA skip specList count state) = true
     <-> snd (check_against specA skip specList count state) = []).
Proof.
  induction specList as [|specB rest IH]; intros specA skip count state H.
  - exact H.
  - cbn [check_against]. destruct (S count <=? skip)%nat; [now apply IH|].
    destruct (conflicting specA specB); [|now apply IH].
    apply IH. cbn [fst snd]. split; [discriminate|].
    intros E. destruct (snd state); discriminate.
Qed.

Lemma check_duplicates_warns : forall outer specList skip state,
    (fst state = true <-> snd state = []) ->
    (fst (check_duplicates outer specList skip state) = true
     <-> snd (check_duplicates outer specList skip state) = []).
Proof.
  induction outer as [|specA rest IH]; intros specList skip state H.
  - exact H.
  - cbn [check_duplicates]. apply IH. now apply check_against_warns.
Qed.

(** X1. The constructor keeps the list as given and sets the defaults of the
    help layout; the registry is valid exactly when no specification
    conflicts with a later one, and exactly then no warning is written. *)
Theorem registry_valid_iff_conflict_free :
  forall specList : list OptionSpec,
    m_specList (fst (new_Parsley specList)) = specList
    /\ m_cpl (fst (new_Parsley specList)) = 92%Z
    /\ (m_specListOkay (fst (new_Parsley specList)) = true
        <-> conflict_free specList)
    /\ (m_specListOkay (fst (new_Parsley specList)) = true
        <-> snd (new_Parsley specList) = []).
Proof.
  intros specList. split; [apply new_Parsley_specList|].
  split; [|split].
  - unfold new_Parsley.
    destruct (check_duplicates specList specList 0 (true, [])). reflexivity.
  - apply specListOkay_iff.
  - pose proof (check_duplicates_warns specList specList 0 (true, [])
                  ltac:(cbn; tauto)) as H.
    unfold new_Parsley.
    destruct (check_duplicates specList specList 0 (true, [])) as [ok w].
    exact H.
Qed.

Lemma registry_valid_iff_conflict_free_witness :
  conflict_free [help; version; strSpec "name" "n" "" true].
Proof.
  apply (proj1 (proj1 (proj2 (proj2 (registry_valid_iff_conflict_free
                                       [help; version;
                                        strSpec "name" "n" "" true]))))).
  reflexivity.
Defined.

(** ** More on the loop over the arguments *)

Lemma apply_option_alreadySpecified : forall spec value next value' advanced,
    apply_option spec value next = inr (value', advanced) ->
    m_alreadySpecified value' = m_alreadySpecified value.
Proof.
  intros spec value next value' advanced H. unfold apply_option in H.
  destruct (m_kind spec);
    repeat match type of H with
           | context [match ?x with _ => _ end] => destruct x
           | context [if ?x then _ else _] => destruct x
           end;
    try discriminate; injection H as <- <-; auto.
Qed.

Lemma Reaches_trans : forall specList st args st1 args1 st2 args2,
    Reaches specList st args st1 args1 ->
    Reaches specList st1 args1 st2 args2 ->
    Reaches specList st args st2 args2.
Proof.
  intros specList st args st1 args1 st2 args2 H. induction H; intros H2.
  - exact H2.
  - eapply Reaches_turn; eauto.
  - eapply Reaches_turn_with_argument; eauto.
Qed.

(** What [recognise] has done when it comes back with a specification. *)
Lemma recognise_stores : forall specList st arg next spec st' advanced,
    recognise specList st arg next = inr (spec, st', advanced) ->
    select_spec specList arg = inr (Some spec)
    /\ exists old value,
        map_find (values st) (m_longName spec) = Some old
        /\ m_alreadySpecified old = false
        /\ apply_option spec (with_alreadySpecified true old) next
           = inr (value, advanced)
        /\ st' = stored st spec value.
Proof.
  intros specList st arg next spec st' advanced H. unfold recognise in H.
  destruct (select_spec specList arg) as [|[s|]]; try discriminate.
  destruct (map_find (values st) (m_longName s)) as [old|] eqn:Hold;
    [|discriminate].
  destruct (m_alreadySpecified old) eqn:Hdup; [discriminate|].
  destruct (apply_option s (with_alreadySpecified true old) next)
    as [|[value adv]] eqn:Happ; [discriminate|].
  injection H as <- <- <-. split; [reflexivity|].
  exists old, value. auto.
Qed.

Lemma recognise_gives : forall specList st arg next spec st' advanced,
    recognise specList st arg next = inr (spec, st', advanced) ->
    given (values st') spec.
Proof.
  intros specList st arg next spec st' advanced H.
  destruct (recognise_stores _ _ _ _ _ _ _ H)
    as (_ & old & value & _ & _ & Happ & ->).
  exists value. cbn. split; [apply map_find_set_same|].
  now rewrite (apply_option_alreadySpecified _ _ _ _ _ Happ).
Qed.

(** The stop of a turn is a failure or a fault, never a state. *)
Lemma recognise_stop : forall specList st arg next stop,
    recognise specList st arg next = inl stop ->
    (exists message, stop = StepFail message) \/ stop = StepFault.
Proof.
  intros specList st arg next stop H. unfold recognise in H.
  repeat match type of H with
         | context [match ?x with _ => _ end] => destruct x
         | context [if ?x then _ else _] => destruct x
         end; try discriminate; injection H as <-; eauto.
Qed.

(** A turn changes the entry of the option it recognises, and no other. *)
Lemma scan_step_entries : forall specList st arg next st' key,
    (exists advanced,
        scan_step specList st arg next = StepContinue st' advanced)
    \/ scan_step specList st arg next = StepReturn st' ->
    map_find (values st') key = map_find (values st) key
    \/ (exists spec value,
           In spec specList /\ m_longName spec = key
           /\ map_find (values st) key <> None
           /\ (forall old, map_find (values st) key = Some old ->
                           m_alreadySpecified old = false)
           /\ map_find (values st') key = Some value
           /\ m_alreadySpecified value = true
           /\ isDefined value = true).
Proof.
  intros specList st arg next st' key H. unfold scan_step in H.
  destruct (optionsComplete st).
  { destruct H as [[adv H]|H]; [|discriminate]. injection H as <- _. now left. }
  destruct (arg =? "--").
  { destruct H as [[adv H]|H]; [|discriminate]. injection H as <- _. now left. }
  destruct (is_parameter arg).
  { destruct H as [[adv H]|H]; [|discriminate]. injection H as <- _. now left. }
  destruct (recognise specList st arg next) as [stop|[[spec st1] adv]] eqn:Hrec.
  { destruct (recognise_stop _ _ _ _ _ Hrec) as [[m ->]| ->];
      destruct H as [[a H]|H]; discriminate. }
  assert (Hst : st' = st1).
  { destruct (m_isSingleton spec); destruct H as [[a H]|H];
      try discriminate; injection H; auto. }
  subst st1. clear H.
  destruct (recognise_stores _ _ _ _ _ _ _ Hrec)
    as (Hsel & old & value & Hold & Hdup & Happ & ->).
  cbn [values stored].
  destruct (String.eqb_spec key (m_longName spec)) as [->|Hne].
  - right. exists spec, value.
    split; [now apply select_spec_In with arg|].
    split; [reflexivity|].
    split; [congruence|].
    split; [intros o Ho; congruence|].
    split; [apply map_find_set_same|].
    split.
    + now rewrite (apply_option_alreadySpecified _ _ _ _ _ Happ).
    + now destruct (apply_option_spec _ _ _ _ _ Happ).
  - left. now apply map_find_set_other.
Qed.

Lemma scan_step_keeps_given : forall specList st arg next st' advanced spec,
    scan_step specList st arg next = StepContinue st' advanced ->
    given (values st) spec -> given (values st') spec.
Proof.
  intros specList st arg next st' advanced spec H (old & Hold & Hdup).
  destruct (scan_step_entries specList st arg next st' (m_longName spec)
              (or_introl (ex_intro _ advanced H)))
    as [Hsame|(s & value & _ & _ & _ & Hfresh & _)].
  - exists old. now rewrite Hsame.
  - rewrite (Hfresh old Hold) in Hdup. discriminate.
Qed.

Lemma Reaches_keeps_given : forall specList st args st' args' spec,
    Reaches specList st args st' args' ->
    given (values st) spec -> given (values st') spec.
Proof.
  intros specList st args st' args' spec H. induction H; intros Hg; auto.
  - apply IHReaches. now apply (scan_step_keeps_given _ _ _ _ _ _ _ H).
  - apply IHReaches. now apply (scan_step_keeps_given _ _ _ _ _ _ _ H).
Qed.

(** X2. An option that the loop has taken once is refused when it comes a
    second time, in its short or in its long form, with the message
    "duplicate option: " and the option's name. *)
Theorem duplicate_option_is_refused :
  forall (getenv : string -> option string) (iteration : MapType -> MapType)
         (specList : list OptionSpec) (arguments : list string)
         (skipProgramName : bool) (theMap : MapType)
         (st1 : ScanState) (arg1 : string) (rest1 : list string)
         (st1' : ScanState) (advanced : bool) (spec : OptionSpec)
         (st2 : ScanState) (arg2 : string) (rest2 : list string),
    m_specListOkay (fst (new_Parsley specList)) = true ->
    seed_all getenv specList [] = inr theMap ->
    Reaches specList (initial_state theMap)
            (if skipProgramName then tl arguments else arguments)
            st1 (arg1 :: rest1) ->
    option_turn st1 arg1 ->
    select_spec specList arg1 = inr (Some spec) ->
    scan_step specList st1 arg1 (hd_error rest1) = StepContinue st1' advanced ->
    Reaches specList st1' (if advanced then tl rest1 else rest1)
            st2 (arg2 :: rest2) ->
    option_turn st2 arg2 ->
    select_spec specList arg2 = inr (Some spec) ->
    process getenv iteration (fst (new_Parsley specList))
            arguments skipProgramName
    = Failure ("duplicate option: " ++ name spec).
Proof.
  intros getenv iteration specList arguments skipProgramName theMap
         st1 arg1 rest1 st1' advanced spec st2 arg2 rest2
         Hok Hseed Hreach1 Hturn1 Hsel1 Hstep1 Hreach2 (Hc & Hterm & Hpar) Hsel2.
  assert (Hgiven1 : given (values st1') spec).
  { destruct Hturn1 as (Hc1 & Hterm1 & Hpar1).
    unfold scan_step in Hstep1. rewrite Hc1, Hterm1, Hpar1 in Hstep1.
    destruct (recognise specList st1 arg1 (hd_error rest1))
      as [stop|[[s st] adv]] eqn:Hrec.
    - destruct (recognise_stop _ _ _ _ _ Hrec) as [[m ->]| ->]; discriminate.
    - destruct (recognise_stores _ _ _ _ _ _ _ Hrec) as (Hsel & _).
      rewrite Hsel1 in Hsel. injection Hsel as <-.
      destruct (m_isSingleton spec); [discriminate|].
      injection Hstep1 as <- <-.
      now apply (recognise_gives _ _ _ _ _ _ _ Hrec). }
  destruct (Reaches_keeps_given _ _ _ _ _ spec Hreach2 Hgiven1)
    as (value & Hfind & Hdup).
  assert (Hreach : Reaches specList st1 (arg1 :: rest1) st2 (arg2 :: rest2)).
  { destruct advanced.
    - destruct rest1 as [|argValue rest1].
      + inversion Hreach2.
      + now apply Reaches_turn_with_argument with st1'.
    - now apply Reaches_turn with st1'. }
  apply (failing_turn getenv iteration specList arguments skipProgramName
           theMap st2 arg2 rest2 _ Hok Hseed
           (Reaches_trans _ _ _ _ _ _ _ Hreach1 Hreach)).
  unfold scan_step, recognise.
  now rewrite Hc, Hterm, Hpar, Hsel2, Hfind, Hdup.
Qed.

Lemma duplicate_option_witness :
  process no_environment insertion_order
          (fst (new_Parsley [strSpec "name" "n" "" false]))
          ["prog"; "-n"; "a"; "--name"; "b"] true
  = Failure "duplicate option: -n, --name".
Proof.
  refine (duplicate_option_is_refused
            no_environment insertion_order [strSpec "name" "n" "" false]
            ["prog"; "-n"; "a"; "--name"; "b"] true _
            _ "-n" ["a"; "--name"; "b"] _ true (strSpec "name" "n" "" false)
            _ "--name" ["b"] _ _ _ _ _ _ _ _ _).
  - reflexivity.
  - reflexivity.
  - apply Reaches_here.
  - repeat split.
  - reflexivity.
  - reflexivity.
  - apply Reaches_here.
  - repeat split.
  - reflexivity.
Defined.

(** An invariant of the loop: what every turn that goes on keeps, and what a
    turn that returns establishes, holds when the loop is over. *)
Lemma scan_invariant : forall specList (P Q : ScanState -> Prop),
    (forall st arg next st' advanced,
        P st -> scan_step specList st arg next = StepContinue st' advanced ->
        P st') ->
    (forall st arg next st',
        P st -> scan_step specList st arg next = StepReturn st' -> Q st') ->
    forall arguments st,
      P st ->
      match scan specList st arguments with
      | ScanDone st' => P st'
      | ScanReturn st' => Q st'
      | _ => True
      end.
Proof.
  intros specList P Q Hgo Hret arguments.
  remember (List.length arguments) as n eqn:Hn.
  assert (Hle : (List.length arguments <= n)%nat) by lia. clear Hn.
  revert arguments Hle.
  induction n as [|n IH]; intros arguments Hle st HP;
    destruct arguments as [|arg rest]; try exact HP; simpl in Hle; [lia|].
  cbn [scan].
  destruct (scan_step specList st arg (hd_error rest)) as [| |st'|st' adv]
    eqn:Hstep; auto.
  - now apply (Hret st arg (hd_error rest)).
  - pose proof (Hgo _ _ _ _ _ HP Hstep) as HP'.
    destruct adv.
    + destruct rest as [|argValue rest]; [exact HP'|].
      apply IH; [simpl in *; lia|exact HP'].
    + apply IH; [lia|exact HP'].
Qed.

Lemma scan_step_return : forall specList st arg next st',
    scan_step specList st arg next = StepReturn st' ->
    exists spec, In spec specList /\ m_isSingleton spec = true
                 /\ given (values st') spec.
Proof.
  intros specList st arg next st' H. unfold scan_step in H.
  destruct (optionsComplete st); [discriminate|].
  destruct (arg =? "--"); [discriminate|].
  destruct (is_parameter arg); [discriminate|].
  destruct (recognise specList st arg next) as [stop|[[spec st1] adv]] eqn:Hrec.
  - destruct (recognise_stop _ _ _ _ _ Hrec) as [[m ->]| ->]; discriminate.
  - destruct (m_isSingleton spec) eqn:Hs; [|discriminate].
    injection H as <-. exists spec.
    destruct (recognise_stores _ _ _ _ _ _ _ Hrec) as (Hsel & _).
    split; [now apply select_spec_In with arg|].
    split; [exact Hs|]. now apply (recognise_gives _ _ _ _ _ _ _ Hrec).
Qed.

Lemma check_required_none : forall nodes,
    check_required nodes = None
    <-> (forall key value, In (key, value) nodes ->
                           m_isRequired (m_spec value) = true ->
                           isDefined value = true).
Proof.
  induction nodes as [|[k v] rest IH]; cbn [check_required].
  - split; [intros _ key value []|reflexivity].
  - destruct (m_isRequired (m_spec v) && negb (isDefined v)) eqn:Hv.
    + split; [discriminate|]. intros H.
      apply andb_true_iff in Hv. destruct Hv as [Hr Hd].
      rewrite (H k v (or_introl eq_refl) Hr) in Hd. discriminate.
    + rewrite IH. split.
      * intros H key value [Heq|Hin] Hr; [|now apply (H key value)].
        injection Heq as -> ->. rewrite Hr in Hv.
        now destruct (isDefined value).
      * intros H key value Hin. apply (H key value). now right.
Qed.

(** In a registry without conflicts the entry under the long name of a
    specification is the entry made for it. *)
Lemma well_keyed_entry : forall specList theMap spec,
    conflict_free specList -> well_keyed specList theMap ->
    In spec specList ->
    exists value, map_find theMap (m_longName spec) = Some value
                  /\ m_spec value = spec.
Proof.
  intros specList theMap spec Hfree (Hnd & Hspec & Hall) Hin.
  destruct (map_find theMap (m_longName spec)) as [value|] eqn:Hfind;
    [|now destruct (Hall spec Hin)].
  exists value. split; [reflexivity|].
  destruct (Hspec _ _ (map_find_In _ _ _ Hfind)) as [Hin' Hname].
  pose proof (conflict_free_long_names _ Hfree) as Hnames.
  clear - Hin Hin' Hname Hnames.
  induction specList as [|s rest IH]; [contradiction|].
  inversion Hnames as [|? ? Hfresh Hrest]; subst.
  destruct Hin as [->|Hin], Hin' as [Heq|Hin']; auto.
  - exfalso. apply Hfresh. rewrite <- Hname. now apply in_map.
  - exfalso. apply Hfresh. rewrite Heq, Hname. now apply in_map.
Qed.

(** X3. When [process] returns true, every required option has a value,
    unless a singleton option was met on the command line. *)
Theorem success_meets_requirements :
  forall (getenv : string -> option string) (iteration : MapType -> MapType)
         (specList : list OptionSpec) (arguments : list string)
         (skipProgramName : bool) (options : MapType)
         (params : list string),
    traversal iteration ->
    process getenv iteration (fst (new_Parsley specList))
            arguments skipProgramName
    = Success options params ->
    (forall spec, In spec specList -> m_isRequired spec = true ->
                  ov_isDefined (options_get options (m_longName spec)) = true)
    \/ (exists spec, In spec specList /\ m_isSingleton spec = true
                     /\ given options spec).
Proof.
  intros getenv iteration specList arguments skipProgramName options params
         Hperm H.
  unfold process in H. rewrite new_Parsley_specList in H.
  destruct (m_specListOkay (fst (new_Parsley specList))) eqn:Hok;
    [|discriminate].
  apply specListOkay_iff in Hok. cbn [negb] in H.
  destruct (seed_all getenv specList []) as [|theMap] eqn:Hseed;
    [discriminate|].
  pose proof (seed_all_well_keyed getenv specList theMap Hok Hseed) as Hwk0.
  pose proof (scan_well_keyed specList
                (if skipProgramName then tl arguments else arguments)
                (initial_state theMap) Hwk0) as Hwk.
  pose proof (scan_invariant specList (fun _ => True)
                (fun st' => exists spec, In spec specList
                                         /\ m_isSingleton spec = true
                                         /\ given (values st') spec)
                ltac:(auto)
                ltac:(intros st arg next st' _ Hs;
                      exact (scan_step_return _ _ _ _ _ Hs))
                (if skipProgramName then tl arguments else arguments)
                (initial_state theMap) I) as Hret.
  destruct (scan specList (initial_state theMap)
                 (if skipProgramName then tl arguments else arguments))
    as [| |st|st]; try discriminate.
  - injection H as <- _. now right.
  - destruct (check_required (iteration (values st))) eqn:Hcheck;
      [discriminate|].
    injection H as <- _. left. intros spec Hin Hreq.
    destruct (well_keyed_entry _ _ _ Hok Hwk Hin) as (value & Hfind & Hvalue).
    unfold options_get. rewrite Hfind. cbn.
    apply (proj1 (check_required_none _) Hcheck (m_longName spec) value).
    + apply Permutation_in with (values st);
        [apply Permutation_sym, Hperm|now apply map_find_In].
    + now rewrite Hvalue.
Qed.

Lemma success_meets_requirements_witness :
  (forall spec,
      In spec [help; strSpec "name" "n" "" true] ->
      m_isRequired spec = true ->
      ov_isDefined
        (options_get
           [("help", {| isDefined := true; flag := false; str := ""; ival := 0;
                        real := Double.zero; m_alreadySpecified := false;
                        m_spec := help |});
            ("name", {| isDefined := true; flag := false; str := "x"; ival := 0;
                        real := Double.zero; m_alreadySpecified := true;
                        m_spec := strSpec "name" "n" "" true |})]
           (m_longName spec)) = true)
  \/ (exists spec,
         In spec [help; strSpec "name" "n" "" true]
         /\ m_isSingleton spec = true
         /\ given
              [("help", {| isDefined := true; flag := false; str := "";
                           ival := 0; real := Double.zero;
                           m_alreadySpecified := false; m_spec := help |});
               ("name", {| isDefined := true; flag := false; str := "x";
                           ival := 0; real := Double.zero;
                           m_alreadySpecified := true;
                           m_spec := strSpec "name" "n" "" true |})]
              spec).
Proof.
  apply (success_meets_requirements
           no_environment insertion_order [help; strSpec "name" "n" "" true]
           ["prog"; "-n"; "x"; "file"] true _ ["file"]).
  - intros theMap. apply Permutation_refl.
  - reflexivity.
Defined.

(** What is behind a call of [process] that returns true: Phase A has gone
    through, the container is in order, and each of its entries is the one
    of Phase A or that of an option met on the command line. *)
Lemma process_success :
  forall getenv iteration specList arguments (skipProgramName : bool)
         options params,
    process getenv iteration (fst (new_Parsley specList))
            arguments skipProgramName
    = Success options params ->
    conflict_free specList
    /\ exists theMap,
        seed_all getenv specList [] = inr theMap
        /\ well_keyed specList options
        /\ (forall key,
               map_find options key = map_find theMap key
               \/ exists value, map_find options key = Some value
                                /\ m_alreadySpecified value = true
                                /\ isDefined value = true).
Proof.
  intros getenv iteration specList arguments skipProgramName options params H.
  unfold process in H. rewrite new_Parsley_specList in H.
  destruct (m_specListOkay (fst (new_Parsley specList))) eqn:Hok;
    [|discriminate].
  apply specListOkay_iff in Hok. cbn [negb] in H.
  destruct (seed_all getenv specList []) as [|theMap] eqn:Hseed;
    [discriminate|].
  split; [exact Hok|]. exists theMap. split; [reflexivity|].
  pose proof (seed_all_well_keyed getenv specList theMap Hok Hseed) as Hwk0.
  pose proof (scan_well_keyed specList
                (if skipProgramName then tl arguments else arguments)
                (initial_state theMap) Hwk0) as Hwk.
  set (P := fun st : ScanState =>
              forall key,
                map_find (values st) key = map_find theMap key
                \/ exists value, map_find (values st) key = Some value
                                 /\ m_alreadySpecified value = true
                                 /\ isDefined value = true).
  assert (Hstep : forall st arg next st',
             P st ->
             (exists advanced,
                 scan_step specList st arg next = StepContinue st' advanced)
             \/ scan_step specList st arg next = StepReturn st' ->
             P st').
  { intros st arg next st' HP Hs key.
    destruct (scan_step_entries specList st arg next st' key Hs)
      as [Hsame|(s & value & _ & _ & _ & _ & Hfind & Hdup & Hdef)].
    - rewrite Hsame. apply HP.
    - right. exists value. auto. }
  pose proof (scan_invariant specList P P
                ltac:(intros st arg next st' adv HP Hs;
                      apply (Hstep st arg next st' HP); left; eauto)
                ltac:(intros st arg next st' HP Hs;
                      apply (Hstep st arg next st' HP); now right)
                (if skipProgramName then tl arguments else arguments)
                (initial_state theMap) ltac:(intros key; now left)) as Hinv.
  destruct (scan specList (initial_state theMap)
                 (if skipProgramName then tl arguments else arguments))
    as [| |st|st]; try discriminate.
  - injection H as <- _. auto.
  - destruct (check_required (iteration (values st))); [discriminate|].
    injection H as <- _. auto.
Qed.

(** X4. Every entry of the container that [process] returns is the entry
    Phase A has made for its specification from the default and the
    environment, or it is the entry of an option met on the command line,
    and then it has a value. *)
Theorem options_come_from_seed_or_command_line :
  forall (getenv : string -> option string) (iteration : MapType -> MapType)
         (specList : list OptionSpec) (arguments : list string)
         (skipProgramName : bool) (options : MapType)
         (params : list string),
    process getenv iteration (fst (new_Parsley specList))
            arguments skipProgramName
    = Success options params ->
    forall spec, In spec specList ->
      exists value,
        map_find options (m_longName spec) = Some value
        /\ m_spec value = spec
        /\ (seed getenv spec = inr value
            \/ (m_alreadySpecified value = true /\ isDefined value = true)).
Proof.
  intros getenv iteration specList arguments skipProgramName options params H
         spec Hin.
  destruct (process_success _ _ _ _ _ _ _ H)
    as (Hok & theMap & Hseed & Hwk & Hentries).
  destruct (well_keyed_entry _ _ _ Hok Hwk Hin) as (value & Hfind & Hvalue).
  exists value. split; [exact Hfind|]. split; [exact Hvalue|].
  destruct (Hentries (m_longName spec)) as [Hsame|(v & Hv & Hdup & Hdef)].
  - left.
    destruct (seed_all_entries getenv specList [] theMap
                (conflict_free_long_names _ Hok) Hseed) as (Hall & _).
    destruct (Hall spec Hin) as (v & Hs & Hf). congruence.
  - right. rewrite Hfind in Hv. injection Hv as <-. auto.
Qed.

Lemma options_come_from_seed_or_command_line_witness :
  exists value,
    map_find
      [("help", {| isDefined := true; flag := false; str := ""; ival := 0;
                   real := Double.zero; m_alreadySpecified := false;
                   m_spec := help |});
       ("name", {| isDefined := true; flag := false; str := "x"; ival := 0;
                   real := Double.zero; m_alreadySpecified := true;
                   m_spec := strSpec "name" "n" "" true |})]
      (m_longName help) = Some value
    /\ m_spec value = help
    /\ (seed no_environment help = inr value
        \/ (m_alreadySpecified value = true /\ isDefined value = true)).
Proof.
  apply (options_come_from_seed_or_command_line
           no_environment insertion_order [help; strSpec "name" "n" "" true]
           ["prog"; "-n"; "x"; "file"] true _ ["file"]).
  - reflexivity.
  - left. reflexivity.
Defined.

(** An option takes an argument unless it is a flag. *)
Lemma apply_option_advanced : forall spec value next value' advanced,
    apply_option spec value next = inr (value', advanced) ->
    advanced = match m_kind spec with kFlag => false | _ => true end
    /\ (advanced = true -> next <> None).
Proof.
  intros spec value next value' advanced H. unfold apply_option in H.
  destruct (m_kind spec), next as [argValue|]; cbn [CHECK_ARGUMENT] in H;
    repeat match type of H with
           | context [match ?x with _ => _ end] => destruct x
           | context [if ?x then _ else _] => destruct x
           end;
    try discriminate; injection H as _ <-; split; congruence.
Qed.

(** What the loop has read when it ends without an error: a run of options,
    and behind it what makes the parameters. *)
Lemma scan_divides : forall specList n args st st',
    (List.length args <= n)%nat ->
    optionsComplete st = false -> parameters st = [] ->
    scan specList st args = ScanDone st'
    \/ scan specList st args = ScanReturn st' ->
    exists front tail,
      args = app front tail
      /\ OptionRun specList front
      /\ Ends specList tail (parameters st').
Proof.
  intros specList.
  induction n as [|n IH]; intros args st st' Hle Hc Hp Hs;
    destruct args as [|arg rest]; simpl in Hle; try lia.
  - exists [], []. cbn [scan] in Hs. destruct Hs as [Hs|Hs]; [|discriminate].
    injection Hs as <-. rewrite Hp. repeat split; constructor.
  - exists [], []. cbn [scan] in Hs. destruct Hs as [Hs|Hs]; [|discriminate].
    injection Hs as <-. rewrite Hp. repeat split; constructor.
  - cbn [scan] in Hs. unfold scan_step in Hs. rewrite Hc in Hs.
    destruct (arg =? "--") eqn:Hterm.
    { rewrite scan_options_complete in Hs by reflexivity.
      destruct Hs as [Hs|Hs]; [|discriminate]. injection Hs as <-.
      apply String.eqb_eq in Hterm. subst arg.
      exists [], ("--" :: rest). cbn. rewrite Hp.
      repeat split; constructor. }
    destruct (is_parameter arg) eqn:Hpar.
    { rewrite scan_options_complete in Hs by reflexivity.
      destruct Hs as [Hs|Hs]; [|discriminate]. injection Hs as <-.
      exists [], (arg :: rest). cbn. rewrite Hp.
      repeat split; [constructor|]. now apply Ends_parameter. }
    destruct (recognise specList st arg (hd_error rest))
      as [stop|[[spec st1] adv]] eqn:Hrec.
    { destruct (recognise_stop _ _ _ _ _ Hrec) as [[m ->]| ->];
        destruct Hs; discriminate. }
    destruct (recognise_keeps_parameters _ _ _ _ _ _ _ Hrec) as [Hc1 Hp1].
    rewrite Hc in Hc1. rewrite Hp in Hp1.
    destruct (recognise_stores _ _ _ _ _ _ _ Hrec)
      as (Hsel & old & value & _ & _ & Happly & _).
    apply apply_option_advanced in Happly. destruct Happly as [Happly Hnext].
    assert (Hname : names_option specList arg spec) by (repeat split; auto).
    destruct (m_isSingleton spec) eqn:Hsingle.
    { destruct Hs as [Hs|Hs]; [discriminate|]. injection Hs as <-.
      exists [], (arg :: rest). rewrite Hp1.
      repeat split; [constructor|]. now apply Ends_singleton with spec. }
    destruct adv.
    + destruct rest as [|argValue rest].
      * now contradiction (Hnext eq_refl).
      * destruct (IH rest st1 st' ltac:(simpl in *; lia) Hc1 Hp1 Hs)
          as (front & tail & -> & Hrun & Hend).
        exists (arg :: argValue :: front), tail.
        repeat split; auto.
        apply OptionRun_value with spec; auto.
        intros K. rewrite K in Happly. discriminate.
    + destruct (IH rest st1 st' ltac:(lia) Hc1 Hp1 Hs)
        as (front & tail & -> & Hrun & Hend).
      exists (arg :: front), tail.
      repeat split; auto.
      apply OptionRun_flag with spec; auto.
      destruct (m_kind spec); auto; discriminate.
Qed.

(** What ends a run of options does not go on with it. *)
Lemma Ends_head : forall specList arg rest params spec,
    Ends specList (arg :: rest) params ->
    names_option specList arg spec ->
    m_isSingleton spec = true.
Proof.
  intros specList arg rest params spec Hend (Hterm & Hpar & Hsel).
  inversion Hend as [|p ps Hp| |a s r (_ & _ & Hsel') Hsingle]; subst.
  - congruence.
  - discriminate Hterm.
  - congruence.
Qed.

Lemma Ends_functional : forall specList tail params others,
    Ends specList tail params -> Ends specList tail others ->
    others = params.
Proof.
  intros specList tail params others H1 H2.
  inversion H1 as [|p ps Hp| |a s r (Hterm & Hpar & _) Hsingle]; subst;
    inversion H2 as [|p' ps' Hp'| |a' s' r' (Hterm' & Hpar' & _) Hsingle'];
    subst; try reflexivity; try discriminate; congruence.
Qed.

(** The arguments divide in one way only into a run of options and what
    ends it. *)
Lemma OptionRun_unique : forall specList front,
    OptionRun specList front ->
    forall tail params front' tail' others,
      OptionRun specList front' ->
      Ends specList tail params -> Ends specList tail' others ->
      app front tail = app front' tail' ->
      others = params.
Proof.
  intros specList front Hrun.
  induction Hrun as [|arg spec rest Hname Hsingle K Hrun IH
                      |arg spec argValue rest Hname Hsingle K Hrun IH];
    intros tail params front' tail' others Hrun' Hend Hend' E.
  - destruct Hrun' as [|arg' spec' rest' Hname' Hsingle' K' Hrun'
                       |arg' spec' argValue' rest' Hname' Hsingle' K' Hrun'];
      cbn [app] in E; subst.
    + now apply Ends_functional with specList tail'.
    + rewrite (Ends_head _ _ _ _ _ Hend Hname') in Hsingle'. discriminate.
    + rewrite (Ends_head _ _ _ _ _ Hend Hname') in Hsingle'. discriminate.
  - destruct Hrun' as [|arg' spec' rest' Hname' Hsingle' K' Hrun'
                       |arg' spec' argValue' rest' Hname' Hsingle' K' Hrun'];
      cbn [app] in E; subst.
    + rewrite (Ends_head _ _ _ _ _ Hend' Hname) in Hsingle. discriminate.
    + injection E as <- E. now apply (IH tail params rest' tail').
    + injection E as <- E.
      destruct Hname as (_ & _ & Hsel), Hname' as (_ & _ & Hsel').
      congruence.
  - destruct Hrun' as [|arg' spec' rest' Hname' Hsingle' K' Hrun'
                       |arg' spec' argValue' rest' Hname' Hsingle' K' Hrun'];
      cbn [app] in E; subst.
    + rewrite (Ends_head _ _ _ _ _ Hend' Hname) in Hsingle. discriminate.
    + injection E as <- E.
      destruct Hname as (_ & _ & Hsel), Hname' as (_ & _ & Hsel').
      congruence.
    + injection E as <- <- E. now apply (IH tail params rest' tail').
Qed.

(** X5. The arguments of [process], behind the program's name when that is
    skipped, are a run of options, each with its own argument unless it is a
    flag, and then what makes the parameters. Nothing is left, and there is
    no parameter; or an argument that is no option comes first, and it is a
    parameter with every argument behind it; or the terminator ["--"] comes
    first, and every argument behind it is a parameter; or a singleton comes
    first, and there is no parameter. The parameters keep the order of the
    arguments, and the arguments divide in this way into one list of
    parameters only: none is dropped, none is added. *)
Theorem parameters_are_the_last_arguments :
  forall (getenv : string -> option string) (iteration : MapType -> MapType)
         (this : Parsley) (arguments : list string) (skipProgramName : bool)
         (options : MapType) (params : list string),
    process getenv iteration this arguments skipProgramName
    = Success options params ->
    (exists front tail,
        (if skipProgramName then tl arguments else arguments)
        = app front tail
        /\ OptionRun (m_specList this) front
        /\ Ends (m_specList this) tail params)
    /\ (forall front tail others,
           (if skipProgramName then tl arguments else arguments)
           = app front tail ->
           OptionRun (m_specList this) front ->
           Ends (m_specList this) tail others ->
           others = params).
Proof.
  intros getenv iteration this arguments skipProgramName options params H.
  unfold process in H.
  destruct (negb (m_specListOkay this)); [discriminate|].
  destruct (seed_all getenv (m_specList this) []) as [|theMap];
    [discriminate|].
  assert (Hend : exists st,
             params = parameters st
             /\ (scan (m_specList this) (initial_state theMap)
                      (if skipProgramName then tl arguments else arguments)
                 = ScanDone st
                 \/ scan (m_specList this) (initial_state theMap)
                         (if skipProgramName then tl arguments else arguments)
                    = ScanReturn st)).
  { destruct (scan (m_specList this) (initial_state theMap)
                   (if skipProgramName then tl arguments else arguments))
      as [| |st|st]; try discriminate.
    - injection H as _ <-. eauto.
    - destruct (check_required (iteration (values st))); [discriminate|].
      injection H as _ <-. eauto. }
  destruct Hend as (st & -> & Hs).
  destruct (scan_divides (m_specList this) _ _ (initial_state theMap) st
              (le_n _) eq_refl eq_refl Hs)
    as (front & tail & Hargs & Hrun & Hends).
  split.
  - now exists front, tail.
  - intros front' tail' others Hargs' Hrun' Hends'.
    apply (OptionRun_unique _ front Hrun tail (parameters st) front' tail'
             others Hrun' Hends Hends').
    congruence.
Qed.

Lemma parameters_are_the_last_arguments_witness :
  (exists front tail,
      ["-n"; "x"; "--"; "-file"; "more"] = app front tail
      /\ OptionRun [help; strSpec "name" "n" "" true] front
      /\ Ends [help; strSpec "name" "n" "" true] tail ["-file"; "more"])
  /\ (forall front tail others,
         ["-n"; "x"; "--"; "-file"; "more"] = app front tail ->
         OptionRun [help; strSpec "name" "n" "" true] front ->
         Ends [help; strSpec "name" "n" "" true] tail others ->
         others = ["-file"; "more"]).
Proof.
  apply (parameters_are_the_last_arguments
           no_environment insertion_order
           (fst (new_Parsley [help; strSpec "name" "n" "" true]))
           ["prog"; "-n"; "x"; "--"; "-file"; "more"] true
           (map_set
              [("help", {| isDefined := true; flag := false; str := "";
                           ival := 0; real := Double.zero;
                           m_alreadySpecified := false; m_spec := help |})]
              "name"
              {| isDefined := true; flag := false; str := "x"; ival := 0;
                 real := Double.zero; m_alreadySpecified := true;
                 m_spec := strSpec "name" "n" "" true |})).
  reflexivity.
Defined.

(** ** [indexOf] *)

Lemma indexOf_from_first : forall opts value index,
    In value opts ->
    exists i,
      indexOf_from opts value index = (index + 1 + Z.of_nat i)%Z
      /\ nth_error opts i = Some value
      /\ (forall j, (j < i)%nat -> nth_error opts j <> Some value).
Proof.
  induction opts as [|item rest IH]; intros value index Hin.
  - contradiction.
  - cbn [indexOf_from].
    destruct (String.eqb_spec value item) as [->|Hne].
    + exists 0%nat. split; [lia|]. split; [reflexivity|]. intros j Hj. lia.
    + destruct Hin as [->|Hin]; [congruence|].
      destruct (IH value (index + 1)%Z Hin) as (i & Hi & Hnth & Hfirst).
      exists (S i). split; [lia|]. split; [exact Hnth|].
      intros [|j] Hj; cbn [nth_error]; [congruence|].
      apply Hfirst. lia.
Qed.

Lemma indexOf_first : forall opts value,
    In value opts ->
    exists i,
      indexOf opts value = Z.of_nat i
      /\ nth_error opts i = Some value
      /\ (forall j, (j < i)%nat -> nth_error opts j <> Some value).
Proof.
  intros opts value Hin.
  destruct (indexOf_from_first opts value (-1)%Z Hin) as (i & Hi & H).
  exists i. split; [|exact H]. unfold indexOf. rewrite Hi. lia.
Qed.

(** X6. [indexOf] returns -1 exactly for a value that is not in the list;
    for a value of the list it returns the position, counted from 0, of the
    value's first occurrence. The comparison is that of [std::string]: exact
    and sensitive to case. *)
Theorem indexOf_is_first_position :
  forall (opts : list string) (value : string),
    (indexOf opts value = (-1)%Z <-> ~ In value opts)
    /\ (In value opts ->
        exists i,
          indexOf opts value = Z.of_nat i
          /\ (i < List.length opts)%nat
          /\ nth_error opts i = Some value
          /\ (forall j, (j < i)%nat -> nth_error opts j <> Some value))
    /\ indexOf ["Red"; "red"; "Red"] "red" = 1%Z.
Proof.
  intros opts value. split; [apply indexOf_missing|]. split; [|reflexivity].
  intros Hin. destruct (indexOf_first opts value Hin) as (i & Hi & Hnth & Hj).
  exists i. split; [exact Hi|]. split; [|auto].
  apply nth_error_Some. congruence.
Qed.

Lemma indexOf_is_first_position_witness :
  exists i,
    indexOf ["fast"; "slow"; "slow"] "slow" = Z.of_nat i
    /\ (i < List.length ["fast"; "slow"; "slow"])%nat
    /\ nth_error ["fast"; "slow"; "slow"] i = Some "slow"
    /\ (forall j, (j < i)%nat ->
                  nth_error ["fast"; "slow"; "slow"] j <> Some "slow").
Proof.
  apply (proj1 (proj2 (indexOf_is_first_position
                         ["fast"; "slow"; "slow"] "slow"))).
  right. left. reflexivity.
Defined.

(** ** Specifications that a program can build *)

(** The default of an enumeration that a program can build is one of its
    values. *)
Lemma Buildable_enum_default : forall spec,
    Buildable spec ->
    m_kind spec = kEnum -> m_defaultIsDefined spec = true ->
    In (m_defaultStr spec) (m_enumOptions spec).
Proof.
  intros spec H. induction H; try discriminate.
  destruct q; cbn [qualify];
    unfold defStr, defInt, defReal, intRange, realRange, envVar,
      warning, quiet;
    repeat match goal with
           | |- context [if ?x then _ else _] => destruct x eqn:?
           end; cbn [fst]; try exact IHBuildable.
  all: destruct spec as [k ln sn d rq sg eo rd mi ma mr xr ed en dd ds di dr];
    cbn in *; try exact IHBuildable; try (intros; subst; discriminate);
    try (intros; now apply IHBuildable).
  intros -> _.
  match goal with
  | E : _ && (indexOf_from _ _ _ =? _)%Z = false |- _ =>
      cbn in E; apply Z.eqb_neq in E;
      destruct (in_dec string_dec defValue eo) as [Hin|Hout]; [exact Hin|];
      now rewrite (indexOf_from_missing eo defValue (-1)%Z Hout) in E
  end.
Qed.

(** X7. What holds of every specification that a program can build with the
    factories and the qualifier methods: a flag is never required and has
    its (implicit) default; only a flag can be a singleton; the default of
    an enumeration is one of its values; only Integer and Real options have
    a range; an environment variable is defined exactly when its name is not
    empty; only an enumeration has values to choose from. *)
Theorem buildable_specifications :
  forall spec : OptionSpec,
    Buildable spec ->
    (m_kind spec = kFlag ->
     m_isRequired spec = false /\ m_defaultIsDefined spec = true)
    /\ (m_isSingleton spec = true -> m_kind spec = kFlag)
    /\ (m_kind spec = kEnum -> m_defaultIsDefined spec = true ->
        In (m_defaultStr spec) (m_enumOptions spec))
    /\ (m_rangeIsDefined spec = true ->
        m_kind spec = kInt \/ m_kind spec = kReal)
    /\ (m_evIsDefined spec = true <-> m_evName spec <> "")
    /\ (m_enumOptions spec <> [] -> m_kind spec = kEnum).
Proof.
  intros spec H. induction H.
  1-7: cbn; repeat split; try discriminate; try tauto; try congruence;
    try (intros; destruct g; congruence).
  destruct IHBuildable as (I1 & I2 & I3 & I4 & I5 & I6).
  destruct q; cbn [qualify];
    unfold defStr, defInt, defReal, intRange, realRange, envVar,
      warning, quiet;
    repeat match goal with
           | |- context [if ?x then _ else _] => destruct x eqn:?
           end; cbn [fst];
    try (repeat split; tauto).
  all: destruct spec as [k ln sn d rq sg eo rd mi ma mr xr ed en dd ds di dr];
    cbn in *.
  all: repeat split; try tauto; try congruence.
  all: try (intros; destruct k; cbn in *; try discriminate; auto; fail).
  - intros -> _. cbn in Heqb1. apply Z.eqb_neq in Heqb1.
    destruct (in_dec string_dec defValue eo) as [Hin|Hout]; [exact Hin|].
    now rewrite (indexOf_from_missing eo defValue (-1)%Z Hout) in Heqb1.
  - destruct envVarName; [discriminate|congruence].
  - destruct envVarName; [congruence|reflexivity].
Qed.


Lemma buildable_specifications_witness :
  In (m_defaultStr
        (fst (defStr "b" (enumSpec "mode" "m" "" ["a"; "b"] false))))
     (m_enumOptions
        (fst (defStr "b" (enumSpec "mode" "m" "" ["a"; "b"] false)))).
Proof.
  exact (proj1 (proj2 (proj2
           (buildable_specifications
              (fst (defStr "b" (enumSpec "mode" "m" "" ["a"; "b"] false)))
              (B_qualify (QdefStr "b") _
                         (B_enum "mode" "m" "" ["a"; "b"] false)))))
           eq_refl eq_refl).
Defined.


(** ** More on Phase A *)

Lemma seed_all_succeeds : forall getenv specList theMap0,
    (forall spec, In spec specList -> exists value, seed getenv spec = inr value) ->
    exists theMap, seed_all getenv specList theMap0 = inr theMap.
Proof.
  intros getenv specList. induction specList as [|spec rest IH];
    intros theMap0 H; cbn [seed_all].
  - eauto.
  - destruct (H spec (or_introl eq_refl)) as (value & ->).
    apply IH. intros s Hs. apply H. now right.
Qed.

(** Phase A without a value from the environment. *)
Lemma seed_default : forall getenv spec,
    unset_in getenv spec ->
    (m_kind spec = kEnum -> m_defaultIsDefined spec = true ->
     In (m_defaultStr spec) (m_enumOptions spec)) ->
    exists value,
      seed getenv spec = inr value
      /\ {| ov_isDefined := isDefined value; ov_flag := flag value;
            ov_str := str value; ov_ival := ival value;
            ov_real := real value |} = default_value spec.
Proof.
  intros getenv spec Hunset Henum. unfold seed, default_value.
  assert (Hev : (if m_evIsDefined spec then getenv (m_evName spec) else None)
                = None).
  { unfold unset_in in Hunset. destruct (m_evIsDefined spec); auto. }
  rewrite Hev.
  destruct (m_kind spec) eqn:K; try (eexists; split; reflexivity).
  cbn [isDefined with_str].
  destruct (m_defaultIsDefined spec) eqn:Hd; [|eexists; split; reflexivity].
  cbn [ival with_ival with_str str isDefined].
  pose proof (indexOf_from_found (m_enumOptions spec) (m_defaultStr spec)
                (-1)%Z ltac:(lia) (Henum eq_refl eq_refl)) as Hi.
  fold (indexOf (m_enumOptions spec) (m_defaultStr spec)) in Hi.
  apply Z.ltb_ge in Hi. rewrite Hi.
  eexists. split; [reflexivity|]. reflexivity.
Qed.

(** X8. With a valid registry of specifications a program can build, no
    value in the environment and nothing on the command line but the
    program's name, [process] returns true when every required option has a
    default: there are no parameters, and every option has its default
    value, defined exactly when the default is. For an enumeration with a
    default the integer value is the position of the default among the
    values. *)
Theorem defaults_without_arguments :
  forall (getenv : string -> option string) (iteration : MapType -> MapType)
         (specList : list OptionSpec) (program : string),
    traversal iteration ->
    m_specListOkay (fst (new_Parsley specList)) = true ->
    Forall Buildable specList ->
    (forall spec, In spec specList -> unset_in getenv spec) ->
    (forall spec, In spec specList -> m_isRequired spec = true ->
                  m_defaultIsDefined spec = true) ->
    exists options,
      process getenv iteration (fst (new_Parsley specList)) [program] true
      = Success options []
      /\ (forall spec, In spec specList ->
            options_get options (m_longName spec) = default_value spec
            /\ (m_kind spec = kEnum -> m_defaultIsDefined spec = true ->
                exists i,
                  ov_ival (options_get options (m_longName spec)) = Z.of_nat i
                  /\ nth_error (m_enumOptions spec) i
                     = Some (m_defaultStr spec))).
Proof.
  intros getenv iteration specList program Hperm Hok Hbuild Hunset Hreq.
  assert (Hfree : conflict_free specList) by now apply specListOkay_iff.
  assert (Hseeds : forall spec, In spec specList ->
             exists value,
               seed getenv spec = inr value
               /\ {| ov_isDefined := isDefined value; ov_flag := flag value;
                     ov_str := str value; ov_ival := ival value;
                     ov_real := real value |} = default_value spec).
  { intros spec Hin. apply seed_default; [now apply Hunset|].
    rewrite Forall_forall in Hbuild.
    apply (Buildable_enum_default spec (Hbuild spec Hin)). }
  destruct (seed_all_succeeds getenv specList []
              ltac:(intros s Hs; destruct (Hseeds s Hs) as (v & Hv & _); eauto))
    as (theMap & Hseed).
  destruct (seed_all_entries getenv specList [] theMap
              (conflict_free_long_names _ Hfree) Hseed)
    as (Hall & _ & _ & Hfrom).
  assert (Hvalue : forall spec, In spec specList ->
             options_get theMap (m_longName spec) = default_value spec).
  { intros spec Hin. destruct (Hall spec Hin) as (value & Hs & Hfind).
    destruct (Hseeds spec Hin) as (value' & Hs' & Hdefault).
    rewrite Hs in Hs'. injection Hs' as <-.
    unfold options_get. now rewrite Hfind. }
  exists theMap. split.
  - unfold process. rewrite new_Parsley_specList, Hok, Hseed. cbn [negb tl scan].
    replace (check_required (iteration (values (initial_state theMap))))
      with (@None string); [reflexivity|].
    symmetry. apply check_required_none. intros key value Hin Hr.
    apply (Permutation_in _ (Hperm _)) in Hin. cbn in Hin.
    destruct (Hfrom key value Hin) as [[]|(spec & Hspec & -> & Hs)].
    destruct (seed_spec getenv spec value Hs) as [Hm _]. rewrite Hm in Hr.
    destruct (Hseeds spec Hspec) as (value' & Hs' & Hdefault).
    rewrite Hs in Hs'. injection Hs' as <-.
    apply (f_equal ov_isDefined) in Hdefault. cbn in Hdefault.
    rewrite Hdefault. now apply Hreq.
  - intros spec Hin. split; [now apply Hvalue|].
    intros K Hd. rewrite (Hvalue spec Hin). unfold default_value. cbn.
    rewrite K, Hd.
    rewrite Forall_forall in Hbuild.
    destruct (indexOf_first _ _
                (Buildable_enum_default spec (Hbuild spec Hin) K Hd))
      as (i & Hi & Hnth & _).
    exists i. auto.
Qed.

Lemma defaults_without_arguments_witness :
  exists options,
    process no_environment insertion_order
            (fst (new_Parsley
                    [help;
                     fst (defStr "b" (enumSpec "mode" "m" "" ["a"; "b"] true));
                     intSpec "count" "c" "" false]))
            ["prog"] true
    = Success options []
    /\ (forall spec,
          In spec [help;
                   fst (defStr "b" (enumSpec "mode" "m" "" ["a"; "b"] true));
                   intSpec "count" "c" "" false] ->
          options_get options (m_longName spec) = default_value spec
          /\ (m_kind spec = kEnum -> m_defaultIsDefined spec = true ->
              exists i,
                ov_ival (options_get options (m_longName spec)) = Z.of_nat i
                /\ nth_error (m_enumOptions spec) i
                   = Some (m_defaultStr spec))).
Proof.
  apply (defaults_without_arguments
           no_environment insertion_order
           [help; fst (defStr "b" (enumSpec "mode" "m" "" ["a"; "b"] true));
            intSpec "count" "c" "" false] "prog").
  - intros theMap. apply Permutation_refl.
  - reflexivity.
  - repeat constructor.
    exact (B_qualify (QdefStr "b") _ (B_enum "mode" "m" "" ["a"; "b"] true)).
  - intros spec _ _. reflexivity.
  - intros spec [<-|[<-|[<-|[]]]]; cbn; congruence.
Defined.

(** ** Kinds of option in the loop *)

(** X9. In the turn of an enumeration option the argument is accepted when
    it is, character for character, one of the values: the option is then
    defined, its string is the argument and its integer the position of the
    argument's first occurrence among the values. Any other argument makes
    [process] return false, with a message that lists the values between
    parentheses, separated by ", ". *)
Theorem enumeration_check :
  forall (getenv : string -> option string) (iteration : MapType -> MapType)
         (specList : list OptionSpec) (arguments : list string)
         (skipProgramName : bool) (theMap : MapType) (st : ScanState)
         (arg argValue : string) (rest : list string)
         (spec : OptionSpec) (value : ProxyValue),
    m_specListOkay (fst (new_Parsley specList)) = true ->
    seed_all getenv specList [] = inr theMap ->
    Reaches specList (initial_state theMap)
            (if skipProgramName then tl arguments else arguments)
            st (arg :: argValue :: rest) ->
    option_turn st arg ->
    select_spec specList arg = inr (Some spec) ->
    map_find (values st) (m_longName spec) = Some value ->
    m_alreadySpecified value = false ->
    m_kind spec = kEnum ->
    (In argValue (m_enumOptions spec) ->
     exists i,
       nth_error (m_enumOptions spec) i = Some argValue
       /\ (forall j, (j < i)%nat ->
                     nth_error (m_enumOptions spec) j <> Some argValue)
       /\ scan_step specList st arg (Some argValue)
          = accepted spec
              (stored st spec
                 (with_isDefined true
                    (with_str argValue
                       (with_ival (Z.of_nat i)
                          (with_alreadySpecified true value))))))
    /\ (~ In argValue (m_enumOptions spec) ->
        process getenv iteration (fst (new_Parsley specList))
                arguments skipProgramName
        = Failure ("invalid value for " ++ name spec ++ " : " ++ argValue
                   ++ " is not one of (" ++ join (m_enumOptions spec) ", "
                   ++ ")")).
Proof.
  intros getenv iteration specList arguments skipProgramName theMap st
         arg argValue rest spec value Hok Hseed Hreach Hturn Hsel Hfind Hdup K.
  pose proof (option_turn_step specList st arg (Some argValue) spec value
                Hturn Hsel Hfind Hdup) as Hstep.
  unfold apply_option in Hstep. rewrite K in Hstep.
  cbn [CHECK_ARGUMENT ival with_ival] in Hstep.
  split.
  - intros Hin.
    destruct (indexOf_first _ _ Hin) as (i & Hi & Hnth & Hfirst).
    exists i. split; [exact Hnth|]. split; [exact Hfirst|].
    rewrite Hstep, Hi.
    destruct (Z.ltb_spec (Z.of_nat i) 0); [lia|]. reflexivity.
  - intros Hout.
    apply (failing_turn getenv iteration specList arguments skipProgramName
             theMap st arg (argValue :: rest) _ Hok Hseed Hreach).
    cbn [hd_error]. rewrite Hstep.
    rewrite (proj2 (indexOf_missing _ _) Hout). cbn [Z.ltb Z.compare].
    unfold enum_set. rewrite K. reflexivity.
Qed.

Lemma enumeration_check_witness :
  process no_environment insertion_order
          (fst (new_Parsley [enumSpec "mode" "m" "" ["fast"; "slow"] false]))
          ["prog"; "--mode"; "Fast"] true
  = Failure ("invalid value for -m, --mode : Fast is not one of "
             ++ "(fast, slow)").
Proof.
  refine (proj2 (enumeration_check
                   no_environment insertion_order
                   [enumSpec "mode" "m" "" ["fast"; "slow"] false]
                   ["prog"; "--mode"; "Fast"] true _
                   (initial_state _) "--mode" "Fast" []
                   (enumSpec "mode" "m" "" ["fast"; "slow"] false) _
                   _ _ _ _ _ _ _ _) _).
  - reflexivity.
  - reflexivity.
  - apply Reaches_here.
  - repeat split.
  - reflexivity.
  - reflexivity.
  - reflexivity.
  - reflexivity.
  - intros [H|[H|[]]]; discriminate.
Defined.

(** X10. Which options take the next argument. A flag takes none: the loop
    goes on with the argument behind the flag. A string option takes the
    next argument as it is, whatever it looks like. An option of any kind
    but flag that is the last argument makes [process] return false with
    "option <name> requires an argument.". *)
Theorem option_and_its_argument :
  forall (getenv : string -> option string) (iteration : MapType -> MapType)
         (specList : list OptionSpec) (arguments : list string)
         (skipProgramName : bool) (theMap : MapType) (st : ScanState)
         (arg : string) (rest : list string)
         (spec : OptionSpec) (value : ProxyValue),
    m_specListOkay (fst (new_Parsley specList)) = true ->
    seed_all getenv specList [] = inr theMap ->
    Reaches specList (initial_state theMap)
            (if skipProgramName then tl arguments else arguments)
            st (arg :: rest) ->
    option_turn st arg ->
    select_spec specList arg = inr (Some spec) ->
    map_find (values st) (m_longName spec) = Some value ->
    m_alreadySpecified value = false ->
    (m_kind spec = kFlag ->
     scan_step specList st arg (hd_error rest)
     = if m_isSingleton spec
       then StepReturn
              (stored st spec
                 (with_isDefined true
                    (with_flag true (with_alreadySpecified true value))))
       else StepContinue
              (stored st spec
                 (with_isDefined true
                    (with_flag true (with_alreadySpecified true value))))
              false)
    /\ (m_kind spec = kStr ->
        forall argValue rest', rest = argValue :: rest' ->
          scan_step specList st arg (hd_error rest)
          = accepted spec
              (stored st spec
                 (with_isDefined true
                    (with_str argValue (with_alreadySpecified true value)))))
    /\ (m_kind spec <> kFlag -> rest = [] ->
        process getenv iteration (fst (new_Parsley specList))
                arguments skipProgramName
        = Failure ("option " ++ name spec ++ " requires an argument.")).
Proof.
  intros getenv iteration specList arguments skipProgramName theMap st
         arg rest spec value Hok Hseed Hreach Hturn Hsel Hfind Hdup.
  pose proof (option_turn_step specList st arg (hd_error rest) spec value
                Hturn Hsel Hfind Hdup) as Hstep.
  unfold apply_option in Hstep.
  split; [|split].
  - intros K. rewrite K in Hstep. exact Hstep.
  - intros K argValue rest' ->. rewrite K in Hstep. exact Hstep.
  - intros K ->.
    apply (failing_turn getenv iteration specList arguments skipProgramName
             theMap st arg [] _ Hok Hseed Hreach).
    rewrite Hstep. destruct (m_kind spec); try reflexivity. congruence.
Qed.

Lemma option_and_its_argument_witness :
  scan_step [strSpec "name" "n" "" false]
            (initial_state
               [("name",
                 {| isDefined := false; flag := false; str := ""; ival := 0;
                    real := Double.zero; m_alreadySpecified := false;
                    m_spec := strSpec "name" "n" "" false |})])
            "-n" (hd_error ["--"; "file"])
  = accepted (strSpec "name" "n" "" false)
      (stored
         (initial_state
            [("name",
              {| isDefined := false; flag := false; str := ""; ival := 0;
                 real := Double.zero; m_alreadySpecified := false;
                 m_spec := strSpec "name" "n" "" false |})])
         (strSpec "name" "n" "" false)
         (with_isDefined true
            (with_str "--"
               (with_alreadySpecified true
                  {| isDefined := false; flag := false; str := ""; ival := 0;
                     real := Double.zero; m_alreadySpecified := false;
                     m_spec := strSpec "name" "n" "" false |})))).
Proof.
  refine (proj1 (proj2 (option_and_its_argument
                          no_environment insertion_order
                          [strSpec "name" "n" "" false]
                          ["prog"; "-n"; "--"; "file"] true _
                          (initial_state _) "-n" ["--"; "file"]
                          (strSpec "name" "n" "" false) _
                          _ _ _ _ _ _ _)) eq_refl "--" ["file"] eq_refl).
  - reflexivity.
  - reflexivity.
  - apply Reaches_here.
  - repeat split.
  - reflexivity.
  - reflexivity.
  - reflexivity.
Defined.

Lemma find_short_none : forall specList c,
    (forall spec, In spec specList -> m_shortName spec <> c) ->
    find_short specList c = None.
Proof.
  induction specList as [|s rest IH]; intros c H; cbn [find_short].
  - reflexivity.
  - destruct (Ascii.eqb_spec (m_shortName s) c) as [Heq|Hne].
    + now destruct (H s (or_introl eq_refl)).
    + apply IH. intros spec Hin. apply H. now right.
Qed.

Lemma find_long_none : forall specList longName,
    (forall spec, In spec specList -> m_longName spec <> longName) ->
    find_long specList longName = None.
Proof.
  induction specList as [|s rest IH]; intros longName H; cbn [find_long].
  - reflexivity.
  - destruct (String.eqb_spec (m_longName s) longName) as [Heq|Hne].
    + now destruct (H s (or_introl eq_refl)).
    + apply IH. intros spec Hin. apply H. now right.
Qed.

Lemma select_spec_long : forall specList longName,
    longName <> "" ->
    select_spec specList ("--" ++ longName)
    = inr (find_long specList longName).
Proof.
  intros specList longName Hne. unfold select_spec.
  destruct longName as [|c tail]; [congruence|].
  change ("--" ++ String c tail) with (String "-" (String "-" (String c tail))).
  change (length (String "-" (String "-" (String c tail))))
    with (S (S (S (length tail)))).
  change (substring 0 2 (String "-" (String "-" (String c tail)))) with "--".
  change (substring 2 (S (S (S (length tail))) - 2)
                    (String "-" (String "-" (String c tail))))
    with (String c (substring 0 (length tail) tail)).
  rewrite substring_whole by lia. reflexivity.
Qed.

Lemma select_spec_short : forall specList c,
    select_spec specList (String "-" (String c "")) = inr (find_short specList c).
Proof. reflexivity. Qed.

(** X11. An argument in the place of an option that is none. A dash and one
    character that is the short name of no specification, and two dashes
    and a name that is the long name of none, make [process] return false
    with "no such option: " and the argument. A lone dash, and one dash
    followed by more than one character, make it return false with "invalid
    option format: " and the argument: short options cannot be put
    together. *)
Theorem unknown_option_is_refused :
  forall (getenv : string -> option string) (iteration : MapType -> MapType)
         (specList : list OptionSpec) (arguments : list string)
         (skipProgramName : bool) (theMap : MapType) (st : ScanState)
         (arg : string) (rest : list string),
    m_specListOkay (fst (new_Parsley specList)) = true ->
    seed_all getenv specList [] = inr theMap ->
    Reaches specList (initial_state theMap)
            (if skipProgramName then tl arguments else arguments)
            st (arg :: rest) ->
    optionsComplete st = false ->
    (forall c, arg = String "-" (String c "") -> c <> "-"%char ->
               (forall spec, In spec specList -> m_shortName spec <> c) ->
               process getenv iteration (fst (new_Parsley specList))
                       arguments skipProgramName
               = Failure ("no such option: " ++ arg))
    /\ (forall longName, arg = "--" ++ longName -> longName <> "" ->
                         (forall spec, In spec specList ->
                                       m_longName spec <> longName) ->
                         process getenv iteration (fst (new_Parsley specList))
                                 arguments skipProgramName
                         = Failure ("no such option: " ++ arg))
    /\ (arg = "-"
        \/ (exists c tail, arg = String "-" (String c tail)
                           /\ c <> "-"%char /\ tail <> "") ->
        process getenv iteration (fst (new_Parsley specList))
                arguments skipProgramName
        = Failure ("invalid option format: " ++ arg)).
Proof.
  intros getenv iteration specList arguments skipProgramName theMap st
         arg rest Hok Hseed Hreach Hc.
  pose proof (failing_turn getenv iteration specList arguments skipProgramName
                theMap st arg rest) as Hfail.
  split; [|split].
  - intros c -> Hdash Hnone. apply Hfail; auto.
    unfold scan_step, recognise. rewrite Hc, select_spec_short.
    rewrite (find_short_none _ _ Hnone).
    replace (String "-" (String c "") =? "--") with false; [reflexivity|].
    symmetry. apply String.eqb_neq. congruence.
  - intros longName -> Hne Hnone. apply Hfail; auto.
    unfold scan_step, recognise.
    rewrite Hc, (select_spec_long _ _ Hne), (find_long_none _ _ Hnone).
    replace ("--" ++ longName =? "--") with false; [reflexivity|].
    symmetry. apply String.eqb_neq. destruct longName; [congruence|discriminate].
  - intros [->|(c & tail & -> & Hdash & Htail)]; apply Hfail; auto.
    { unfold scan_step, recognise. now rewrite Hc. }
    unfold scan_step, recognise. rewrite Hc.
    replace (String "-" (String c tail) =? "--") with false
      by (symmetry; apply String.eqb_neq; congruence).
    cbn [is_parameter length Nat.eqb get orb negb].
    change (Ascii.eqb "-" "-") with true. cbn [negb].
    unfold select_spec.
    destruct tail as [|c' tail]; [congruence|].
    cbn [length Nat.eqb Nat.leb andb].
    replace (substring 0 2 (String "-" (String c (String c' tail))) =? "--")
      with false; [reflexivity|].
    symmetry. apply String.eqb_neq. cbn. congruence.
Qed.

Lemma unknown_option_is_refused_witness :
  process no_environment insertion_order
          (fst (new_Parsley [help; flagSpec "all" "a" "" false;
                             flagSpec "long" "l" "" false]))
          ["prog"; "-a"; "-al"] true
  = Failure "invalid option format: -al".
Proof.
  refine (proj2 (proj2 (unknown_option_is_refused
                          no_environment insertion_order
                          [help; flagSpec "all" "a" "" false;
                           flagSpec "long" "l" "" false]
                          ["prog"; "-a"; "-al"] true _ _ "-al" []
                          _ _ _ _)) _).
  - reflexivity.
  - reflexivity.
  - eapply Reaches_turn; [reflexivity|apply Reaches_here].
  - reflexivity.
  - right. exists "a"%char, "l". repeat split; discriminate.
Defined.

(** ** The two forms of an option *)

Lemma find_short_unique : forall specList spec,
    conflict_free specList -> In spec specList ->
    m_shortName spec <> no_short_name ->
    find_short specList (m_shortName spec) = Some spec.
Proof.
  induction specList as [|s rest IH]; intros spec Hfree Hin Hshort.
  - contradiction.
  - cbn [find_short].
    destruct (Ascii.eqb_spec (m_shortName s) (m_shortName spec)) as [Heq|Hne].
    + destruct Hin as [->|Hin]; [reflexivity|].
      apply In_nth_error in Hin. destruct Hin as [j Hj].
      pose proof (Hfree 0%nat (S j) s spec ltac:(lia) eq_refl Hj) as Hc.
      unfold conflicting in Hc. rewrite Heq, Ascii.eqb_refl in Hc.
      apply Ascii.eqb_neq in Hshort. rewrite Hshort, orb_true_r in Hc.
      discriminate.
    + destruct Hin as [->|Hin]; [congruence|].
      apply IH; auto. now apply conflict_free_tail with s.
Qed.

Lemma find_long_unique : forall specList spec,
    conflict_free specList -> In spec specList ->
    find_long specList (m_longName spec) = Some spec.
Proof.
  induction specList as [|s rest IH]; intros spec Hfree Hin.
  - contradiction.
  - cbn [find_long].
    destruct (String.eqb_spec (m_longName s) (m_longName spec)) as [Heq|Hne].
    + destruct Hin as [->|Hin]; [reflexivity|].
      apply In_nth_error in Hin. destruct Hin as [j Hj].
      pose proof (Hfree 0%nat (S j) s spec ltac:(lia) eq_refl Hj) as Hc.
      unfold conflicting in Hc. rewrite Heq, String.eqb_refl in Hc.
      discriminate.
    + destruct Hin as [->|Hin]; [congruence|].
      apply IH; auto. now apply conflict_free_tail with s.
Qed.

(** X12. In a valid registry the short form [-c] and the long form [--name]
    of an option select the same specification, and the turn of the loop for
    the one does what the turn for the other does, messages included. This
    needs a long name that is not empty and a short name that is not the
    dash: ["--"] is the terminator, whatever the registry holds. *)
Theorem short_and_long_form_agree :
  forall (specList : list OptionSpec) (spec : OptionSpec) (st : ScanState)
         (next : option string),
    m_specListOkay (fst (new_Parsley specList)) = true ->
    In spec specList ->
    m_shortName spec <> no_short_name ->
    m_shortName spec <> "-"%char ->
    m_longName spec <> "" ->
    optionsComplete st = false ->
    select_spec specList (String "-" (String (m_shortName spec) ""))
    = inr (Some spec)
    /\ select_spec specList ("--" ++ m_longName spec) = inr (Some spec)
    /\ scan_step specList st (String "-" (String (m_shortName spec) "")) next
       = scan_step specList st ("--" ++ m_longName spec) next.
Proof.
  intros specList spec st next Hok Hin Hshort Hdash Hlong Hc.
  apply specListOkay_iff in Hok.
  assert (Hs : select_spec specList (String "-" (String (m_shortName spec) ""))
               = inr (Some spec)).
  { rewrite select_spec_short. f_equal. now apply find_short_unique. }
  assert (Hl : select_spec specList ("--" ++ m_longName spec)
               = inr (Some spec)).
  { rewrite select_spec_long by exact Hlong. f_equal.
    now apply find_long_unique. }
  split; [exact Hs|]. split; [exact Hl|].
  unfold scan_step, recognise. rewrite Hc, Hs, Hl.
  replace (String "-" (String (m_shortName spec) "") =? "--") with false
    by (symmetry; apply String.eqb_neq; congruence).
  replace ("--" ++ m_longName spec =? "--") with false.
  2:{ symmetry. apply String.eqb_neq.
      destruct (m_longName spec); [congruence|discriminate]. }
  reflexivity.
Qed.

Lemma short_and_long_form_agree_witness :
  scan_step [help; intSpec "count" "c" "" false]
            (initial_state
               (seeded no_environment [help; intSpec "count" "c" "" false]))
            "-c" (Some "x")
  = scan_step [help; intSpec "count" "c" "" false]
              (initial_state
                 (seeded no_environment [help; intSpec "count" "c" "" false]))
              "--count" (Some "x").
Proof.
  refine (proj2 (proj2 (short_and_long_form_agree
                          [help; intSpec "count" "c" "" false]
                          (intSpec "count" "c" "" false)
                          (initial_state
                             (seeded no_environment
                                     [help; intSpec "count" "c" "" false]))
                          (Some "x") _ _ _ _ _ _))).
  - reflexivity.
  - right. left. reflexivity.
  - discriminate.
  - discriminate.
  - discriminate.
  - reflexivity.
Defined.

(** ** Values of the environment that Phase A refuses *)

(** Phase A takes what is not refused: a default, or a value of the
    environment that the option can take. *)
Lemma seed_unless_refused : forall getenv spec,
    (m_kind spec = kEnum -> m_defaultIsDefined spec = true ->
     In (m_defaultStr spec) (m_enumOptions spec)) ->
    (forall evValue, ~ refused getenv spec evValue) ->
    exists value, seed getenv spec = inr value.
Proof.
  intros getenv spec Hdefault Hfine.
  destruct (m_evIsDefined spec) eqn:Hev;
    [destruct (getenv (m_evName spec)) as [evValue|] eqn:Hget|].
  - specialize (Hfine evValue). unfold refused in Hfine.
    unfold seed. rewrite Hev, Hget.
    destruct (m_kind spec) eqn:K; try (eexists; reflexivity).
    + cbn [isDefined with_isDefined with_str with_ival ival str].
      destruct (indexOf (m_enumOptions spec) evValue <? 0)%Z eqn:Hi;
        [|eexists; reflexivity].
      exfalso. apply Hfine. repeat split; auto. left. split; [reflexivity|].
      intros Hin.
      pose proof (indexOf_from_found (m_enumOptions spec) evValue (-1)%Z
                    ltac:(lia) Hin) as H0.
      fold (indexOf (m_enumOptions spec) evValue) in H0.
      apply Z.ltb_lt in Hi. lia.
    + destruct (str2int evValue) eqn:Hi; [eexists; reflexivity|].
      exfalso. apply Hfine. repeat split; auto.
    + destruct (str2real evValue) eqn:Hr; [eexists; reflexivity|].
      exfalso. apply Hfine. repeat split; auto.
  - destruct (seed_default getenv spec) as (value & Hs & _); eauto.
    intros _. exact Hget.
  - destruct (seed_default getenv spec) as (value & Hs & _); eauto.
    intros H. congruence.
Qed.

(** Phase A stops at the first specification it cannot seed. *)
Lemma seed_all_first_failure :
  forall getenv before spec after theMap0 message,
    (forall other, In other before ->
                   exists value, seed getenv other = inr value) ->
    seed getenv spec = inl message ->
    seed_all getenv (app before (spec :: after)) theMap0 = inl message.
Proof.
  intros getenv before spec after. induction before as [|s rest IH];
    intros theMap0 message Hbefore Hseed; cbn [app seed_all].
  - now rewrite Hseed.
  - destruct (Hbefore s (or_introl eq_refl)) as (value & ->).
    apply IH; [|exact Hseed]. intros other Ho. apply Hbefore. now right.
Qed.

(** X13. A value of the environment that an Integer or Real option cannot
    read, and one that is none of the values of an enumeration, makes
    Phase A fail. [process] then returns false whatever its arguments are,
    a singleton such as [--help] among them, and its message is that of the
    first specification of the registry whose variable has such a value. *)
Theorem invalid_environment_value_is_fatal :
  forall (getenv : string -> option string) (iteration : MapType -> MapType)
         (before after : list OptionSpec) (spec : OptionSpec)
         (evValue : string),
    m_specListOkay (fst (new_Parsley (app before (spec :: after)))) = true ->
    Forall Buildable before ->
    (forall other value, In other before -> ~ refused getenv other value) ->
    refused getenv spec evValue ->
    seed getenv spec = inl (environment_message spec evValue)
    /\ forall arguments skipProgramName,
        process getenv iteration
                (fst (new_Parsley (app before (spec :: after))))
                arguments skipProgramName
        = Failure (environment_message spec evValue).
Proof.
  intros getenv iteration before after spec evValue Hok Hbuild Hfirst
         (Hev & Hget & Hbad).
  assert (Hseed : seed getenv spec = inl (environment_message spec evValue)).
  { unfold seed, environment_message. rewrite Hev, Hget.
    destruct Hbad as [[K Hout]|[[K Hnone]|[K Hnone]]]; rewrite K.
    - cbn [isDefined with_isDefined with_str with_ival ival str].
      rewrite (proj2 (indexOf_missing _ _) Hout). reflexivity.
    - rewrite Hnone. reflexivity.
    - rewrite Hnone. reflexivity. }
  split; [exact Hseed|].
  intros arguments skipProgramName. unfold process.
  rewrite new_Parsley_specList, Hok. cbn [negb].
  rewrite (seed_all_first_failure getenv before spec after []
             (environment_message spec evValue)); [reflexivity| |exact Hseed].
  intros other Ho. apply seed_unless_refused.
  - apply Buildable_enum_default.
    now apply (proj1 (Forall_forall Buildable before) Hbuild).
  - intros value. now apply Hfirst.
Qed.

Lemma invalid_environment_value_witness :
  process quiet_environment insertion_order
          (fst (new_Parsley
                  [help;
                   fst (envVar "ACE_QUIET" (intSpec "level" "l" "" false));
                   fst (envVar "ACE_QUIET" (realSpec "ratio" "r" "" false))]))
          ["prog"; "--help"] true
  = Failure ("invalid environment variable ACE_QUIET value for -l, --level"
             ++ " : 'YES' is not a valid integer.").
Proof.
  refine (proj2 (invalid_environment_value_is_fatal
                   quiet_environment insertion_order
                   [help]
                   [fst (envVar "ACE_QUIET" (realSpec "ratio" "r" "" false))]
                   (fst (envVar "ACE_QUIET" (intSpec "level" "l" "" false)))
                   "YES" eq_refl _ _ _) ["prog"; "--help"] true).
  - constructor; [apply B_help|constructor].
  - intros other value [<-|[]] (Hev & _). discriminate Hev.
  - split; [reflexivity|]. split; [reflexivity|].
    right. left. split; reflexivity.
Defined.

(** ** [stripString] *)

Lemma substring_split : forall (s : string) (n : nat),
    s = substring 0 n s ++ substring n (length s - n) s.
Proof.
  induction s as [|c s IH]; intros n.
  - destruct n; reflexivity.
  - destruct n as [|n].
    + cbn [substring append length Nat.sub].
      now rewrite substring_whole by lia.
    + cbn [substring append length Nat.sub]. now rewrite <- IH.
Qed.

Lemma length_substring : forall (s : string) (n m : nat),
    (n + m <= length s)%nat -> length (substring n m s) = m.
Proof.
  induction s as [|c s IH]; intros n m H.
  - cbn in H. destruct n, m; try lia; reflexivity.
  - destruct n as [|n].
    + destruct m as [|m]; [reflexivity|].
      cbn [substring length]. rewrite IH; [reflexivity|simpl in H; lia].
    + cbn [substring]. apply IH. simpl in H. lia.
Qed.

Lemma string_forall_substring : forall P (s : string) (n m : nat),
    (forall i c, (n <= i)%nat -> (i < n + m)%nat -> get i s = Some c ->
                 P c = true) ->
    string_forall P (substring n m s) = true.
Proof.
  intros P. induction s as [|c s IH]; intros n m H.
  - destruct n, m; reflexivity.
  - destruct n as [|n].
    + destruct m as [|m]; [reflexivity|].
      cbn [substring string_forall]. apply andb_true_iff. split.
      * apply (H 0%nat c); [lia|lia|reflexivity].
      * apply IH. intros i ch Hlo Hhi Hg.
        apply (H (S i) ch); [lia|lia|exact Hg].
    + cbn [substring]. apply IH. intros i ch Hlo Hhi Hg.
      apply (H (S i) ch); [lia|lia|exact Hg].
Qed.

Lemma get_in_range : forall (s : string) (i : nat),
    (i < length s)%nat -> exists c, get i s = Some c.
Proof.
  induction s as [|c s IH]; intros i H; simpl in H; [lia|].
  destruct i as [|i]; [now exists c|]. apply IH. lia.
Qed.

Lemma strip_end_cons : forall c s start e,
    strip_end (String c s) (S start) (S e) = S (strip_end s start e).
Proof.
  intros c s start. induction e as [|e IH].
  - cbn [strip_end]. replace (S start <? 1)%nat with false; [reflexivity|].
    symmetry. apply Nat.ltb_ge. lia.
  - change (strip_end (String c s) (S start) (S (S e)))
      with (if (S start <? S (S e))%nat
               && match get e s with Some c => isspace c | None => false end
            then strip_end (String c s) (S start) (S e)
            else S (S e)).
    change (strip_end s start (S e))
      with (if (start <? S e)%nat
               && match get e s with Some c => isspace c | None => false end
            then strip_end s start e
            else S e).
    change (S start <? S (S e))%nat with (start <? S e)%nat.
    rewrite IH.
    now destruct ((start <? S e)%nat
                  && match get e s with Some c => isspace c | None => false end).
Qed.

Lemma stripString_space : forall c s,
    isspace c = true -> stripString (String c s) = stripString s.
Proof.
  intros c s Hc. unfold stripString. cbn [strip_start length].
  rewrite Hc, strip_end_cons. reflexivity.
Qed.

Lemma strip_end_spec : forall s e,
    (e <= length s)%nat ->
    (strip_end s 0 e <= e)%nat
    /\ (forall i ch, (strip_end s 0 e <= i)%nat -> (i < e)%nat ->
                     get i s = Some ch -> isspace ch = true)
    /\ ((0 < strip_end s 0 e)%nat ->
        exists ch, get (strip_end s 0 e - 1) s = Some ch
                   /\ isspace ch = false).
Proof.
  intros s. induction e as [|e IH]; intros He.
  - cbn. repeat split; intros; lia.
  - change (strip_end s 0 (S e))
      with (if (0 <? S e)%nat
               && match get e s with Some c => isspace c | None => false end
            then strip_end s 0 e
            else S e).
    change (0 <? S e)%nat with true. cbn [andb].
    destruct (get_in_range s e ltac:(lia)) as [c Hc]. rewrite Hc.
    destruct (isspace c) eqn:Hsp.
    + destruct (IH ltac:(lia)) as (Hle & Hsp' & Hlast).
      split; [lia|]. split; [|exact Hlast].
      intros i ch Hlo Hhi Hg.
      destruct (Nat.eq_dec i e) as [->|Hne]; [congruence|].
      apply (Hsp' i ch); [exact Hlo|lia|exact Hg].
    + split; [lia|]. split; [intros; lia|].
      intros _. exists c. cbn [Nat.sub]. rewrite Nat.sub_0_r. auto.
Qed.

Lemma stripString_spec : forall text,
    exists before after,
      text = before ++ stripString text ++ after
      /\ string_forall isspace before = true
      /\ string_forall isspace after = true
      /\ (stripString text = ""
          \/ (exists c r, stripString text = String c r /\ isspace c = false)
             /\ (exists ch,
                    get (length (stripString text) - 1) (stripString text)
                    = Some ch
                    /\ isspace ch = false)).
Proof.
  induction text as [|c s IH].
  - exists "", "". split; [reflexivity|]. split; [reflexivity|].
    split; [reflexivity|]. left. reflexivity.
  - destruct (isspace c) eqn:Hc.
    + rewrite (stripString_space c s Hc).
      destruct IH as (before & after & Hs & Hb & Ha & Hcase).
      exists (String c before), after. cbn [append string_forall].
      rewrite <- Hs, Hc, Hb. auto.
    + clear IH. unfold stripString. cbn [strip_start]. rewrite Hc.
      rewrite Nat.sub_0_r.
      set (t := String c s).
      destruct (strip_end_spec t (length t) (le_n _)) as (Hle & Hsp & Hlast).
      set (e := strip_end t 0 (length t)) in *.
      assert (He : (0 < e)%nat).
      { destruct e as [|e']; [|lia]. exfalso.
        rewrite (Hsp 0%nat c) in Hc; [discriminate|lia|cbn; lia|reflexivity]. }
      exists "", (substring e (length t - e) t).
      split; [apply substring_split|]. split; [reflexivity|].
      split.
      { apply string_forall_substring. intros i ch Hlo Hhi Hg.
        apply (Hsp i ch); [exact Hlo|lia|exact Hg]. }
      right. split.
      * destruct e as [|e']; [lia|]. exists c, (substring 0 e' s).
        split; [reflexivity|exact Hc].
      * destruct (Hlast He) as (ch & Hg & Hch). exists ch.
        split; [|exact Hch].
        rewrite length_substring by exact Hle.
        rewrite substring_correct1 by lia. now rewrite Nat.add_0_r.
Qed.

Lemma stripString_fixed : forall r,
    r = ""
    \/ (exists c r', r = String c r' /\ isspace c = false)
       /\ (exists ch, get (length r - 1) r = Some ch /\ isspace ch = false) ->
    stripString r = r.
Proof.
  intros r [->|[(c & r' & -> & Hc) (ch & Hg & Hch)]]; [reflexivity|].
  unfold stripString. cbn [strip_start]. rewrite Hc, Nat.sub_0_r.
  cbn [length] in *.
  change (strip_end (String c r') 0 (S (length r')))
    with (if (0 <? S (length r'))%nat
             && match get (length r') (String c r') with
                | Some c => isspace c
                | None => false
                end
          then strip_end (String c r') 0 (length r')
          else S (length r')).
  cbn [Nat.sub] in Hg. rewrite Nat.sub_0_r in Hg. rewrite Hg, Hch, andb_false_r.
  apply substring_whole. cbn. lia.
Qed.

(** X14. [stripString] takes the white space off both ends and nothing
    else: the string is white space, the result, white space; the result is
    empty or begins and ends with a character that is no white space. To
    strip a stripped string changes nothing. *)
Theorem stripString_strips_both_ends :
  forall str : string,
    (exists before after,
        str = before ++ stripString str ++ after
        /\ string_forall isspace before = true
        /\ string_forall isspace after = true)
    /\ (forall c rest, stripString str = String c rest -> isspace c = false)
    /\ (forall front c, stripString str = front ++ String c "" ->
                        isspace c = false)
    /\ stripString (stripString str) = stripString str.
Proof.
  intros str.
  destruct (stripString_spec str) as (before & after & Hs & Hb & Ha & Hcase).
  split; [now exists before, after|].
  split; [|split].
  - intros c rest E.
    destruct Hcase as [H|[(c' & r & H & Hc) _]]; congruence.
  - intros front c E.
    destruct Hcase as [H|[_ (ch & Hg & Hch)]].
    + rewrite H in E. destruct front; discriminate.
    + rewrite E in Hg. rewrite length_append in Hg. cbn [length] in Hg.
      replace (length front + 1 - 1)%nat with (0 + length front)%nat in Hg
        by lia.
      rewrite <- (append_correct2 front (String c "") 0) in Hg. cbn in Hg.
      congruence.
  - now apply stripString_fixed.
Qed.

Lemma stripString_strips_both_ends_witness :
  (exists before after,
      "  a b " = before ++ stripString "  a b " ++ after
      /\ string_forall isspace before = true
      /\ string_forall isspace after = true)
  /\ isspace "a" = false.
Proof.
  split.
  - exact (proj1 (stripString_strips_both_ends "  a b ")).
  - apply (proj1 (proj2 (stripString_strips_both_ends "  a b ")) "a"%char
                 " b").
    reflexivity.
Defined.

(** ** White space around a number *)

Lemma substring_append_left : forall r a : string,
    substring 0 (length r) (r ++ a) = r.
Proof.
  induction r as [|c r IH]; intros a.
  - destruct a; reflexivity.
  - cbn [length append substring]. now rewrite IH.
Qed.

Lemma stripString_spaces : forall a,
    string_forall isspace a = true -> stripString a = "".
Proof.
  induction a as [|c a IH]; intros H; [reflexivity|].
  cbn [string_forall] in H. apply andb_true_iff in H. destruct H as [Hc Ha].
  rewrite stripString_space by exact Hc. now apply IH.
Qed.

Lemma strip_end_trailing : forall r a k,
    (exists ch, get (length r - 1) r = Some ch /\ isspace ch = false) ->
    string_forall isspace a = true ->
    (k <= length a)%nat ->
    strip_end (r ++ a) 0 (length r + k) = length r.
Proof.
  intros r a k (ch & Hg & Hch) Ha. induction k as [|k IH]; intros Hk.
  - rewrite Nat.add_0_r.
    destruct r as [|c r]; [discriminate|].
    cbn [length Nat.sub] in Hg. rewrite Nat.sub_0_r in Hg.
    cbn [length].
    change (strip_end (String c r ++ a) 0 (S (length r)))
      with (if (0 <? S (length r))%nat
               && match get (length r) (String c r ++ a) with
                  | Some c => isspace c
                  | None => false
                  end
            then strip_end (String c r ++ a) 0 (length r)
            else S (length r)).
    rewrite <- (append_correct1 (String c r) a (length r)) by (cbn; lia).
    now rewrite Hg, Hch, andb_false_r.
  - rewrite Nat.add_succ_r.
    change (strip_end (r ++ a) 0 (S (length r + k)))
      with (if (0 <? S (length r + k))%nat
               && match get (length r + k) (r ++ a) with
                  | Some c => isspace c
                  | None => false
                  end
            then strip_end (r ++ a) 0 (length r + k)
            else S (length r + k)).
    destruct (get_in_range a k ltac:(lia)) as [c Hc].
    rewrite (Nat.add_comm (length r) k) at 2.
    rewrite <- (append_correct2 r a k), Hc.
    rewrite (string_forall_get _ _ _ _ Ha Hc).
    change (0 <? S (length r + k))%nat with true. cbn [andb].
    apply IH. lia.
Qed.

(** The string that [stripString] returns is the only one of its form
    between white space. *)
Lemma stripString_unique : forall before r after,
    string_forall isspace before = true ->
    string_forall isspace after = true ->
    r = ""
    \/ (exists c r', r = String c r' /\ isspace c = false)
       /\ (exists ch, get (length r - 1) r = Some ch /\ isspace ch = false) ->
    stripString (before ++ r ++ after) = r.
Proof.
  induction before as [|b before IH]; intros r after Hb Ha Hr.
  - cbn [append].
    destruct Hr as [->|[(c & r' & -> & Hc) Hlast]].
    + now apply stripString_spaces.
    + unfold stripString.
      change (strip_start (String c r' ++ after)) with
        (if isspace c then S (strip_start (r' ++ after)) else 0%nat).
      rewrite Hc, Nat.sub_0_r, length_append.
      rewrite (strip_end_trailing (String c r') after (length after) Hlast Ha
                 (le_n _)).
      apply substring_append_left.
  - cbn [string_forall] in Hb. apply andb_true_iff in Hb.
    destruct Hb as [Hb0 Hb]. cbn [append].
    rewrite stripString_space by exact Hb0. now apply IH.
Qed.

Lemma has_sentinel_mark_get : forall s,
    has_sentinel_mark s
    <-> exists i, get i s = Some "!"%char /\ get (S i) s = Some "!"%char.
Proof.
  intros s. split.
  - intros (before & after & ->). exists (length before).
    split.
    + replace (length before) with (0 + length before)%nat by lia.
      now rewrite <- append_correct2.
    + replace (S (length before)) with (1 + length before)%nat by lia.
      now rewrite <- append_correct2.
  - intros (i & H0 & H1). revert s H0 H1.
    induction i as [|i IH]; intros s H0 H1.
    + destruct s as [|c0 [|c1 s]]; try discriminate.
      cbn in H0, H1. injection H0 as ->. injection H1 as ->.
      now exists "", s.
    + destruct s as [|c s]; [discriminate|].
      destruct (IH s H0 H1) as (before & after & ->).
      now exists (String c before), after.
Qed.

Lemma get_append : forall (s t : string) (i : nat),
    get i (s ++ t)
    = if (i <? length s)%nat then get i s else get (i - length s) t.
Proof.
  intros s t i. destruct (Nat.ltb_spec i (length s)) as [H|H].
  - symmetry. now apply append_correct1.
  - replace i with ((i - length s) + length s)%nat at 1 by lia.
    symmetry. apply append_correct2.
Qed.

(** White space at the ends holds no part of a mark. *)
Lemma has_sentinel_mark_between : forall before r after,
    string_forall isspace before = true ->
    string_forall isspace after = true ->
    has_sentinel_mark (before ++ r ++ after) <-> has_sentinel_mark r.
Proof.
  intros before r after Hb Ha. split.
  - rewrite !has_sentinel_mark_get. intros (i & H0 & H1).
    assert (Hnot : forall s j, string_forall isspace s = true ->
                               get j s <> Some "!"%char).
    { intros s j Hs Hg.
      pose proof (string_forall_get _ _ _ _ Hs Hg) as E. discriminate E. }
    rewrite get_append in H0, H1.
    destruct (Nat.ltb_spec i (length before)) as [Hi|Hi];
      [now destruct (Hnot before i Hb)|].
    destruct (Nat.ltb_spec (S i) (length before)) as [Hi'|_]; [lia|].
    rewrite get_append in H0, H1.
    replace (S i - length before)%nat with (S (i - length before)) in H1
      by lia.
    exists (i - length before)%nat.
    destruct (Nat.ltb_spec (S (i - length before)) (length r)) as [H2|H2];
      [|now destruct (Hnot after _ Ha H1)].
    destruct (Nat.ltb_spec (i - length before) (length r)) as [H3|H3]; [|lia].
    auto.
  - intros (b & a & ->). exists (before ++ b), (a ++ after).
    now rewrite !append_assoc.
Qed.

Lemma str2real_stripped : forall str, str2real str = str2real (stripString str).
Proof.
  intros str.
  destruct (stripString_spec str) as (before & after & Hs & Hb & Ha & Hcase).
  pose proof (has_sentinel_mark_between before (stripString str) after Hb Ha)
    as Hmark.
  rewrite <- Hs in Hmark.
  unfold str2real. rewrite (stripString_fixed _ Hcase).
  assert (Hfound : forall s n, index 0 "!!" s = Some n -> has_sentinel_mark s).
  { intros s n E. apply index_correct1 in E.
    destruct (substring_infix s n (length "!!")) as (b & a & Hstr).
    rewrite E in Hstr. now exists b, a. }
  destruct (index 0 "!!" str) eqn:H1;
    destruct (index 0 "!!" (stripString str)) eqn:H2; try reflexivity.
  - exfalso. apply (index_none_no_mark _ H2), Hmark. now apply Hfound with n.
  - exfalso. apply (index_none_no_mark _ H1), Hmark. now apply Hfound with n.
Qed.

Lemma str2int_stripped : forall str, str2int str = str2int (stripString str).
Proof.
  intros str. unfold str2int. rewrite <- str2real_stripped.
  destruct (stripString_spec str) as (_ & _ & _ & _ & _ & Hcase).
  now rewrite (stripString_fixed _ Hcase).
Qed.

(** X15. [str2real] and [str2int] do not see the white space around a
    number: what they return for a string is what they return for the
    string without it. *)
Theorem white_space_around_a_number :
  forall before str after : string,
    string_forall isspace before = true ->
    string_forall isspace after = true ->
    str2real (before ++ str ++ after) = str2real str
    /\ str2int (before ++ str ++ after) = str2int str.
Proof.
  intros before str after Hb Ha.
  assert (Hstrip : stripString (before ++ str ++ after) = stripString str).
  { destruct (stripString_spec str) as (b & a & Hs & Hb' & Ha' & Hcase).
    rewrite Hs at 1.
    replace (before ++ (b ++ stripString str ++ a) ++ after)
      with ((before ++ b) ++ stripString str ++ (a ++ after))
      by now rewrite !append_assoc.
    apply stripString_unique; [| |exact Hcase];
      rewrite string_forall_append; apply andb_true_iff; auto. }
  split.
  - now rewrite str2real_stripped, Hstrip, <- str2real_stripped.
  - now rewrite str2int_stripped, Hstrip, <- str2int_stripped.
Qed.

Lemma white_space_around_a_number_witness :
  str2real ("  " ++ "4.5" ++ " ") = str2real "4.5"
  /\ str2int ("  " ++ "4.5" ++ " ") = str2int "4.5".
Proof.
  exact (white_space_around_a_number "  " "4.5" " " eq_refl eq_refl).
Defined.

(** ** What [str2int] takes for an integer *)

Lemma scan_number_digits : forall s acc count v count' rest,
    scan_number dec_digit 10 s acc count = (v, count', rest) ->
    exists digits,
      s = digits ++ rest
      /\ string_forall isdigit digits = true
      /\ count' = (count + length digits)%nat.
Proof.
  induction s as [|c s IH]; intros acc count v count' rest H;
    cbn [scan_number] in H.
  - injection H as _ <- <-. exists "". repeat split. cbn. lia.
  - unfold dec_digit in H. destruct (isdigit c) eqn:Hc.
    + destruct (IH _ _ _ _ _ H) as (digits & -> & Hd & ->).
      exists (String c digits). cbn [append string_forall length].
      rewrite Hc, Hd. repeat split. lia.
    + injection H as _ <- <-. exists "". repeat split. cbn. lia.
Qed.

Lemma append_cancel_r : forall u t d : string, t ++ u = d ++ u -> t = d.
Proof.
  intros u. induction t as [|c t IH]; intros d H.
  - destruct d as [|c d]; [reflexivity|].
    apply (f_equal length) in H. cbn [append length] in H.
    rewrite length_append in H. lia.
  - destruct d as [|c' d].
    + apply (f_equal length) in H. cbn [append length] in H.
      rewrite length_append in H. lia.
    + cbn [append] in H. injection H as -> H. f_equal. now apply IH.
Qed.

Lemma wrap_int_range : forall z, is_intp (wrap_int z).
Proof.
  intros z. unfold is_intp, wrap_int, int_min, int_max.
  pose proof (Z.mod_pos_bound (z + 2 ^ 31) (2 ^ 32) ltac:(lia)). lia.
Qed.

(** X16. What [str2int] takes for an integer is, between white space, an
    optional sign and decimal digits, one at least, and nothing else: no
    point, no exponent, no hexadecimal digits, neither [inf] nor [nan],
    which [str2real] takes. The integer it returns is one of [intp_t]. *)
Theorem str2int_reads_sign_and_digits :
  forall (str : string) (i : Z),
    str2int str = Some i ->
    is_intp i
    /\ exists sign digits,
        stripString str = sign ++ digits
        /\ (sign = "" \/ sign = "+" \/ sign = "-")
        /\ digits <> ""
        /\ string_forall isdigit digits = true.
Proof.
  intros str i H. apply str2int_verdict in H.
  destruct H as (r & _ & _ & _ & H).
  destruct (stripString_spec str) as (_ & _ & _ & _ & _ & Hcase).
  set (t := stripString str) in *.
  unfold Scanf.scan_int in H.
  assert (Hskip : skip_space (t ++ sentinel) = t ++ sentinel).
  { destruct Hcase as [->|[(c & r' & -> & Hc) _]]; [reflexivity|].
    cbn [append skip_space]. now rewrite Hc. }
  rewrite Hskip in H.
  assert (Hsign : exists sign t',
             t = sign ++ t' /\ (sign = "" \/ sign = "+" \/ sign = "-")
             /\ snd (scan_sign (t ++ sentinel)) = t' ++ sentinel).
  { destruct t as [|c t']; [exists "", ""; auto|].
    destruct (Ascii.eqb_spec c "-") as [->|H1]; [exists "-", t'; auto|].
    destruct (Ascii.eqb_spec c "+") as [->|H2]; [exists "+", t'; auto|].
    exists "", (String c t'). repeat split; auto.
    cbn [append]. unfold scan_sign.
    destruct c as [[] [] [] [] [] [] [] []]; try reflexivity; congruence. }
  destruct Hsign as (sign & t' & Ht & Hs & Hrest).
  destruct (scan_sign (t ++ sentinel)) as [neg s]. cbn [snd] in Hrest.
  subst s.
  destruct (scan_number dec_digit 10 (t' ++ sentinel) 0%N 0%nat)
    as [[v count] rest] eqn:Hn.
  destruct count as [|n]; [discriminate|].
  injection H as <- ->.
  split; [apply wrap_int_range|].
  destruct (scan_number_digits _ _ _ _ _ _ Hn) as (digits & Hd & Hall & Hlen).
  apply append_cancel_r in Hd. subst t'.
  exists sign, digits. repeat split; auto.
  intros ->. cbn in Hlen. lia.
Qed.

Lemma str2int_reads_sign_and_digits_witness :
  is_intp (-17)
  /\ exists sign digits,
      stripString "  -17 " = sign ++ digits
      /\ (sign = "" \/ sign = "+" \/ sign = "-")
      /\ digits <> ""
      /\ string_forall isdigit digits = true.
Proof.
  apply (str2int_reads_sign_and_digits "  -17 " (-17)%Z).
  vm_compute. reflexivity.
Defined.

Lemma of_decimal_integer : forall (neg : bool) (p : positive),
    (Zpos (digits2_pos p) < 53)%Z ->
    Double.of_decimal neg (Npos p) 0
    = S754_finite neg
        (Pos.iter xO p (Z.to_pos (53 - Zpos (digits2_pos p))))
        (Zpos (digits2_pos p) - 53).
Proof.
  intros neg p Hd. unfold Double.of_decimal. cbn [Z.leb Z.compare].
  replace (Z.to_pos (Zpos p * 10 ^ 0)) with p by (simpl; lia).
  now apply binary_round_integer.
Qed.

Lemma digits_of_big : forall p,
    (2 ^ 31 <= Zpos p < 2 ^ 52)%Z -> (32 <= Zpos (digits2_pos p) < 53)%Z.
Proof.
  intros p [Hlo Hhi].
  pose proof (digits2_pos_bounds p) as Hb.
  set (d := Zpos (digits2_pos p)) in *.
  split.
  - destruct (Z.le_gt_cases 32 d) as [|Hlt]; [assumption|exfalso].
    assert ((2 ^ d <= 2 ^ 31)%Z) by (apply Z.pow_le_mono_r; lia).
    lia.
  - destruct (Z.lt_ge_cases d 53) as [|Hge]; [assumption|exfalso].
    assert ((2 ^ 52 <= 2 ^ (d - 1))%Z) by (apply Z.pow_le_mono_r; lia).
    lia.
Qed.

(** An integer beyond [intp_t], of fewer than 53 bits, is below [dmin] or
    above [dmax] when it is read as a decimal number. *)
Lemma beyond_double_limits : forall (neg : bool) (n : N),
    (if neg then 2 ^ 31 < Z.of_N n else 2 ^ 31 <= Z.of_N n)%Z ->
    (Z.of_N n < 2 ^ 52)%Z ->
    if neg
    then Double.lt (Double.of_decimal neg n 0) dmin = true
    else Double.lt (Double.of_decimal neg n 0) dmin = false
         /\ Double.gt (Double.of_decimal neg n 0) dmax = true.
Proof.
  intros neg n Hbig Hlim.
  destruct n as [|p]; [destruct neg; cbn in Hbig; lia|].
  change (Z.of_N (N.pos p)) with (Zpos p) in *.
  assert (Hp : (2 ^ 31 <= Zpos p < 2 ^ 52)%Z) by (destruct neg; lia).
  pose proof (digits_of_big p Hp) as Hd.
  rewrite of_decimal_integer by lia.
  pose proof (iter_xO_value p (Z.to_pos (53 - Zpos (digits2_pos p)))) as Hmz.
  rewrite Z2Pos.id in Hmz by lia.
  generalize dependent (Pos.iter xO p (Z.to_pos (53 - Zpos (digits2_pos p)))).
  generalize dependent (Zpos (digits2_pos p)).
  intros d Hd mz Hmz.
  unfold Double.lt, Double.gt.
  change dmin with (S754_finite true 4503599627370496 (-21)).
  change dmax with (S754_finite false 9007199250546688 (-22)).
  destruct neg.
  - unfold SFltb. cbn [SFcompare].
    destruct (Z.compare_spec (d - 53) (-21)) as [He|He|He];
      [|lia|reflexivity].
    assert (Hgt : (Zpos 4503599627370496 < Zpos mz)%Z).
    { rewrite Hmz. replace (53 - d)%Z with 21%Z by lia.
      change (2 ^ 21)%Z with 2097152%Z.
      change (2 ^ 31)%Z with 2147483648%Z in Hbig. lia. }
    rewrite Pos.compare_cont_spec.
    destruct (Pos.compare_spec mz 4503599627370496) as [Hc|Hc|Hc].
    + subst mz. lia.
    + apply Pos2Z.pos_lt_pos in Hc. lia.
    + reflexivity.
  - split; [reflexivity|].
    unfold SFltb. cbn [SFcompare].
    destruct (Z.compare_spec (-22) (d - 53)); [lia|reflexivity|lia].
Qed.

(** What [str2real] reads from the decimal text of an integer. *)
Lemma str2real_decimal : forall (neg : bool) (n : N),
    str2real (Double.sign_text neg ++ utoa n)
    = Some (Double.of_decimal neg n 0).
Proof.
  intros neg n.
  pose proof (no_mark_in_number neg n) as Hclean.
  assert (Hidx : index 0 "!!" (Double.sign_text neg ++ utoa n) = None).
  { apply index_mark_none.
    apply string_forall_impl with (2 := Hclean).
    intros c Hc. now apply andb_true_iff in Hc. }
  assert (Hstrip : stripString (Double.sign_text neg ++ utoa n)
                   = Double.sign_text neg ++ utoa n).
  { apply stripString_unspaced.
    apply string_forall_impl with (2 := Hclean).
    intros c Hc. now apply andb_true_iff in Hc. }
  destruct (scan_text_of_number neg n) as [Hreal _].
  rewrite <- append_assoc in Hreal.
  apply str2real_verdict. rewrite Hstrip. auto.
Qed.

(** X17. [str2int] does not take an integer that [intp_t] cannot hold: the
    decimal text of an integer below -2^31 or above 2^31 - 1 is refused,
    the value is not reduced to the 32 bits. (Shown for the integers that a
    [double] holds exactly, those of a magnitude below 2^52.) *)
Theorem str2int_refuses_what_does_not_fit :
  forall i : Z,
    ~ is_intp i -> (Z.abs i < 2 ^ 52)%Z ->
    str2int (decimal_text i) = None.
Proof.
  intros i Hout Hsmall. unfold decimal_text.
  set (neg := (i <? 0)%Z). set (n := Z.to_N (Z.abs i)).
  pose proof (str2real_decimal neg n) as Hr.
  assert (Hn : (if neg then 2 ^ 31 < Z.of_N n else 2 ^ 31 <= Z.of_N n)%Z
               /\ (Z.of_N n < 2 ^ 52)%Z).
  { unfold is_intp, int_min, int_max in Hout. unfold neg, n.
    destruct (Z.ltb_spec i 0); lia. }
  destruct Hn as [Hbig Hlim].
  pose proof (beyond_double_limits neg n Hbig Hlim) as Hbeyond.
  unfold str2int. rewrite Hr.
  destruct neg.
  - now rewrite Hbeyond.
  - destruct Hbeyond as [-> ->]. reflexivity.
Qed.

Lemma str2int_refuses_what_does_not_fit_witness :
  str2int (decimal_text 2147483648) = None.
Proof.
  apply (str2int_refuses_what_does_not_fit 2147483648).
  - unfold is_intp, int_min, int_max. lia.
  - simpl. lia.
Defined.

(** ** Numbers on the command line and in the environment *)

(** X18. In the turn of an Integer or Real option, an argument that
    [str2int], respectively [str2real], does not read makes [process] return
    false with a message that quotes the argument. Without a range every
    number read is accepted. A Real option accepts [nan] whatever its range
    is: not-a-number is neither below the minimum nor above the maximum. *)
Theorem numeric_argument_must_parse :
  forall (getenv : string -> option string) (iteration : MapType -> MapType)
         (specList : list OptionSpec) (arguments : list string)
         (skipProgramName : bool) (theMap : MapType) (st : ScanState)
         (arg argValue : string) (rest : list string)
         (spec : OptionSpec) (value : ProxyValue),
    m_specListOkay (fst (new_Parsley specList)) = true ->
    seed_all getenv specList [] = inr theMap ->
    Reaches specList (initial_state theMap)
            (if skipProgramName then tl arguments else arguments)
            st (arg :: argValue :: rest) ->
    option_turn st arg ->
    select_spec specList arg = inr (Some spec) ->
    map_find (values st) (m_longName spec) = Some value ->
    m_alreadySpecified value = false ->
    (m_kind spec = kInt ->
     (str2int argValue = None ->
      process getenv iteration (fst (new_Parsley specList))
              arguments skipProgramName
      = Failure ("invalid value for " ++ name spec ++ " : '" ++ argValue
                 ++ "' is not a valid integer."))
     /\ (m_rangeIsDefined spec = false ->
         forall i, str2int argValue = Some i ->
           scan_step specList st arg (Some argValue)
           = accepted spec
               (stored st spec
                  (with_isDefined true
                     (with_ival i (with_alreadySpecified true value))))))
    /\ (m_kind spec = kReal ->
        (str2real argValue = None ->
         process getenv iteration (fst (new_Parsley specList))
                 arguments skipProgramName
         = Failure ("invalid value for " ++ name spec ++ " : '" ++ argValue
                    ++ "' is not a valid floating point number."))
        /\ (forall r, str2real argValue = Some r ->
              m_rangeIsDefined spec = false \/ r = Double.nan ->
              scan_step specList st arg (Some argValue)
              = accepted spec
                  (stored st spec
                     (with_isDefined true
                        (with_real r (with_alreadySpecified true value)))))).
Proof.
  intros getenv iteration specList arguments skipProgramName theMap st
         arg argValue rest spec value Hok Hseed Hreach Hturn Hsel Hfind Hdup.
  pose proof (option_turn_step specList st arg (Some argValue) spec value
                Hturn Hsel Hfind Hdup) as Hstep.
  pose proof (failing_turn getenv iteration specList arguments skipProgramName
                theMap st arg (argValue :: rest)) as Hfail.
  cbn [hd_error] in Hfail.
  unfold apply_option in Hstep.
  split; intros K; rewrite K in Hstep; cbn [CHECK_ARGUMENT] in Hstep; split.
  - intros Hnone. rewrite Hnone in Hstep. now apply Hfail.
  - intros Hrange i Hi. now rewrite Hi, Hrange in Hstep.
  - intros Hnone. rewrite Hnone in Hstep. now apply Hfail.
  - intros r Hr [Hrange| ->]; rewrite Hr in Hstep.
    + now rewrite Hrange in Hstep.
    + cbn [real with_real] in Hstep.
      replace (Double.lt Double.nan (m_minRealValue spec)) with false
        in Hstep by reflexivity.
      replace (Double.gt Double.nan (m_maxRealValue spec)) with false
        in Hstep by (unfold Double.gt, SFltb;
                     now destruct (m_maxRealValue spec)).
      now rewrite andb_false_r in Hstep.
Qed.

Lemma numeric_argument_must_parse_witness :
  process no_environment insertion_order (fst (new_Parsley [count_1_to_10]))
          ["prog"; "--count"; "1e1"] true
  = Failure "invalid value for -c, --count : '1e1' is not a valid integer.".
Proof.
  refine (proj1 (proj1 (numeric_argument_must_parse
                          no_environment insertion_order [count_1_to_10]
                          ["prog"; "--count"; "1e1"] true
                          [("count", count_seeded)]
                          (initial_state [("count", count_seeded)])
                          "--count" "1e1" [] count_1_to_10 count_seeded
                          _ _ _ _ _ _ _) eq_refl) _).
  - reflexivity.
  - reflexivity.
  - apply Reaches_here.
  - repeat split.
  - reflexivity.
  - reflexivity.
  - reflexivity.
  - vm_compute. reflexivity.
Defined.

(** X19. Phase A does not check an Integer or Real value of the environment
    against the range of the option: whatever the range, the number read
    from the variable becomes the option's value, and the option is
    defined. *)
Theorem environment_value_is_not_range_checked :
  forall (getenv : string -> option string) (spec : OptionSpec)
         (evValue : string),
    m_evIsDefined spec = true ->
    getenv (m_evName spec) = Some evValue ->
    (m_kind spec = kInt ->
     forall i, str2int evValue = Some i ->
       seed getenv spec
       = inr {| isDefined := true; flag := false; str := ""; ival := i;
                real := Double.zero; m_alreadySpecified := false;
                m_spec := spec |})
    /\ (m_kind spec = kReal ->
        forall r, str2real evValue = Some r ->
          seed getenv spec
          = inr {| isDefined := true; flag := false; str := ""; ival := 0;
                   real := r; m_alreadySpecified := false; m_spec := spec |})
    /\ (forall (specList : list OptionSpec) (theMap : MapType)
               (entry : ProxyValue),
           m_specListOkay (fst (new_Parsley specList)) = true ->
           In spec specList ->
           seed getenv spec = inr entry ->
           seed_all getenv specList [] = inr theMap ->
           map_find theMap (m_longName spec) = Some entry).
Proof.
  intros getenv spec evValue Hev Hget. split; [|split].
  - intros K i Hi. unfold seed. now rewrite K, Hev, Hget, Hi.
  - intros K r Hr. unfold seed. now rewrite K, Hev, Hget, Hr.
  - intros specList theMap entry Hok Hin Hs Hall.
    apply specListOkay_iff in Hok.
    destruct (seed_all_entries getenv specList [] theMap
                (conflict_free_long_names _ Hok) Hall) as (Hfind & _).
    destruct (Hfind spec Hin) as (value & Hs' & Hf). congruence.
Qed.

Lemma environment_value_is_not_range_checked_witness :
  seed count_environment (fst (envVar "COUNT" count_1_to_10))
  = inr {| isDefined := true; flag := false; str := ""; ival := 99;
           real := Double.zero; m_alreadySpecified := false;
           m_spec := fst (envVar "COUNT" count_1_to_10) |}.
Proof.
  apply (proj1 (environment_value_is_not_range_checked
                  count_environment (fst (envVar "COUNT" count_1_to_10))
                  "99" eq_refl eq_refl)).
  - reflexivity.
  - vm_compute. reflexivity.
Defined.

(** ** How the qualifier methods compose *)

(** X20. On an Integer option without default and range, a default and a
    range can be set in either order: the specification that results is the
    same, and so is what is written to [std::cerr], which is nothing when the
    default is within the range and one warning when it is not. A default
    outside the range is set all the same. The same holds of a Real
    option. *)
Theorem default_and_range_in_either_order :
  forall this : OptionSpec,
    m_defaultIsDefined this = false ->
    m_rangeIsDefined this = false ->
    (m_kind this = kInt ->
     forall defValue min max : Z,
       let ranged := intRange min max this in
       let defaulted := defInt defValue this in
       fst (defInt defValue (fst ranged)) = fst (intRange min max (fst defaulted))
       /\ app (snd ranged) (snd (defInt defValue (fst ranged)))
          = app (snd defaulted) (snd (intRange min max (fst defaulted)))
       /\ (app (snd ranged) (snd (defInt defValue (fst ranged))) = []
           <-> (min <= defValue <= max)%Z)
       /\ m_defaultIsDefined (fst (defInt defValue (fst ranged))) = true
       /\ m_defaultInt (fst (defInt defValue (fst ranged))) = defValue)
    /\ (m_kind this = kReal ->
        forall defValue min max : double,
          let ranged := realRange min max this in
          let defaulted := defReal defValue this in
          fst (defReal defValue (fst ranged))
          = fst (realRange min max (fst defaulted))
          /\ app (snd ranged) (snd (defReal defValue (fst ranged)))
             = app (snd defaulted) (snd (realRange min max (fst defaulted)))
          /\ (app (snd ranged) (snd (defReal defValue (fst ranged))) = []
              <-> Double.lt defValue min = false
                  /\ Double.gt defValue max = false)
          /\ m_defaultIsDefined (fst (defReal defValue (fst ranged))) = true
          /\ m_defaultReal (fst (defReal defValue (fst ranged))) = defValue).
Proof.
  intros this Hd Hr.
  destruct this as [k ln sn d rq sg eo rd mi ma mr xr ed en dd ds di dr].
  cbn in Hd, Hr. subst dd rd.
  split; intros K defValue min max; cbn in K; subst k;
    unfold intRange, defInt, realRange, defReal, warning, quiet, info; cbn.
  - destruct (Z.ltb_spec defValue min); destruct (Z.gtb_spec defValue max);
      cbn; repeat split; try discriminate; try lia; intros; lia.
  - destruct (Double.lt defValue min); destruct (Double.gt defValue max);
      cbn; repeat split; try discriminate; intros [? ?]; discriminate.
Qed.

Lemma default_and_range_in_either_order_witness :
  fst (defInt 15 (fst (intRange 1 10 (intSpec "count" "c" "" false))))
  = fst (intRange 1 10 (fst (defInt 15 (intSpec "count" "c" "" false))))
  /\ m_defaultInt
       (fst (defInt 15 (fst (intRange 1 10 (intSpec "count" "c" "" false)))))
     = 15%Z.
Proof.
  pose proof (proj1 (default_and_range_in_either_order
                       (intSpec "count" "c" "" false) eq_refl eq_refl)
                    eq_refl 15%Z 1%Z 10%Z) as H.
  cbv zeta in H. destruct H as (H1 & _ & _ & _ & H5). split; assumption.
Defined.

(** X21. A qualifier method changes nothing of what makes the option: kind,
    names, description, whether it is required or a singleton, and the
    values of an enumeration stay as they are. And it changes nothing that a
    qualifier before it has set: a default, a range and an environment
    variable that are defined keep their values. *)
Theorem qualifier_keeps_what_is_set :
  forall (q : Qualifier) (this : OptionSpec),
    (m_kind (fst (qualify q this)) = m_kind this
     /\ m_longName (fst (qualify q this)) = m_longName this
     /\ m_shortName (fst (qualify q this)) = m_shortName this
     /\ m_description (fst (qualify q this)) = m_description this
     /\ m_isRequired (fst (qualify q this)) = m_isRequired this
     /\ m_isSingleton (fst (qualify q this)) = m_isSingleton this
     /\ m_enumOptions (fst (qualify q this)) = m_enumOptions this)
    /\ (m_defaultIsDefined this = true ->
        m_defaultIsDefined (fst (qualify q this)) = true
        /\ m_defaultStr (fst (qualify q this)) = m_defaultStr this
        /\ m_defaultInt (fst (qualify q this)) = m_defaultInt this
        /\ m_defaultReal (fst (qualify q this)) = m_defaultReal this)
    /\ (m_rangeIsDefined this = true ->
        m_rangeIsDefined (fst (qualify q this)) = true
        /\ m_minIntValue (fst (qualify q this)) = m_minIntValue this
        /\ m_maxIntValue (fst (qualify q this)) = m_maxIntValue this
        /\ m_minRealValue (fst (qualify q this)) = m_minRealValue this
        /\ m_maxRealValue (fst (qualify q this)) = m_maxRealValue this)
    /\ (m_evIsDefined this = true ->
        m_evIsDefined (fst (qualify q this)) = true
        /\ m_evName (fst (qualify q this)) = m_evName this).
Proof.
  intros q this.
  destruct this as [k ln sn d rq sg eo rd mi ma mr xr ed en dd ds di dr].
  destruct q; cbn [qualify];
    unfold defStr, defInt, defReal, intRange, realRange, envVar,
      warning, quiet; cbn;
    repeat match goal with
           | |- context [if ?x then _ else _] => destruct x eqn:?
           end; cbn; repeat split; auto; intros; subst;
    cbn in *; try discriminate; try congruence.
Qed.

Lemma qualifier_keeps_what_is_set_witness :
  m_defaultInt
    (fst (qualify (QdefInt 5) (fst (defInt 3 (intSpec "count" "c" "" false)))))
  = m_defaultInt (fst (defInt 3 (intSpec "count" "c" "" false))).
Proof.
  exact (proj1 (proj2 (proj2
           (proj1 (proj2 (qualifier_keeps_what_is_set
                            (QdefInt 5)
                            (fst (defInt 3 (intSpec "count" "c" "" false)))))
                  eq_refl)))).
Defined.

(** ** Whole numbers as text *)

Lemma digits_of_small : forall p,
    (Zpos p < 2 ^ 52)%Z -> (0 < Zpos (digits2_pos p) < 53)%Z.
Proof.
  intros p Hp. pose proof (digits2_pos_bounds p) as Hb.
  split; [lia|].
  destruct (Z.lt_ge_cases (Zpos (digits2_pos p)) 53) as [|Hge];
    [assumption|exfalso].
  assert ((2 ^ 52 <= 2 ^ (Zpos (digits2_pos p) - 1))%Z)
    by (apply Z.pow_le_mono_r; lia).
  lia.
Qed.

Lemma round_half_even_exact : forall q den,
    (0 < den)%Z -> Double.round_half_even (q * den) den = q.
Proof.
  intros q den Hden. unfold Double.round_half_even.
  rewrite Z.mod_mul by lia. rewrite Z.div_mul by lia.
  cbn [Z.mul]. now rewrite (proj2 (Z.compare_lt_iff 0 den) Hden).
Qed.

Lemma utoa_short : forall n,
    (n < 10 ^ 16)%N -> (length (utoa n) <= 16)%nat.
Proof.
  intros n Hn. unfold utoa.
  pose proof (utoa_loop_length_tight (S (N.to_nat (N.log2 n))) n "" 15 Hn)
    as Hl.
  cbn [length] in Hl. lia.
Qed.

(** A [double] that holds a whole number of fewer than 53 bits is written
    with its digits and [.0]. *)
Lemma real2str_integer : forall (neg : bool) (p : positive),
    (Zpos p < 2 ^ 52)%Z ->
    real2str (Double.of_decimal neg (Npos p) 0)
    = Double.sign_text neg ++ utoa (Npos p) ++ ".0".
Proof.
  intros neg p Hp.
  pose proof (digits_of_small p Hp) as Hd.
  rewrite of_decimal_integer by lia.
  pose proof (iter_xO_value p (Z.to_pos (53 - Zpos (digits2_pos p)))) as Hmz.
  rewrite Z2Pos.id in Hmz by lia.
  generalize dependent (Pos.iter xO p (Z.to_pos (53 - Zpos (digits2_pos p)))).
  generalize dependent (Zpos (digits2_pos p)).
  intros d Hd mz Hmz.
  assert (Hden : (0 < 2 ^ (53 - d))%Z) by (apply Z.pow_pos_nonneg; lia).
  assert (Hneg : (0 <=? d - 53)%Z = false) by (apply Z.leb_gt; lia).
  assert (Hexp : (- (d - 53))%Z = (53 - d)%Z) by lia.
  unfold real2str, Double.is_whole, Double.format_f1, Double.ratio.
  rewrite Hneg, Hexp, Hmz. cbn [orb].
  rewrite Z.mod_mul by lia. cbn [Z.eqb].
  replace (Zpos p * 2 ^ (53 - d) * 10)%Z
    with ((Zpos p * 10) * 2 ^ (53 - d))%Z by lia.
  rewrite round_half_even_exact by exact Hden.
  rewrite Z.div_mul by lia. rewrite Z.mod_mul by lia.
  change (Z.to_N (Zpos p)) with (Npos p).
  change (utoa (Z.to_N 0)) with "0".
  unfold snprintf_store. apply substring_whole.
  rewrite !length_append.
  assert (Hn : (Npos p < 10 ^ 16)%N).
  { change (10 ^ 16)%N with (Z.to_N 10000000000000000).
    change (Npos p) with (Z.to_N (Zpos p)).
    apply Z2N.inj_lt; [lia|lia|].
    change (2 ^ 52)%Z with 4503599627370496%Z in Hp. lia. }
  pose proof (utoa_short _ Hn) as Hl.
  destruct neg; cbn [Double.sign_text length]; lia.
Qed.

(** X22. A whole number goes from text to [double] and back with one
    decimal: [str2real] reads the decimal text of an integer of a magnitude
    below 2^52, and [real2str] writes the [double] it returns as that text
    followed by [.0]. *)
Theorem whole_number_as_text :
  forall i : Z,
    (Z.abs i < 2 ^ 52)%Z ->
    exists r,
      str2real (decimal_text i) = Some r
      /\ real2str r = decimal_text i ++ ".0".
Proof.
  intros i Hi. unfold decimal_text.
  exists (Double.of_decimal (i <? 0)%Z (Z.to_N (Z.abs i)) 0).
  split; [apply str2real_decimal|].
  destruct (Z.to_N (Z.abs i)) as [|p] eqn:Hn.
  - assert (i = 0%Z) by lia. subst i. reflexivity.
  - rewrite real2str_integer; [now rewrite append_assoc|].
    assert (Zpos p = Z.abs i) by lia. lia.
Qed.

Lemma whole_number_as_text_witness :
  exists r,
    str2real (decimal_text (-15)) = Some r
    /\ real2str r = decimal_text (-15) ++ ".0".
Proof.
  apply (whole_number_as_text (-15)). simpl. lia.
Defined.

(** ** [join] and [splitString] *)

Lemma join_from_append : forall args sep result,
    join_from args sep false result = result ++ join_from args sep false "".
Proof.
  induction args as [|item rest IH]; intros sep result; cbn [join_from].
  - now rewrite append_nil_r.
  - rewrite IH. rewrite (IH sep (("" ++ sep) ++ item)).
    cbn [append]. now rewrite !append_assoc.
Qed.

Lemma join_cons : forall item rest sep,
    join (item :: rest) sep = item ++ join_from rest sep false "".
Proof.
  intros item rest sep. unfold join. cbn [join_from append].
  apply join_from_append.
Qed.

Lemma join_two : forall a b rest sep,
    join (a :: b :: rest) sep = a ++ sep ++ join (b :: rest) sep.
Proof.
  intros a b rest sep. rewrite !join_cons. cbn [join_from append].
  now rewrite (join_from_append rest sep (sep ++ b)), append_assoc.
Qed.

Lemma join_one : forall a sep, join [a] sep = a.
Proof. intros a sep. rewrite join_cons. apply append_nil_r. Qed.

Lemma join_snoc : forall group item sep,
    group <> [] ->
    join (app group [item]) sep = join group sep ++ sep ++ item.
Proof.
  induction group as [|a rest IH]; intros item sep H; [congruence|].
  destruct rest as [|b rest].
  - cbn [app]. now rewrite join_two, !join_one.
  - cbn [app] in *. rewrite !join_two, IH by discriminate.
    now rewrite !append_assoc.
Qed.

Lemma substring_cat : forall (s : string) (a b c : nat),
    substring a b s ++ substring (a + b) c s = substring a (b + c) s.
Proof.
  induction s as [|x s IH]; intros a b c.
  - destruct a, b, c; reflexivity.
  - destruct a as [|a].
    + destruct b as [|b]; [reflexivity|].
      cbn [substring Nat.add append]. f_equal. apply (IH 0%nat).
    + cbn [substring Nat.add]. apply IH.
Qed.

Lemma length_substring_le : forall (s : string) (n m : nat),
    (length (substring n m s) <= m)%nat.
Proof.
  induction s as [|c s IH]; intros n m.
  - destruct n, m; cbn; lia.
  - destruct n as [|n].
    + destruct m as [|m]; [cbn; lia|].
      cbn [substring length]. specialize (IH 0%nat m). lia.
    + cbn [substring]. apply IH.
Qed.

Lemma substring_substring : forall (s : string) (a k q n : nat),
    (q + n <= k)%nat ->
    substring q n (substring a k s) = substring (a + q) n s.
Proof.
  induction s as [|x s IH]; intros a k q n H.
  - destruct a, k; cbn; destruct q, n; reflexivity.
  - destruct a as [|a].
    + destruct k as [|k].
      * assert (q = 0%nat) by lia. assert (n = 0%nat) by lia. subst.
        cbn. reflexivity.
      * cbn [substring Nat.add]. destruct q as [|q].
        -- destruct n as [|n]; [reflexivity|].
           cbn [substring]. f_equal. apply (IH 0%nat k 0%nat n). lia.
        -- cbn [substring]. apply (IH 0%nat k q n). lia.
    + cbn [substring Nat.add]. apply IH. exact H.
Qed.

(** Where [find] finds the splitter. *)
Lemma index_bounds : forall (s2 s1 : string) (n m : nat),
    index n s1 s2 = Some m ->
    (n <= m)%nat /\ (m + length s1 <= length s2)%nat.
Proof.
  induction s2 as [|b s2 IH]; intros s1 n m H.
  - destruct n; [|discriminate]. cbn in H.
    destruct s1; [|discriminate]. injection H as <-. cbn. lia.
  - destruct n as [|n].
    + cbn [index] in H. destruct (prefix s1 (String b s2)) eqn:Hp.
      * injection H as <-. split; [lia|].
        apply prefix_correct in Hp.
        pose proof (length_substring_le (String b s2) 0 (length s1)) as Hl.
        rewrite Hp in Hl.
        destruct (Nat.le_gt_cases (length s1) (length (String b s2)))
          as [Hle|Hgt]; [lia|].
        rewrite substring_whole in Hp by lia.
        rewrite <- Hp in Hgt. lia.
      * destruct (index 0 s1 s2) as [k|] eqn:Hk; [|discriminate].
        injection H as <-. destruct (IH _ _ _ Hk). cbn [length]. lia.
    + cbn [index] in H.
      destruct (index n s1 s2) as [k|] eqn:Hk; [|discriminate].
      injection H as <-. destruct (IH _ _ _ Hk). cbn [length]. lia.
Qed.

Lemma splitString_from_S : forall turns str splitter includeEmpty pos result,
    splitString_from (S turns) str splitter includeEmpty pos result
    = match index pos splitter str with
      | None =>
          if includeEmpty
             || (0 <? length (substring pos (length str - pos) str))%nat
          then app result [substring pos (length str - pos) str]
          else result
      | Some found =>
          splitString_from turns str splitter includeEmpty
            (found + length splitter)
            (if includeEmpty
                || (0 <? length (substring pos (found - pos) str))%nat
             then app result [substring pos (found - pos) str]
             else result)
      end.
Proof. reflexivity. Qed.

Section Splitting.

Variables str splitter : string.
Variable includeEmpty : bool.
Hypothesis splitter_not_empty : splitter <> "".

Lemma splitter_length : (0 < length splitter)%nat.
Proof. destruct splitter; [congruence|cbn; lia]. Qed.

(** The items are added to those that are there. *)
Lemma splitString_from_app : forall turns pos result,
    splitString_from turns str splitter includeEmpty pos result
    = app result (splitString_from turns str splitter includeEmpty pos []).
Proof.
  induction turns as [|turns IH]; intros pos result.
  - cbn. now rewrite app_nil_r.
  - rewrite !splitString_from_S.
    destruct (index pos splitter str) as [found|].
    + rewrite IH.
      rewrite (IH _ (if includeEmpty || _ then app [] _ else [])).
      destruct (includeEmpty || _); cbn [app];
        now rewrite ?app_nil_r, <- ?app_assoc.
    + destruct (includeEmpty || _); cbn [app]; now rewrite ?app_nil_r.
Qed.

(** The bound on the turns is never met: more turns give the same items. *)
Lemma splitString_from_turns : forall turns turns' pos result,
    (length str - pos < turns)%nat -> (length str - pos < turns')%nat ->
    (pos <= length str)%nat ->
    splitString_from turns str splitter includeEmpty pos result
    = splitString_from turns' str splitter includeEmpty pos result.
Proof.
  pose proof splitter_length as Hlen.
  induction turns as [|turns IH]; intros turns' pos result H H' Hpos; [lia|].
  destruct turns' as [|turns']; [lia|].
  rewrite !splitString_from_S.
  destruct (index pos splitter str) as [found|] eqn:Hi; [|reflexivity].
  destruct (index_bounds _ _ _ _ Hi) as [Hlo Hhi].
  apply IH; lia.
Qed.

(** No item holds the splitter. *)
Lemma splitString_from_items : forall turns pos result item,
    (pos <= length str)%nat ->
    In item (splitString_from turns str splitter includeEmpty pos result) ->
    In item result \/ index 0 splitter item = None.
Proof.
  pose proof splitter_length as Hlen.
  induction turns as [|turns IH]; intros pos result item Hpos Hin.
  - now left.
  - rewrite splitString_from_S in Hin.
    destruct (index pos splitter str) as [found|] eqn:Hi.
    + destruct (index_bounds _ _ _ _ Hi) as [Hlo Hhi].
      apply IH in Hin; [|lia].
      destruct Hin as [Hin|Hnone]; [|now right].
      destruct (includeEmpty || _); [|now left].
      apply in_app_or in Hin. destruct Hin as [Hin|[<-|[]]]; [now left|].
      right.
      destruct (index 0 splitter (substring pos (found - pos) str))
        as [q|] eqn:Hq; [exfalso|reflexivity].
      destruct (index_bounds _ _ _ _ Hq) as [_ Hfit].
      pose proof (length_substring_le str pos (found - pos)) as Hl.
      apply index_correct1 in Hq.
      rewrite substring_substring in Hq by lia.
      apply (index_correct2 _ _ _ _ Hi (pos + q)%nat); [lia|lia|exact Hq].
    + destruct (includeEmpty || _); [|now left].
      apply in_app_or in Hin. destruct Hin as [Hin|[<-|[]]]; [now left|].
      right.
      destruct (index 0 splitter (substring pos (length str - pos) str))
        as [q|] eqn:Hq; [exfalso|reflexivity].
      destruct (index_bounds _ _ _ _ Hq) as [_ Hfit].
      pose proof (length_substring_le str pos (length str - pos)) as Hl.
      apply index_correct1 in Hq.
      rewrite substring_substring in Hq by lia.
      apply (index_correct3 _ (pos + q)%nat _ _ Hi splitter_not_empty);
        [lia|exact Hq].
Qed.

End Splitting.

(** With the empty items, the items joined by the splitter are the
    string. *)
Lemma splitString_from_join : forall str splitter turns pos,
    splitter <> "" ->
    (pos <= length str)%nat -> (length str - pos < turns)%nat ->
    splitString_from turns str splitter true pos [] <> []
    /\ join (splitString_from turns str splitter true pos []) splitter
       = substring pos (length str - pos) str.
Proof.
  intros str splitter turns pos Hne.
  pose proof (splitter_length splitter Hne) as Hlen.
  revert pos. induction turns as [|turns IH]; intros pos Hpos Hturns; [lia|].
  rewrite splitString_from_S. cbn [orb app].
  destruct (index pos splitter str) as [found|] eqn:Hi.
  - destruct (index_bounds _ _ _ _ Hi) as [Hlo Hhi].
    rewrite splitString_from_app.
    destruct (IH (found + length splitter)%nat ltac:(lia) ltac:(lia))
      as [Hitems Hjoin].
    split; [discriminate|].
    destruct (splitString_from turns str splitter true
                               (found + length splitter) [])
      as [|b rest] eqn:Hrest; [congruence|].
    cbn [app]. rewrite join_two, Hjoin.
    assert (E1 : splitter
                 ++ substring (found + length splitter)
                      (length str - (found + length splitter)) str
                 = substring found
                     (length splitter
                      + (length str - (found + length splitter))) str).
    { rewrite <- (index_correct1 _ _ _ _ Hi) at 1. apply substring_cat. }
    rewrite E1.
    pose proof (substring_cat str pos (found - pos)
                  (length splitter
                   + (length str - (found + length splitter)))) as E2.
    replace (pos + (found - pos))%nat with found in E2 by lia.
    rewrite E2. f_equal. lia.
  - split; [discriminate|]. apply join_one.
Qed.

Lemma splitString_from_not_empty : forall turns str splitter pos result,
    Forall (fun item => item <> "") result ->
    Forall (fun item => item <> "")
           (splitString_from turns str splitter false pos result).
Proof.
  induction turns as [|turns IH]; intros str splitter pos result H.
  - exact H.
  - rewrite splitString_from_S. cbn [orb].
    assert (Hadd : forall item,
               Forall (fun item => item <> "")
                      (if (0 <? length item)%nat then app result [item]
                       else result)).
    { intros item. destruct (Nat.ltb_spec 0 (length item)); [|exact H].
      apply Forall_app. split; [exact H|].
      constructor; [|constructor]. intros ->. cbn in *. lia. }
    destruct (index pos splitter str); [apply IH|]; apply Hadd.
Qed.

Lemma splitString_join : forall str splitter,
    splitter <> "" ->
    join (splitString str splitter true) splitter = str
    /\ splitString str splitter true <> [].
Proof.
  intros str splitter Hne. pose proof (splitter_length splitter Hne) as Hlen.
  unfold splitString.
  replace (0 <? length splitter)%nat with true
    by (symmetry; now apply Nat.ltb_lt).
  destruct (splitString_from_join str splitter (S (length str)) 0 Hne
              ltac:(lia) ltac:(lia)) as [Hitems Hjoin].
  split; [|exact Hitems].
  rewrite Hjoin, Nat.sub_0_r. apply substring_whole. lia.
Qed.

Lemma splitString_items : forall str splitter includeEmpty item,
    splitter <> "" ->
    In item (splitString str splitter includeEmpty) ->
    index 0 splitter item = None.
Proof.
  intros str splitter includeEmpty item Hne Hin.
  pose proof (splitter_length splitter Hne) as Hlen.
  unfold splitString in Hin.
  replace (0 <? length splitter)%nat with true in Hin
    by (symmetry; now apply Nat.ltb_lt).
  destruct (splitString_from_items str splitter includeEmpty Hne
              (S (length str)) 0 [] item (Nat.le_0_l _) Hin) as [[]|H].
  exact H.
Qed.

(** A string that does not begin with a space has a word. *)
Lemma first_word : forall c text,
    c <> " "%char -> splitString (String c text) " " false <> [].
Proof.
  intros c text Hc. unfold splitString.
  change (0 <? length " ")%nat with true. cbv iota.
  rewrite splitString_from_S. cbn [orb].
  destruct (index 0 " " (String c text)) as [found|] eqn:Hi.
  - rewrite splitString_from_app by discriminate.
    destruct found as [|found].
    + apply index_correct1 in Hi. cbn in Hi.
      destruct text; cbn in Hi; congruence.
    + cbn. discriminate.
  - cbn. discriminate.
Qed.

(** X23. [splitString] with an empty splitter returns the string as its one
    item, empty or not. With a splitter that is not empty: the items, the
    empty ones included, joined by the splitter are the string again, and
    there is one item at least; without the empty ones no item is empty; no
    item holds the splitter; and the loop has ended before the bound on its
    turns is met. *)
Theorem splitString_and_join :
  forall str splitter : string,
    (splitter = "" ->
     forall includeEmpty, splitString str splitter includeEmpty = [str])
    /\ (splitter <> "" ->
        join (splitString str splitter true) splitter = str
        /\ splitString str splitter true <> []
        /\ Forall (fun item => item <> "") (splitString str splitter false)
        /\ (forall includeEmpty item,
               In item (splitString str splitter includeEmpty) ->
               index 0 splitter item = None)
        /\ (forall includeEmpty more,
               splitString_from (S (length str) + more) str splitter
                                includeEmpty 0 []
               = splitString str splitter includeEmpty)).
Proof.
  intros str splitter. split.
  - intros -> includeEmpty. reflexivity.
  - intros Hne. pose proof (splitter_length splitter Hne) as Hlen.
    destruct (splitString_join str splitter Hne) as [Hjoin Hitems].
    split; [exact Hjoin|]. split; [exact Hitems|].
    split; [|split].
    + unfold splitString.
      replace (0 <? length splitter)%nat with true
        by (symmetry; now apply Nat.ltb_lt).
      apply splitString_from_not_empty. constructor.
    + intros includeEmpty item. now apply splitString_items.
    + intros includeEmpty more. unfold splitString.
      replace (0 <? length splitter)%nat with true
        by (symmetry; now apply Nat.ltb_lt).
      apply splitString_from_turns; [exact Hne|lia|lia|lia].
Qed.

Lemma splitString_and_join_witness :
  join (splitString "a,b,,c" "," true) "," = "a,b,,c"
  /\ splitString "a,b,,c" "," false = ["a"; "b"; "c"].
Proof.
  split.
  - apply (proj2 (splitString_and_join "a,b,,c" ",")). discriminate.
  - reflexivity.
Defined.

(** ** [formatLongLine] *)

Lemma formatLongLine_loop_cons :
  forall indent cpl item rest result line first,
    formatLongLine_loop indent cpl (item :: rest) result line first
    = if (cpl <=? length (if first then line ++ item
                           else line ++ " " ++ item))%nat
      then formatLongLine_loop indent cpl rest
             (result ++ (if first then line ++ item else line ++ " " ++ item)
                     ++ nl)
             indent true
      else formatLongLine_loop indent cpl rest result
             (if first then line ++ item else line ++ " " ++ item) false.
Proof. reflexivity. Qed.

Lemma line_with_item : forall prefix group item,
    (if is_nil group then (prefix ++ join group " ") ++ item
     else (prefix ++ join group " ") ++ " " ++ item)
    = prefix ++ join (app group [item]) " ".
Proof.
  intros prefix group item. destruct group as [|a rest].
  - cbn [is_nil app]. rewrite join_one. unfold join. cbn [join_from].
    now rewrite append_nil_r.
  - cbn [is_nil]. rewrite join_snoc by discriminate.
    now rewrite !append_assoc.
Qed.

Lemma formatLongLine_loop_spec :
  forall indent cpl ds result prefix group result' line' first',
    (group <> [] -> (length (prefix ++ join group " ") < cpl)%nat) ->
    formatLongLine_loop indent cpl ds result (prefix ++ join group " ")
                        (is_nil group)
    = (result', line', first') ->
    exists done last,
      app group ds = app (List.concat done) last
      /\ Forall (fun g => g <> []) done
      /\ result' = result ++ text_of_lines (lines_of_groups prefix indent done)
      /\ line' = (match done with [] => prefix | _ => indent end)
                 ++ join last " "
      /\ first' = is_nil last
      /\ Forall (fun line => (cpl <= length line)%nat)
                (lines_of_groups prefix indent done)
      /\ (last <> [] -> (length line' < cpl)%nat).
Proof.
  intros indent cpl ds. induction ds as [|item rest IH];
    intros result prefix group result' line' first' Hshort H.
  - cbn [formatLongLine_loop] in H. injection H as <- <- <-.
    exists [], group. cbn [List.concat app lines_of_groups text_of_lines].
    rewrite app_nil_r, append_nil_r. repeat split; auto.
  - rewrite formatLongLine_loop_cons, line_with_item in H.
    destruct (Nat.leb_spec cpl (length (prefix ++ join (app group [item]) " ")))
      as [Hlong|Hfits].
    + assert (H' : formatLongLine_loop indent cpl rest
                     (result ++ (prefix ++ join (app group [item]) " ") ++ nl)
                     (indent ++ join [] " ") (is_nil (@nil string))
                   = (result', line', first')).
      { rewrite <- H. unfold join at 2. cbn [join_from is_nil].
        now rewrite append_nil_r. }
      clear H. rename H' into H.
      assert (Hnil : @nil string <> [] ->
                     (length (indent ++ join [] " ") < cpl)%nat)
        by congruence.
      destruct (IH _ _ _ _ _ _ Hnil H)
        as (done & last & Hwords & Hdone & Hres & Hline & Hfirst & Hlines
            & Hlast).
      exists (app group [item] :: done), last.
      cbn [List.concat lines_of_groups text_of_lines app] in *.
      split; [now rewrite <- app_assoc, <- Hwords, <- app_assoc|].
      split; [constructor; [now destruct group|exact Hdone]|].
      split; [now rewrite Hres, !append_assoc|].
      split; [now destruct done|].
      split; [exact Hfirst|].
      split; [constructor; assumption|exact Hlast].
    + assert (H' : formatLongLine_loop indent cpl rest result
                     (prefix ++ join (app group [item]) " ")
                     (is_nil (app group [item]))
                   = (result', line', first')).
      { rewrite <- H. now destruct group. }
      clear H. rename H' into H.
      destruct (IH _ _ _ _ _ _ (fun _ => Hfits) H)
        as (done & last & Hwords & Hdone & Hres & Hline & Hfirst & Hlines
            & Hlast).
      exists done, last. split; [|auto 10].
      now rewrite <- Hwords, <- app_assoc.
Qed.

Lemma lines_of_groups_app : forall prefix indent done last,
    lines_of_groups prefix indent (app done [last])
    = app (lines_of_groups prefix indent done)
          [(match done with [] => prefix | _ => indent end) ++ join last " "].
Proof.
  intros prefix indent done. revert prefix.
  induction done as [|g rest IH]; intros prefix last.
  - reflexivity.
  - cbn [app lines_of_groups]. rewrite IH. now destruct rest.
Qed.

Lemma text_of_lines_app : forall lines more,
    text_of_lines (app lines more) = text_of_lines lines ++ text_of_lines more.
Proof.
  induction lines as [|line rest IH]; intros more; cbn [app text_of_lines].
  - reflexivity.
  - now rewrite IH, !append_assoc.
Qed.

Lemma length_pad_line : forall turns line,
    length (pad_line turns line) = (turns + length line)%nat.
Proof.
  induction turns as [|turns IH]; intros line; cbn [pad_line].
  - reflexivity.
  - rewrite IH, length_append. cbn. lia.
Qed.

Lemma pad_line_begins : forall turns line,
    exists spaces, pad_line turns line = line ++ spaces.
Proof.
  induction turns as [|turns IH]; intros line; cbn [pad_line].
  - exists "". now rewrite append_nil_r.
  - destruct (IH (line ++ " ")) as [spaces ->].
    exists (" " ++ spaces). now rewrite append_assoc.
Qed.

(** X24. The text of [formatLongLine] is made of lines, each ended by a new
    line. The words of the description, those between its spaces, are put on
    the lines in their order with one space between them, none is lost and
    none is added. The first line begins with the name, one space at least
    and spaces up to the width of the indent, every other line with the
    indent. Every line but the last has [cpl] characters or more: a line is
    ended by the word with which it gets that long. A description without a
    word gives no text at all, not the name either. *)
Theorem formatLongLine_lines :
  forall (indent name desc : string) (cpl : nat),
    (exists groups,
        List.concat groups = splitString desc " " false
        /\ Forall (fun group => group <> []) groups
        /\ formatLongLine indent name desc cpl
           = text_of_lines
               (lines_of_groups (name_column indent name) indent groups)
        /\ Forall (fun line => (cpl <= length line)%nat)
                  (removelast
                     (lines_of_groups (name_column indent name) indent
                                      groups)))
    /\ (formatLongLine indent name desc cpl = ""
        <-> splitString desc " " false = [])
    /\ (exists spaces, name_column indent name = name ++ " " ++ spaces)
    /\ (length indent <= length (name_column indent name))%nat.
Proof.
  intros indent name desc cpl.
  assert (Hgroups : exists groups,
             List.concat groups = splitString desc " " false
             /\ Forall (fun group => group <> []) groups
             /\ formatLongLine indent name desc cpl
                = text_of_lines
                    (lines_of_groups (name_column indent name) indent groups)
             /\ Forall (fun line => (cpl <= length line)%nat)
                       (removelast
                          (lines_of_groups (name_column indent name) indent
                                           groups))).
  { unfold formatLongLine. fold (name_column indent name).
    destruct (formatLongLine_loop indent cpl (splitString desc " " false) ""
                                  (name_column indent name) true)
      as [[result line] first] eqn:Hloop.
    assert (Hloop' : formatLongLine_loop indent cpl
                       (splitString desc " " false) ""
                       (name_column indent name ++ join [] " ")
                       (is_nil (@nil string))
                     = (result, line, first)).
    { rewrite <- Hloop. unfold join at 1. cbn [join_from is_nil].
      now rewrite append_nil_r. }
    clear Hloop. rename Hloop' into Hloop.
    assert (Hnil : @nil string <> [] ->
                   (length (name_column indent name ++ join [] " ") < cpl)%nat)
      by congruence.
    destruct (formatLongLine_loop_spec _ _ _ _ _ _ _ _ _ Hnil Hloop)
      as (done & last & Hwords & Hdone & Hres & Hline & Hfirst & Hlines & _).
    cbn [app append] in Hwords, Hres. subst result line first.
    destruct last as [|w last].
    - exists done. rewrite app_nil_r in Hwords. cbn [is_nil negb].
      repeat split; auto.
      clear - Hlines.
      induction Hlines as [|line lines Hline Hlines IH]; [constructor|].
      cbn [removelast]. destruct lines; [constructor|].
      constructor; assumption.
    - exists (app done [w :: last]). cbn [is_nil negb].
      split; [now rewrite concat_app; cbn [List.concat]; rewrite app_nil_r|].
      split; [apply Forall_app; split;
              [exact Hdone|constructor; [discriminate|constructor]]|].
      rewrite lines_of_groups_app. split.
      + rewrite text_of_lines_app. cbn [text_of_lines].
        now rewrite append_nil_r.
      + now rewrite removelast_last. }
  split; [exact Hgroups|]. split; [|split].
  - destruct Hgroups as (groups & Hwords & Hnonempty & Htext & _).
    rewrite Htext, <- Hwords.
    destruct groups as [|group groups]; [split; reflexivity|].
    split.
    + cbn [lines_of_groups text_of_lines]. intros H.
      apply (f_equal length) in H. rewrite !length_append in H.
      cbn in H. lia.
    + inversion Hnonempty as [|? ? Hgroup _]; subst.
      destruct group; [congruence|discriminate].
  - unfold name_column.
    destruct (pad_line_begins (length indent - length (name ++ " "))
                              (name ++ " ")) as [spaces ->].
    exists spaces. now rewrite append_assoc.
  - unfold name_column. rewrite length_pad_line. lia.
Qed.

Lemma formatLongLine_lines_witness :
  formatLongLine "    " "-n" "   " 40 = ""
  /\ formatLongLine "    " "-n" "one two three" 9
     = "-n  one two" ++ nl ++ "    three" ++ nl.
Proof.
  split.
  - apply (proj1 (proj2 (formatLongLine_lines "    " "-n" "   " 40))).
    reflexivity.
  - reflexivity.
Defined.

(** ** [optionHelp] *)

Lemma helpDefault_empty : forall spec,
    helpDefault spec = "" <-> m_defaultIsDefined spec = false.
Proof.
  intros spec. unfold helpDefault.
  destruct (m_defaultIsDefined spec); cbn; split; auto; discriminate.
Qed.

Lemma helpEnvVar_empty : forall spec,
    helpEnvVar spec = "" <-> m_evIsDefined spec = false.
Proof.
  intros spec. unfold helpEnvVar.
  destruct (m_evIsDefined spec); cbn; split; auto; discriminate.
Qed.

Lemma append_empty : forall s t : string, s ++ t = "" <-> s = "" /\ t = "".
Proof.
  intros s t. split.
  - destruct s; cbn; [auto|discriminate].
  - intros [-> ->]. reflexivity.
Qed.

(** A description without a word gives no text. *)
Lemma formatLongLine_blank : forall indent name desc cpl,
    splitString desc " " false = [] ->
    formatLongLine indent name desc cpl = "".
Proof.
  intros indent name desc cpl H. unfold formatLongLine. now rewrite H.
Qed.

(** X25. What [optionHelp] writes for one specification. When the
    description has no word, the name of the option is not written: there is
    only the text about requirement, constraint, default and environment
    variable, behind the gap, if there is any, and for an option that is not
    an enumeration there may be none. A description that begins with [!] is
    written as it is, line by line: the first line behind the name, the
    others behind the gap. *)
Theorem optionHelp_of_a_specification :
  forall (this : Parsley) (spec : OptionSpec),
    (splitString (m_description spec) " " false = [] ->
     optionHelp_spec this spec
     = (if (0 <? length (optionHelp_extra spec))%nat
        then formatLongLine gap "" (optionHelp_extra spec)
                            (to_unsigned (m_cpl this))
        else "")
       ++ (if m_extraNewLine this then nl else ""))
    /\ (optionHelp_extra spec = ""
        <-> (m_isRequired spec && negb (m_defaultIsDefined spec) = false
             /\ m_evIsDefined spec = false
             /\ match m_kind spec with
                | kFlag => True
                | kStr => m_defaultIsDefined spec = false
                | kEnum => False
                | kInt | kReal =>
                    m_defaultIsDefined spec = false
                    /\ m_rangeIsDefined spec = false
                end))
    /\ (forall text,
           m_description spec = String "!" text ->
           exists parts,
             parts <> []
             /\ join parts nl = text
             /\ (forall part, In part parts -> index 0 nl part = None)
             /\ optionHelp_spec this spec
                = literal_lines (name_column gap (name spec)) parts
                  ++ (if (0 <? length (optionHelp_extra spec))%nat
                      then formatLongLine gap "" (optionHelp_extra spec)
                                          (to_unsigned (m_cpl this))
                      else "")
                  ++ (if m_extraNewLine this then nl else "")).
Proof.
  intros this spec. split; [|split].
  - intros Hblank. unfold optionHelp_spec.
    assert (Hliteral :
              (1 <=? length (m_description spec))%nat
              && match get 0 (m_description spec) with
                 | Some c => Ascii.eqb c "!"
                 | None => false
                 end = false).
    { destruct (m_description spec) as [|c text]; [reflexivity|].
      cbn [get length Nat.leb andb].
      destruct (Ascii.eqb_spec c "!") as [->|]; [exfalso|reflexivity].
      (* a description that begins with [!] has a word *)
      now apply (first_word "!" text).
    }
    rewrite Hliteral.
    now rewrite (formatLongLine_blank _ _ _ _ Hblank).
  - unfold optionHelp_extra, helpConstraint.
    destruct (m_kind spec);
      rewrite ?append_empty, ?helpDefault_empty, ?helpEnvVar_empty;
      destruct (m_isRequired spec && negb (m_defaultIsDefined spec));
      destruct (m_evIsDefined spec);
      try destruct (m_rangeIsDefined spec);
      cbn; split; try tauto; try discriminate;
      intros H; decompose [and] H; clear H;
      try discriminate; try contradiction; auto.
  - intros text Hd. unfold optionHelp_spec. rewrite Hd.
    cbn [length Nat.leb get andb Nat.sub].
    change (Ascii.eqb "!" "!") with true. cbv iota.
    rewrite Nat.sub_0_r.
    change (substring 1 (length text) (String "!" text))
      with (substring 0 (length text) text).
    rewrite substring_whole by lia.
    assert (Hnl : nl <> "") by discriminate.
    destruct (splitString_join text nl Hnl) as [Hjoin Hparts].
    exists (splitString text nl true).
    split; [exact Hparts|]. split; [exact Hjoin|].
    split; [|reflexivity].
    intros part. now apply splitString_items.
Qed.

Lemma optionHelp_of_a_specification_witness :
  optionHelp_spec (fst (new_Parsley [])) (strSpec "name" "n" "  " false) = ""
  /\ optionHelp_spec (fst (new_Parsley []))
                     (flagSpec "all" "a" ("!first" ++ nl ++ "second") false)
     = "-a, --all           first" ++ nl
       ++ "                    second" ++ nl.
Proof.
  split.
  - rewrite (proj1 (optionHelp_of_a_specification
                      (fst (new_Parsley []))
                      (strSpec "name" "n" "  " false)) eq_refl).
    reflexivity.
  - reflexivity.
Defined.

(** ** The configuration of the help text *)

Lemma process_depends : forall getenv iteration this other arguments
                               (skipProgramName : bool),
    m_specList this = m_specList other ->
    m_specListOkay this = m_specListOkay other ->
    process getenv iteration this arguments skipProgramName
    = process getenv iteration other arguments skipProgramName.
Proof.
  intros getenv iteration this other arguments skipProgramName Hl Ho.
  unfold process. now rewrite Hl, Ho.
Qed.

(** X26. Whatever calls of [setOptionHelpCpl], [setOptionNewLineSeparator]
    and [setOptionIncludeNoMore] have configured a parser: the width of the
    help text is 40 at least, and it is the width that [formatLongLine]
    gets; the registry is valid exactly when the specifications are without
    conflict; and [process] does what it does for the parser as the
    constructor made it. *)
Theorem configured_parser :
  forall this : Parsley,
    Configured this ->
    (40 <= m_cpl this)%Z
    /\ is_intp (m_cpl this)
    /\ to_unsigned (m_cpl this) = Z.to_nat (m_cpl this)
    /\ (m_specListOkay this = true <-> conflict_free (m_specList this))
    /\ (forall getenv iteration arguments skipProgramName,
           process getenv iteration this arguments skipProgramName
           = process getenv iteration (fst (new_Parsley (m_specList this)))
                     arguments skipProgramName).
Proof.
  intros this H.
  assert (Hinv : (40 <= m_cpl this)%Z /\ is_intp (m_cpl this)
                 /\ m_specListOkay this
                    = m_specListOkay (fst (new_Parsley (m_specList this)))).
  { induction H as [specList|cpl this Hcpl H IH|b this H IH|b this H IH].
    - rewrite new_Parsley_specList. split; [|split; [|reflexivity]].
      + unfold new_Parsley.
        destruct (check_duplicates specList specList 0 (true, [])). cbn. lia.
      + unfold new_Parsley.
        destruct (check_duplicates specList specList 0 (true, [])).
        cbn. unfold is_intp, int_min, int_max. lia.
    - destruct IH as (H40 & Hint & Hok). cbn. split; [|split; [|exact Hok]].
      + destruct (Z.geb_spec cpl 40); lia.
      + destruct (Z.geb_spec cpl 40); [exact Hcpl|].
        unfold is_intp, int_min, int_max. lia.
    - exact IH.
    - exact IH. }
  destruct Hinv as (H40 & Hint & Hok).
  split; [exact H40|]. split; [exact Hint|]. split; [|split].
  - unfold to_unsigned. rewrite Z.mod_small; [reflexivity|].
    unfold is_intp, int_min, int_max in Hint. lia.
  - rewrite Hok. apply specListOkay_iff.
  - intros getenv iteration arguments skipProgramName.
    apply process_depends; [now rewrite new_Parsley_specList|exact Hok].
Qed.

Lemma configured_parser_witness :
  (40 <= m_cpl (setOptionHelpCpl 10 (fst (new_Parsley [help]))))%Z.
Proof.
  apply (configured_parser (setOptionHelpCpl 10 (fst (new_Parsley [help])))).
  apply Configured_cpl; [|apply Configured_new].
  unfold is_intp, int_min, int_max. lia.
Defined.

(** ** What the caller gets *)

(** X27. When [process] has returned true, [options ()[name]] for a name
    that is the long name of no specification, the short name of an option
    for one, is the empty value: not defined, no flag, no string, 0 and 0.0.
    For the long name of a specification it is the value of the entry that
    the container holds for it. *)
Theorem unknown_name_has_the_empty_value :
  forall (getenv : string -> option string) (iteration : MapType -> MapType)
         (specList : list OptionSpec) (arguments : list string)
         (skipProgramName : bool) (options : MapType)
         (params : list string),
    process getenv iteration (fst (new_Parsley specList))
            arguments skipProgramName
    = Success options params ->
    (forall optionName,
        (forall spec, In spec specList -> m_longName spec <> optionName) ->
        options_get options optionName = empty_OptionValue)
    /\ (forall spec, In spec specList ->
          exists entry,
            map_find options (m_longName spec) = Some entry
            /\ m_spec entry = spec
            /\ options_get options (m_longName spec)
               = {| ov_isDefined := isDefined entry; ov_flag := flag entry;
                    ov_str := str entry; ov_ival := ival entry;
                    ov_real := real entry |}).
Proof.
  intros getenv iteration specList arguments skipProgramName options params H.
  unfold process in H. rewrite new_Parsley_specList in H.
  destruct (m_specListOkay (fst (new_Parsley specList))) eqn:Hok;
    [|discriminate].
  apply specListOkay_iff in Hok. cbn [negb] in H.
  destruct (seed_all getenv specList []) as [|theMap] eqn:Hseed;
    [discriminate|].
  pose proof (scan_well_keyed specList
                (if skipProgramName then tl arguments else arguments)
                (initial_state theMap)
                (seed_all_well_keyed getenv specList theMap Hok Hseed)) as Hwk.
  assert (Hend : well_keyed specList options).
  { destruct (scan specList (initial_state theMap)
                   (if skipProgramName then tl arguments else arguments))
      as [| |st|st]; try discriminate.
    - injection H as <- _. exact Hwk.
    - destruct (check_required (iteration (values st))); [discriminate|].
      injection H as <- _. exact Hwk. }
  split.
  - intros optionName Hnone. unfold options_get.
    destruct (map_find options optionName) as [entry|] eqn:Hfind;
      [exfalso|reflexivity].
    destruct Hend as (_ & Hspec & _).
    destruct (Hspec _ _ (map_find_In _ _ _ Hfind)) as [Hin Hname].
    now apply (Hnone (m_spec entry)).
  - intros spec Hin.
    destruct (well_keyed_entry _ _ _ Hok Hend Hin) as (entry & Hfind & Hs).
    exists entry. unfold options_get. rewrite Hfind. auto.
Qed.

Lemma unknown_name_has_the_empty_value_witness :
  options_get
    (map_set (seeded no_environment [help; strSpec "name" "n" "" true])
             "name"
             {| isDefined := true; flag := false; str := "x"; ival := 0;
                real := Double.zero; m_alreadySpecified := true;
                m_spec := strSpec "name" "n" "" true |})
    "n"
  = empty_OptionValue.
Proof.
  apply (proj1 (unknown_name_has_the_empty_value
                  no_environment insertion_order
                  [help; strSpec "name" "n" "" true]
                  ["prog"; "-n"; "x"; "file"] true _ ["file"] eq_refl)).
  intros spec [<-|[<-|[]]]; discriminate.
Defined.

(** ** A text without a number *)

(** X28. [str2real] and [str2int] return false for the empty string and for
    a string of white space. *)
Theorem blank_text_is_no_number :
  forall text : string,
    string_forall isspace text = true ->
    str2real text = None /\ str2int text = None.
Proof.
  intros text H.
  assert (Hr : str2real text = None).
  { unfold str2real. destruct (index 0 "!!" text); [reflexivity|].
    rewrite (stripString_spaces text H). reflexivity. }
  split; [exact Hr|]. unfold str2int. now rewrite Hr.
Qed.

Lemma blank_text_is_no_number_witness :
  str2real "  " = None /\ str2int "  " = None.
Proof. apply (blank_text_is_no_number "  "). reflexivity. Defined.

(** ** The order of the container *)

Lemma check_required_some : forall nodes message,
    check_required nodes = Some message ->
    exists key value,
      In (key, value) nodes
      /\ m_isRequired (m_spec value) = true
      /\ isDefined value = false
      /\ message = "a value is required for: " ++ name (m_spec value).
Proof.
  induction nodes as [|[k v] rest IH]; intros message H;
    cbn [check_required] in H.
  - discriminate.
  - destruct (m_isRequired (m_spec v) && negb (isDefined v)) eqn:Hv.
    + injection H as <-. apply andb_true_iff in Hv. destruct Hv as [Hr Hd].
      apply negb_true_iff in Hd. exists k, v. repeat split; auto. now left.
    + destruct (IH _ H) as (key & value & Hin & Hrest).
      exists key, value. split; [now right|exact Hrest].
Qed.

(** X29. The order in which the container is traversed, which the
    implementation of [std::unordered_map] chooses, decides nothing but
    which of several required options without a value the message of
    Phase C names. With another order [process] returns true with the same
    values and parameters, or false with the same message or with the
    message for another required option. *)
Theorem traversal_order_picks_the_message_only :
  forall (getenv : string -> option string)
         (iteration iteration' : MapType -> MapType)
         (this : Parsley) (arguments : list string) (skipProgramName : bool),
    traversal iteration -> traversal iteration' ->
    match process getenv iteration this arguments skipProgramName with
    | Success options params =>
        process getenv iteration' this arguments skipProgramName
        = Success options params
    | Failure message =>
        process getenv iteration' this arguments skipProgramName
        = Failure message
        \/ exists spec spec',
            m_isRequired spec = true /\ m_isRequired spec' = true
            /\ message = "a value is required for: " ++ name spec
            /\ process getenv iteration' this arguments skipProgramName
               = Failure ("a value is required for: " ++ name spec')
    | Fault =>
        process getenv iteration' this arguments skipProgramName = Fault
    end.
Proof.
  intros getenv iteration iteration' this arguments skipProgramName Hp Hp'.
  unfold process.
  destruct (negb (m_specListOkay this)); [now left|].
  destruct (seed_all getenv (m_specList this) []) as [|theMap]; [now left|].
  destruct (scan (m_specList this) (initial_state theMap)
                 (if skipProgramName then tl arguments else arguments))
    as [message| |st|st]; try reflexivity; [now left|].
  destruct (check_required (iteration (values st))) as [message|] eqn:Hc.
  - right.
    destruct (check_required_some _ _ Hc) as (key & value & Hin & Hr & Hd & ->).
    assert (Hin' : In (key, value) (iteration' (values st))).
    { apply Permutation_in with (values st);
        [apply Permutation_sym, Hp'|].
      now apply (Permutation_in _ (Hp (values st))). }
    destruct (check_required_found _ _ _ Hin' Hr Hd)
      as (key' & value' & _ & Hr' & _ & Hc').
    exists (m_spec value), (m_spec value'). rewrite Hc'. auto.
  - replace (check_required (iteration' (values st))) with (@None string);
      [reflexivity|].
    symmetry. apply check_required_none. intros key value Hin Hr.
    apply (proj1 (check_required_none _) Hc key value); [|exact Hr].
    apply Permutation_in with (values st);
      [apply Permutation_sym, Hp|].
    now apply (Permutation_in _ (Hp' (values st))).
Qed.

Lemma traversal_order_picks_the_message_only_witness :
  process no_environment reverse_order
          (fst (new_Parsley [strSpec "name" "n" "" true;
                             intSpec "count" "c" "" true]))
          ["prog"] true
  = Failure "a value is required for: -n, --name"
  \/ exists spec spec',
      m_isRequired spec = true /\ m_isRequired spec' = true
      /\ "a value is required for: -n, --name"
         = "a value is required for: " ++ name spec
      /\ process no_environment reverse_order
                 (fst (new_Parsley [strSpec "name" "n" "" true;
                                    intSpec "count" "c" "" true]))
                 ["prog"] true
         = Failure ("a value is required for: " ++ name spec').
Proof.
  exact (traversal_order_picks_the_message_only
           no_environment insertion_order reverse_order
           (fst (new_Parsley [strSpec "name" "n" "" true;
                              intSpec "count" "c" "" true]))
           ["prog"] true
           (fun theMap => Permutation_refl theMap)
           (fun theMap => Permutation_sym (Permutation_rev theMap))).
Defined.

(** ** Default, environment, command line *)

(** X30. The environment goes before the default. When [process] returns
    true and the environment variable of an option is set, the option has
    the value read from the variable unless it was met on the command line,
    whatever its default is: the string itself, the position of the string
    among the values of an enumeration, the integer or the real number read
    from it; a flag is on exactly for [1], [Y] and [YES]. An option that is
    no flag is defined. *)
Theorem environment_goes_before_default :
  forall (getenv : string -> option string) (iteration : MapType -> MapType)
         (specList : list OptionSpec) (arguments : list string)
         (skipProgramName : bool) (options : MapType) (params : list string)
         (spec : OptionSpec) (evValue : string),
    process getenv iteration (fst (new_Parsley specList))
            arguments skipProgramName
    = Success options params ->
    In spec specList ->
    m_evIsDefined spec = true ->
    getenv (m_evName spec) = Some evValue ->
    exists entry,
      map_find options (m_longName spec) = Some entry
      /\ (m_kind spec <> kFlag -> isDefined entry = true)
      /\ (m_alreadySpecified entry = false ->
          match m_kind spec with
          | kFlag => flag entry = flag_from_environment evValue
          | kStr => str entry = evValue
          | kEnum =>
              str entry = evValue
              /\ ival entry = indexOf (m_enumOptions spec) evValue
              /\ In evValue (m_enumOptions spec)
          | kInt => str2int evValue = Some (ival entry)
          | kReal => str2real evValue = Some (real entry)
          end).
Proof.
  intros getenv iteration specList arguments skipProgramName options params
         spec evValue H Hin Hev Hget.
  destruct (process_success _ _ _ _ _ _ _ H)
    as (Hok & theMap & Hseed & Hwk & Hentries).
  destruct (well_keyed_entry _ _ _ Hok Hwk Hin) as (entry & Hfind & Hspec).
  exists entry. split; [exact Hfind|].
  destruct (seed_all_entries getenv specList [] theMap
              (conflict_free_long_names _ Hok) Hseed) as (Hall & _).
  destruct (Hall spec Hin) as (seeded0 & Hs & Hf).
  assert (Hfrom : entry = seeded0
                  \/ (m_alreadySpecified entry = true
                      /\ isDefined entry = true)).
  { destruct (Hentries (m_longName spec)) as [Hsame|(v & Hv & Hdup & Hdef)].
    - left. congruence.
    - right. rewrite Hfind in Hv. injection Hv as <-. auto. }
  unfold seed in Hs. rewrite Hev, Hget in Hs.
  destruct Hfrom as [->|[Hdup Hdef]];
    [|split; [auto|intros E; congruence]].
  destruct (m_kind spec) eqn:K.
  - injection Hs as <-. split; [congruence|]. reflexivity.
  - injection Hs as <-. split; reflexivity.
  - cbn [isDefined with_isDefined with_str with_ival ival str] in Hs.
    destruct (Z.ltb_spec (indexOf (m_enumOptions spec) evValue) 0)
      as [Hneg|Hpos]; [discriminate|].
    injection Hs as <-. split; [reflexivity|]. intros _.
    split; [reflexivity|]. split; [reflexivity|].
    destruct (in_dec string_dec evValue (m_enumOptions spec)) as [Hi|Hout];
      [exact Hi|].
    rewrite (proj2 (indexOf_missing _ _) Hout) in Hpos. lia.
  - destruct (str2int evValue) as [i|]; [|discriminate].
    injection Hs as <-. split; reflexivity.
  - destruct (str2real evValue) as [r|]; [|discriminate].
    injection Hs as <-. split; reflexivity.
Qed.

Lemma environment_goes_before_default_witness :
  exists entry,
    map_find
      (seeded count_environment
              [fst (envVar "COUNT"
                           (fst (defInt 3 (intSpec "count" "c" "" false))))])
      "count"
    = Some entry
    /\ (kInt <> kFlag -> isDefined entry = true)
    /\ (m_alreadySpecified entry = false ->
        str2int "99" = Some (ival entry)).
Proof.
  apply (environment_goes_before_default
           count_environment insertion_order
           [fst (envVar "COUNT" (fst (defInt 3 (intSpec "count" "c" "" false))))]
           ["prog"; "file"] true _ ["file"]
           (fst (envVar "COUNT" (fst (defInt 3 (intSpec "count" "c" "" false)))))
           "99").
  - vm_compute. reflexivity.
  - left. reflexivity.
  - reflexivity.
  - reflexivity.
Defined.
